(** * SWOT-Tool: scoring, aggregation and KI-scoring orchestration

    A shallow embedding of [src/App.tsx] (the React client) and of the
    serverless function [/api/ai-score] that follows it in the same source
    file, with the properties stated by the specification.

    JavaScript numbers are modelled by [number]: the IEEE special values
    [NaN], [+Infinity], [-Infinity], and finite values as rationals.  The
    arithmetic comes twice.  At the top level [nsub], [nadd], [nmul] and
    [ndiv] are exact on finite values; the functions built on them describe
    the program as long as its arithmetic is exact, and give the distances
    and sums that the statements speak of.  Module [Double] has the same
    operations with the rounding and the overflow of binary64, and the
    functions of the source over them; the service, and the statements on
    nearest members, means and ranking, are about these.  The two agree on
    the binary64 inputs below [2^53].  The sign of zero is not part of the
    model; none of the functions modelled can tell [+0] from [-0]. *)

From stdpp Require Import gmap strings.
From Stdlib Require Import QArith Qabs Qround Qpower Qreduction Lqa Lia List.
From Stdlib Require Import Permutation Sorted.
From Stdlib Require Import DecimalString.
Import ListNotations.

Local Open Scope Q_scope.

(** ** JavaScript numbers *)

Inductive number : Type :=
  | NaN
  | NegInf
  | PosInf
  | Fin (q : Q).

Definition num (z : Z) : number := Fin (inject_Z z).

Definition is_finite (x : number) : bool :=
  match x with Fin _ => true | _ => false end.

(** [Number.isNaN]. *)
Definition isNaN (x : number) : bool :=
  match x with NaN => true | _ => false end.

(** [x < y]; every comparison with [NaN] is false. *)
Definition nlt (x y : number) : bool :=
  match x, y with
  | NaN, _ | _, NaN => false
  | NegInf, NegInf => false
  | NegInf, _ => true
  | _, NegInf => false
  | PosInf, _ => false
  | Fin _, PosInf => true
  | Fin a, Fin b => match a ?= b with Lt => true | _ => false end
  end.

(** [x <= y]. *)
Definition nle (x y : number) : bool :=
  match x, y with
  | NaN, _ | _, NaN => false
  | NegInf, _ => true
  | _, NegInf => false
  | _, PosInf => true
  | PosInf, Fin _ => false
  | Fin a, Fin b => match a ?= b with Gt => false | _ => true end
  end.

(** [x === y] on numbers. *)
Definition neqb (x y : number) : bool :=
  match x, y with
  | NegInf, NegInf | PosInf, PosInf => true
  | Fin a, Fin b => Qeq_bool a b
  | _, _ => false
  end.

(** [x - y]. *)
Definition nsub (x y : number) : number :=
  match x, y with
  | NaN, _ | _, NaN => NaN
  | PosInf, PosInf | NegInf, NegInf => NaN
  | PosInf, _ => PosInf
  | NegInf, _ => NegInf
  | Fin _, PosInf => NegInf
  | Fin _, NegInf => PosInf
  | Fin a, Fin b => Fin (a - b)
  end.

(** [x + y]. *)
Definition nadd (x y : number) : number :=
  match x, y with
  | NaN, _ | _, NaN => NaN
  | PosInf, NegInf | NegInf, PosInf => NaN
  | PosInf, _ | _, PosInf => PosInf
  | NegInf, _ | _, NegInf => NegInf
  | Fin a, Fin b => Fin (a + b)
  end.

Definition sign_inf (c : comparison) : number :=
  match c with Lt => NegInf | Eq => NaN | Gt => PosInf end.

Definition nneg (x : number) : number :=
  match x with
  | NaN => NaN
  | NegInf => PosInf
  | PosInf => NegInf
  | Fin a => Fin (- a)
  end.

(** [x * y]; an infinity times zero is [NaN]. *)
Definition nmul (x y : number) : number :=
  match x, y with
  | NaN, _ | _, NaN => NaN
  | PosInf, PosInf | NegInf, NegInf => PosInf
  | PosInf, NegInf | NegInf, PosInf => NegInf
  | PosInf, Fin a | Fin a, PosInf => sign_inf (a ?= 0)
  | NegInf, Fin a | Fin a, NegInf => nneg (sign_inf (a ?= 0))
  | Fin a, Fin b => Fin (a * b)
  end.

(** [x / y]; the zero divisor is taken to be [+0]. *)
Definition ndiv (x y : number) : number :=
  match x, y with
  | NaN, _ | _, NaN => NaN
  | (PosInf | NegInf), (PosInf | NegInf) => NaN
  | PosInf, Fin b => match b ?= 0 with Lt => NegInf | _ => PosInf end
  | NegInf, Fin b => match b ?= 0 with Lt => PosInf | _ => NegInf end
  | Fin _, (PosInf | NegInf) => Fin 0
  | Fin a, Fin b =>
      match b ?= 0 with
      | Eq => sign_inf (a ?= 0)
      | _ => Fin (a / b)
      end
  end.

(** [Math.abs]. *)
Definition nabs (x : number) : number :=
  match x with
  | NaN => NaN
  | NegInf | PosInf => PosInf
  | Fin a => Fin (Qabs a)
  end.

(** ** The scale *)

Definition scale : list Z :=
  [1; 2; 3; 5; 8; 13; 21; 34; 55; 89; 144; 233; 377; 610; 987; 1597]%Z.

Definition FIB : list number := map num scale.

Definition ALL_FIB_WITH_ZERO : list number := num 0 :: FIB.

(** ** Client-side snapping: [nearestFib] *)

(** One iteration of [for (const f of FIB)], on the pair [(best, minDiff)]. *)
Definition nearest_step (n : number) (st : number * number) (f : number)
  : number * number :=
  let d := nabs (nsub n f) in
  if nlt d (snd st) then (f, d) else st.

Definition nearestFib (n : number) : number :=
  if nle n (num 0) then num 0
  else
    let best := nth 0 FIB NaN in
    let minDiff := nabs (nsub n best) in
    fst (fold_left (nearest_step n) FIB (best, minDiff)).

(** ** Service-side snapping: [snapFib] *)

(** [Array.prototype.reduce] without an initial value: the accumulator
    starts at the first element and the callback runs on the others.  On an
    empty array JavaScript throws a [TypeError], which is [None] here. *)
Definition reduce {A : Type} (f : A -> A -> A) (l : list A) : option A :=
  match l with
  | [] => None
  | x :: rest => Some (fold_left f rest x)
  end.

Definition snap_step (n p c : number) : number :=
  if nlt (nabs (nsub c n)) (nabs (nsub p n)) then c else p.

(** [FIB] is a non-empty literal, so the [reduce] never throws; the
    [None] branch is unreachable. *)
Definition snapFib (n : number) : number :=
  match reduce (snap_step n) FIB with
  | Some v => v
  | None => NaN
  end.

(** The distance the two snappers compare. *)
Definition dist (n f : number) : number := nabs (nsub n f).

(** [f] is a member of [among] closest to [q] and the lowest of the
    equally close ones. *)
Definition closest_low (q : Q) (f : Z) (among : list Z) : Prop :=
  forall g, In g among ->
    Qabs (q - inject_Z f) <= Qabs (q - inject_Z g) /\
    (Qabs (q - inject_Z g) <= Qabs (q - inject_Z f) -> (f <= g)%Z).

(** ** Data model *)

Module Area.
Inductive t : Type := S | W | O | T.
End Area.

Definition AREAS : list Area.t := [Area.S; Area.W; Area.O; Area.T].

(** [Record<Area, A>]: one value per area. *)
Record byArea (A : Type) : Type := ByArea {
  at_S : A;
  at_W : A;
  at_O : A;
  at_T : A
}.
Arguments ByArea {A} _ _ _ _.
Arguments at_S {A} _.
Arguments at_W {A} _.
Arguments at_O {A} _.
Arguments at_T {A} _.

(** [r[a]] *)
Definition get {A : Type} (r : byArea A) (a : Area.t) : A :=
  match a with
  | Area.S => at_S r
  | Area.W => at_W r
  | Area.O => at_O r
  | Area.T => at_T r
  end.

(** [{ ...r, [a]: v }] *)
Definition set {A : Type} (a : Area.t) (v : A) (r : byArea A) : byArea A :=
  match a with
  | Area.S => ByArea v (at_W r) (at_O r) (at_T r)
  | Area.W => ByArea (at_S r) v (at_O r) (at_T r)
  | Area.O => ByArea (at_S r) (at_W r) v (at_T r)
  | Area.T => ByArea (at_S r) (at_W r) (at_O r) v
  end.

Record Criterion : Type := {
  c_id : string;
  c_text : string;
  score : option number
}.

Record Scenario : Type := {
  s_id : string;
  s_name : string;
  description : string;
  files : list string;
  criteria : byArea (list Criterion)
}.

(** ** Aggregation: [mean], [perScenarioStats], [sortedForRanking] *)

Definition mean (values : list number) : number :=
  if Nat.eqb (length values) 0 then num 0
  else
    let s := fold_left nadd values (num 0) in
    ndiv s (num (Z.of_nat (length values))).

(** [.filter((v): v is number => typeof v === "number")] on a list of
    optional scores. *)
Fixpoint filter_number (l : list (option number)) : list number :=
  match l with
  | [] => []
  | Some v :: rest => v :: filter_number rest
  | None :: rest => filter_number rest
  end.

Record Stats : Type := {
  st_id : string;
  st_name : string;
  means : byArea number;
  total : number
}.

(** The means of one scenario: the loop [for (const a of AREAS)] in the
    callback of [perScenarioStats]. *)
Definition computeMeans (s : Scenario) : byArea number :=
  fold_left
    (fun means a =>
       let vals := filter_number (map score (get (criteria s) a)) in
       set a (mean vals) means)
    AREAS
    (ByArea (num 0) (num 0) (num 0) (num 0)).

(** The weighted total, [means.S * weights.S + ... + means.T * weights.T]. *)
Definition computeTotal (means weights : byArea number) : number :=
  nadd (nadd (nadd (nmul (at_S means) (at_S weights))
                   (nmul (at_W means) (at_W weights)))
             (nmul (at_O means) (at_O weights)))
       (nmul (at_T means) (at_T weights)).

Definition perScenarioStats (scenarios : list Scenario) (weights : byArea number)
  : list Stats :=
  map (fun s =>
         let means := computeMeans s in
         {| st_id := s_id s; st_name := s_name s; means := means;
            total := computeTotal means weights |})
      scenarios.

(** [Array.prototype.sort(compareFn)].  ECMAScript requires the sort to be
    stable and to place [a] before [b] whenever [compareFn(a, b) < 0]; a
    result of [0] or [NaN] leaves the two in their order.  It is modelled by
    a stable insertion sort: [x], which stood before everything in [l], moves
    behind [y] only when [compareFn(x, y) > 0]. *)
Fixpoint sort_insert {A : Type} (compareFn : A -> A -> number) (x : A) (l : list A)
  : list A :=
  match l with
  | [] => [x]
  | y :: rest =>
      if nlt (num 0) (compareFn x y) then y :: sort_insert compareFn x rest
      else x :: y :: rest
  end.

Fixpoint sort {A : Type} (compareFn : A -> A -> number) (l : list A) : list A :=
  match l with
  | [] => []
  | x :: rest => sort_insert compareFn x (sort compareFn rest)
  end.

Definition sortedForRanking (scenarios : list Scenario) (weights : byArea number)
  : list Stats :=
  sort (fun a b => nsub (total b) (total a)) (perScenarioStats scenarios weights).

(** The criteria of an area that carry a score. *)
Definition scoredCriteria (cs : list Criterion) : list Criterion :=
  filter (fun c => match score c with Some _ => true | None => false end) cs.

(** The sum of the finite scores present in an area, as a rational. *)
Definition scoreSum (cs : list Criterion) : Q :=
  fold_right
    (fun c acc => match score c with Some (Fin q) => q + acc | _ => acc end)
    0 cs.

(** Every score present is a finite number. *)
Definition finiteScores (cs : list Criterion) : Prop :=
  Forall (fun c => match score c with
                   | Some x => is_finite x = true
                   | None => True
                   end) cs.

(** ** Binary64 arithmetic

    The numbers the program computes with are IEEE 754 binary64 values.  The
    result of an operation on finite operands is the exact result rounded to
    the nearest representable value, ties to the value with an even
    significand, and an infinity when the rounded magnitude reaches
    [2^1024].  The definitions below give that rounding on the rationals. *)

Definition pow2 (e : Z) : Q := 2 ^ e.

(** [floor (log2 |q|)], for [q] other than zero. *)
Definition Qlog2 (q : Q) : Z :=
  let c := (Z.log2 (Z.abs (Qnum q)) - Z.log2 (Zpos (Qden q)))%Z in
  if Qle_bool (pow2 c) (Qabs q) then c else (c - 1)%Z.

(** The exponent of the unit in the last place of [q]: 53 significant bits,
    and the least exponent [-1074] in the subnormal range. *)
Definition expo (q : Q) : Z := Z.max (Qlog2 q - 52) (-1074).

(** The integer nearest to [x], the even one when two are equally near. *)
Definition rne (x : Q) : Z :=
  let f := Qfloor x in
  match Qcompare (x - inject_Z f) (1 # 2) with
  | Lt => f
  | Gt => (f + 1)%Z
  | Eq => if Z.even f then f else (f + 1)%Z
  end.

(** [x] rounded to a multiple of [2^e]. *)
Definition scaled (e : Z) (x : Q) : Q := inject_Z (rne (x / pow2 e)) * pow2 e.

Definition round64 (q : Q) : number :=
  if Qeq_bool q 0 then Fin 0
  else
    let r := scaled (expo q) q in
    if Qle_bool (pow2 1024) (Qabs r)
    then (if Qle_bool 0 q then PosInf else NegInf)
    else Fin (Qred r).

(** [q] is a binary64 value: rounding leaves it as it is. *)
Definition isDouble (q : Q) : Prop := round64 q = Fin (Qred q).

(** ** The program's arithmetic

    [Double] holds the arithmetic as the program runs it, on binary64 values,
    and the functions of the source that compute with numbers, over that
    arithmetic.  The comparisons, [Math.abs] and the negation above are exact
    on binary64 values and are shared. *)

Module Double.

(** [x - y]. *)
Definition nsub (x y : number) : number :=
  match x, y with
  | NaN, _ | _, NaN => NaN
  | PosInf, PosInf | NegInf, NegInf => NaN
  | PosInf, _ => PosInf
  | NegInf, _ => NegInf
  | Fin _, PosInf => NegInf
  | Fin _, NegInf => PosInf
  | Fin a, Fin b => round64 (a - b)
  end.

(** [x + y]. *)
Definition nadd (x y : number) : number :=
  match x, y with
  | NaN, _ | _, NaN => NaN
  | PosInf, NegInf | NegInf, PosInf => NaN
  | PosInf, _ | _, PosInf => PosInf
  | NegInf, _ | _, NegInf => NegInf
  | Fin a, Fin b => round64 (a + b)
  end.

(** [x * y]; an infinity times zero is [NaN]. *)
Definition nmul (x y : number) : number :=
  match x, y with
  | NaN, _ | _, NaN => NaN
  | PosInf, PosInf | NegInf, NegInf => PosInf
  | PosInf, NegInf | NegInf, PosInf => NegInf
  | PosInf, Fin a | Fin a, PosInf => sign_inf (a ?= 0)
  | NegInf, Fin a | Fin a, NegInf => nneg (sign_inf (a ?= 0))
  | Fin a, Fin b => round64 (a * b)
  end.

(** [x / y]; the zero divisor is taken to be [+0]. *)
Definition ndiv (x y : number) : number :=
  match x, y with
  | NaN, _ | _, NaN => NaN
  | (PosInf | NegInf), (PosInf | NegInf) => NaN
  | PosInf, Fin b => match b ?= 0 with Lt => NegInf | _ => PosInf end
  | NegInf, Fin b => match b ?= 0 with Lt => PosInf | _ => NegInf end
  | Fin _, (PosInf | NegInf) => Fin 0
  | Fin a, Fin b =>
      match b ?= 0 with
      | Eq => sign_inf (a ?= 0)
      | _ => round64 (a / b)
      end
  end.

(** One iteration of [for (const f of FIB)], on the pair [(best, minDiff)]. *)
Definition nearest_step (n : number) (st : number * number) (f : number)
  : number * number :=
  let d := nabs (nsub n f) in
  if nlt d (snd st) then (f, d) else st.

Definition nearestFib (n : number) : number :=
  if nle n (num 0) then num 0
  else
    let best := nth 0 FIB NaN in
    let minDiff := nabs (nsub n best) in
    fst (fold_left (nearest_step n) FIB (best, minDiff)).

Definition snap_step (n p c : number) : number :=
  if nlt (nabs (nsub c n)) (nabs (nsub p n)) then c else p.

Definition snapFib (n : number) : number :=
  match reduce (snap_step n) FIB with
  | Some v => v
  | None => NaN
  end.

Definition mean (values : list number) : number :=
  if Nat.eqb (length values) 0 then num 0
  else
    let s := fold_left nadd values (num 0) in
    ndiv s (num (Z.of_nat (length values))).

Definition computeMeans (s : Scenario) : byArea number :=
  fold_left
    (fun means a =>
       let vals := filter_number (map score (get (criteria s) a)) in
       set a (mean vals) means)
    AREAS
    (ByArea (num 0) (num 0) (num 0) (num 0)).

Definition computeTotal (means weights : byArea number) : number :=
  nadd (nadd (nadd (nmul (at_S means) (at_S weights))
                   (nmul (at_W means) (at_W weights)))
             (nmul (at_O means) (at_O weights)))
       (nmul (at_T means) (at_T weights)).

Definition perScenarioStats (scenarios : list Scenario) (weights : byArea number)
  : list Stats :=
  map (fun s =>
         let means := computeMeans s in
         {| st_id := s_id s; st_name := s_name s; means := means;
            total := computeTotal means weights |})
      scenarios.

Definition sortedForRanking (scenarios : list Scenario) (weights : byArea number)
  : list Stats :=
  sort (fun a b => nsub (total b) (total a)) (perScenarioStats scenarios weights).

End Double.

(** ** Application state and handlers

    The component keeps [scenarios], [selectedScenarioId] and [weights] in
    React state.  A handler is a closure of one render: it reads the values
    that render saw and queues state updates, which React applies in order.
    [setScenarios] is called both with a value and with an updater
    function. *)

Record AppState : Type := {
  scenarios : list Scenario;
  selectedScenarioId : string;
  weights : byArea number
}.

Inductive Update : Type :=
  | SetScenarios (next : list Scenario)
  | UpdateScenarios (updater : list Scenario -> list Scenario)
  | SetSelectedScenarioId (id : string)
  | SetWeights (w : byArea number).

Definition apply_update (st : AppState) (u : Update) : AppState :=
  match u with
  | SetScenarios next =>
      {| scenarios := next; selectedScenarioId := selectedScenarioId st;
         weights := weights st |}
  | UpdateScenarios updater =>
      {| scenarios := updater (scenarios st);
         selectedScenarioId := selectedScenarioId st; weights := weights st |}
  | SetSelectedScenarioId id =>
      {| scenarios := scenarios st; selectedScenarioId := id;
         weights := weights st |}
  | SetWeights w =>
      {| scenarios := scenarios st;
         selectedScenarioId := selectedScenarioId st; weights := w |}
  end.

Definition commit (st : AppState) (updates : list Update) : AppState :=
  fold_left apply_update updates st.

Definition emptyCriteria : byArea (list Criterion) := ByArea [] [] [] [].

(** The state of the first render; [uid0] is what [uid()] returned. *)
Definition initialState (uid0 : string) : AppState :=
  {| scenarios :=
       [ {| s_id := uid0; s_name := "Szenario A"; description := "";
            files := []; criteria := emptyCriteria |} ];
     selectedScenarioId := uid0;
     weights := ByArea (num 1) (num (-1)) (num 1) (num (-1)) |}.

(** [scenarios.find((s) => s.id === selectedScenarioId)] *)
Definition selected (st : AppState) : option Scenario :=
  find (fun s => String.eqb (s_id s) (selectedScenarioId st)) (scenarios st).

(** [Partial<Scenario>] *)
Record PartialScenario : Type := {
  p_id : option string;
  p_name : option string;
  p_description : option string;
  p_files : option (list string);
  p_criteria : option (byArea (list Criterion))
}.

Definition onlyCriteria (c : byArea (list Criterion)) : PartialScenario :=
  {| p_id := None; p_name := None; p_description := None; p_files := None;
     p_criteria := Some c |}.

(** [{ ...s, ...partial }] *)
Definition spread (s : Scenario) (partial : PartialScenario) : Scenario :=
  {| s_id := default (s_id s) (p_id partial);
     s_name := default (s_name s) (p_name partial);
     description := default (description s) (p_description partial);
     files := default (files s) (p_files partial);
     criteria := default (criteria s) (p_criteria partial) |}.

Definition nl : string := String (Ascii.ascii_of_nat 10) EmptyString.

Section Render.
(** The values one render closes over: the state it was rendered from
    and [selected], the scenario found in it. *)
Variable r : AppState.
Variable sel : Scenario.

Definition updateScenario (partial : PartialScenario) : list Update :=
  [ UpdateScenarios
      (fun prev =>
         map (fun s =>
                if String.eqb (s_id s) (selectedScenarioId r)
                then spread s partial else s)
             prev) ].

(** [fresh] is the result of [uid()] and [name] the string
    [`Szenario ${String.fromCharCode(65 + scenarios.length)}`]. *)
Definition addScenario (fresh name : string) : list Update :=
  let s := {| s_id := fresh; s_name := name; description := "";
              files := []; criteria := emptyCriteria |} in
  [ UpdateScenarios (fun prev => prev ++ [s]); SetSelectedScenarioId fresh ].

Definition removeScenario (id : string) : list Update :=
  let next := filter (fun s => negb (String.eqb (s_id s) id)) (scenarios r) in
  match next with
  | [] => []
  | first :: _ =>
      SetScenarios next ::
      (if String.eqb (selectedScenarioId r) id
       then [SetSelectedScenarioId (s_id first)] else [])
  end.

Definition setCriterionText (area : Area.t) (id text : string) : list Update :=
  updateScenario
    (onlyCriteria
       (set area
            (map (fun c =>
                    if String.eqb (c_id c) id
                    then {| c_id := c_id c; c_text := text; score := score c |}
                    else c)
                 (get (criteria sel) area))
            (criteria sel))).

Definition deleteCriterion (area : Area.t) (id : string) : list Update :=
  updateScenario
    (onlyCriteria
       (set area
            (filter (fun c => negb (String.eqb (c_id c) id))
                    (get (criteria sel) area))
            (criteria sel))).

Definition setCriterionScore (area : Area.t) (id : string)
           (new_score : option number) : list Update :=
  updateScenario
    (onlyCriteria
       (set area
            (map (fun c =>
                    if String.eqb (c_id c) id
                    then {| c_id := c_id c; c_text := c_text c;
                            score := new_score |}
                    else c)
                 (get (criteria sel) area))
            (criteria sel))).
End Render.



(** ** KI-scoring on the client: [aiScoreAll] *)

(** JSON values as far as [typeof] tells them apart. *)
Inductive jsval : Type :=
  | JUndefined
  | JNull
  | JBool (b : bool)
  | JNumber (n : number)
  | JString (s : string)
  | JObject.

(** The response of [fetch]: [text] is the body as [res.text()] gives it,
    [json] the result of [res.json()], either the message of the error it
    throws or the parsed
    [Partial<Record<Area, Record<string, number>>>]. *)
Record Response : Type := {
  status : N;
  statusText : string;
  text : string;
  json : string + byArea (option (gmap string jsval))
}.

Inductive FetchOutcome : Type :=
  | Rejected (message : string)
  | Responded (res : Response).

(** [res.ok]: the status is in the range 200-299. *)
Definition ok (res : Response) : bool :=
  (200 <=? status res)%N && (status res <=? 299)%N.

Definition number_to_string (n : N) : string :=
  NilZero.string_of_uint (N.to_uint n).

(** What a run of a handler leaves behind: queued state updates and the
    texts passed to [alert]. *)
Record Effects : Type := {
  updates : list Update;
  alerts : list string
}.

Definition rejectedMessage (res : Response) : string :=
  ("KI-Bewertung nicht erreichbar." ++ nl ++
   "Bitte Backend-Endpoint POST /api/ai-score bereitstellen." ++ nl ++ nl ++
   "HTTP " ++ number_to_string (status res) ++ " " ++ statusText res ++
   (if String.eqb (text res) "" then "" else nl ++ nl ++ text res))%string.

Definition caughtMessage (message : string) : string :=
  ("Fehler beim KI-Scoring:" ++ nl ++ message ++ nl ++ nl ++
   "Stelle sicher, dass /api/ai-score erreichbar ist.")%string.

Section AiScoreAll.
Variable r : AppState.
Variable sel : Scenario.

(** The body of the inner loop, for criterion [c] of area [a]. *)
Definition scoreFromResponse (mapForArea : gmap string jsval) (a : Area.t)
           (c : Criterion) : list Update :=
  let raw := default JUndefined (mapForArea !! c_id c) in
  match raw with
  | JNumber x =>
      if negb (isNaN x)
      then setCriterionScore r sel a (c_id c) (Some (nearestFib x))
      else []
  | _ => []
  end.

Definition applyResponse (data : byArea (option (gmap string jsval)))
  : list Update :=
  flat_map
    (fun a =>
       let mapForArea := default ∅ (get data a) in
       flat_map (scoreFromResponse mapForArea a) (get (criteria sel) a))
    AREAS.

Definition aiScoreAll (outcome : FetchOutcome) : Effects :=
  match outcome with
  | Rejected message =>
      {| updates := []; alerts := [caughtMessage message] |}
  | Responded res =>
      if negb (ok res)
      then {| updates := []; alerts := [rejectedMessage res] |}
      else
        match json res with
        | inl message =>
            {| updates := []; alerts := [caughtMessage message] |}
        | inr data => {| updates := applyResponse data; alerts := [] |}
        end
  end.
End AiScoreAll.

(** The state after [aiScoreAll], started in the render of [st], has run
    on [outcome] and React has applied the queued updates to [st];
    [None] when the render has no selected scenario. *)
Definition afterAiScoreAll (st : AppState) (outcome : FetchOutcome)
  : option AppState :=
  match selected st with
  | Some sel => Some (commit st (updates (aiScoreAll st sel outcome)))
  | None => None
  end.

(** ** The service: [scoreOne] and [handler] *)

Record CriterionIn : Type := {
  in_id : string;
  in_text : string
}.

(** The request body after [req.json()] and [Body.safeParse]. *)
Inductive RequestBody : Type :=
  | InvalidJSON
  | SchemaError (formatted : string)
  | ValidBody (criteria : byArea (list CriterionIn)).

Record Request : Type := {
  method : string;
  body : RequestBody
}.

Inductive HandlerResult : Type :=
  | Respond (status : N) (body : string)
  | RespondScores (out : byArea (gmap string number))
  | Throws.

(** [Promise.all]: fulfilled with all results, rejected when one of the
    promises is. *)
Fixpoint promise_all {A : Type} (l : list (option A)) : option (list A) :=
  match l with
  | [] => Some []
  | None :: _ => None
  | Some x :: rest =>
      match promise_all rest with
      | Some xs => Some (x :: xs)
      | None => None
      end
  end.

(** One completion call, [openai.chat.completions.create] followed by
    [JSON.parse], as a function of the criterion text it is asked about:
    [None] when the call or the parsing throws, otherwise
    [payload.score]. *)
Definition Completion : Type := string -> option jsval.

(** The client that [new OpenAI(...)] returns.  The calls of a request are
    independent of each other, so the client holds one completion per call:
    [openai a k] is the call made for the criterion at position [k] of
    area [a].  The numbers it computes are binary64 values, so [scoreOne]
    snaps in binary64 arithmetic. *)
Definition OpenAI : Type := Area.t -> nat -> Completion.

Definition scoreOne (completion : Completion) (text : string) : option number :=
  match completion text with
  | None => None
  | Some payload_score =>
      let raw :=
        match payload_score with JNumber x => x | _ => num 0 end in
      Some (Double.snapFib raw)
  end.

(** [Promise.all(list.map(async (c) => ({ id: c.id, v: await scoreOne(openai, c.text) })))],
    with the completions of the area. *)
Definition scoreList (completions : nat -> Completion) (items : list CriterionIn)
  : option (list (string * number)%type) :=
  promise_all
    (imap (fun k c =>
             match scoreOne (completions k) (in_text c) with
             | Some v => Some (in_id c, v)
             | None => None
             end)
          items).

(** [for (const r of results) out[area][r.id] = r.v], on the object literal
    [{}]: the assignment creates or overwrites the property [r.id], except
    for the id [__proto__], where it reaches the setter of
    [Object.prototype], which ignores a number and leaves the object as it
    is. *)
Definition record_results (results : list (string * number)%type)
           (m : gmap string number) : gmap string number :=
  fold_left
    (fun m r => if String.eqb (fst r) "__proto__" then m else <[fst r := snd r]> m)
    results m.

Definition scoreAreas (openai : OpenAI) (criteria : byArea (list CriterionIn))
  : option (byArea (gmap string number)) :=
  fold_left
    (fun acc area =>
       match acc with
       | None => None
       | Some out =>
           match scoreList (openai area) (get criteria area) with
           | None => None
           | Some results =>
               Some (set area (record_results results (get out area)) out)
           end
       end)
    AREAS
    (Some (ByArea ∅ ∅ ∅ ∅)).

(** [constructed] is the outcome of
    [new OpenAI({ apiKey: process.env.OPENAI_API_KEY })]: the client, or
    [None] when the constructor throws, as it does when the environment
    variable is not set.  The handler builds the client after it has
    checked the method and the body, and before any scoring. *)
Definition handler (constructed : option OpenAI) (req : Request) : HandlerResult :=
  if negb (String.eqb (method req) "POST")
  then Respond 405 "Method Not Allowed"
  else
    match body req with
    | InvalidJSON => Respond 400 "Invalid JSON"
    | SchemaError formatted => Respond 400 formatted
    | ValidBody criteria =>
        match constructed with
        | None => Throws
        | Some openai =>
            match scoreAreas openai criteria with
            | Some out => RespondScores out
            | None => Throws
            end
        end
    end.

(** A [POST] request whose body passed validation. *)
Definition postScores (criteria : byArea (list CriterionIn)) : Request :=
  {| method := "POST"; body := ValidBody criteria |}.

(** An event of the user interface, run in the render of the current
    state; the updates it queues are applied before the next event. *)
Inductive Action : Type :=
  | AddScenario (fresh name : string)
  | RemoveScenario (id : string)
  | SelectScenario (id : string)
  | ChangeWeights (w : byArea number)
  | ScoreCriterion (area : Area.t) (id : string) (new_score : option number)
  | EditCriterion (area : Area.t) (id text : string)
  | DeleteCriterion (area : Area.t) (id : string)
  | AiScore (outcome : FetchOutcome).

(** The updates an action queues.  The handlers that read [selected] do
    not run in a render without a selected scenario. *)
Definition handle (st : AppState) (a : Action) : list Update :=
  match a with
  | AddScenario fresh name => addScenario fresh name
  | RemoveScenario id => removeScenario st id
  | SelectScenario id => [SetSelectedScenarioId id]
  | ChangeWeights w => [SetWeights w]
  | ScoreCriterion area id new_score =>
      match selected st with
      | Some sel => setCriterionScore st sel area id new_score
      | None => []
      end
  | EditCriterion area id text =>
      match selected st with
      | Some sel => setCriterionText st sel area id text
      | None => []
      end
  | DeleteCriterion area id =>
      match selected st with
      | Some sel => deleteCriterion st sel area id
      | None => []
      end
  | AiScore outcome =>
      match selected st with
      | Some sel => updates (aiScoreAll st sel outcome)
      | None => []
      end
  end.

Definition step (st : AppState) (a : Action) : AppState :=
  commit st (handle st a).

Definition run (st : AppState) (actions : list Action) : AppState :=
  fold_left step actions st.

(** Applying the update to a non-empty scenario set leaves it non-empty. *)
Definition keeps_scenarios (u : Update) : Prop :=
  forall st, scenarios st <> [] -> scenarios (apply_update st u) <> [].

(** ** The remaining handlers of the client *)

(** [text.split("\n")]: the pieces between the newlines; an empty text has
    the one piece [""]. *)
Fixpoint split_newline (s : string) : list string :=
  match s with
  | EmptyString => [EmptyString]
  | String ch rest =>
      if Ascii.eqb ch (Ascii.ascii_of_nat 10)
      then EmptyString :: split_newline rest
      else
        match split_newline rest with
        | [] => [String ch EmptyString]
        | line :: lines => String ch line :: lines
        end
  end.

Definition onlyName (v : string) : PartialScenario :=
  {| p_id := None; p_name := Some v; p_description := None; p_files := None;
     p_criteria := None |}.

Definition onlyDescription (v : string) : PartialScenario :=
  {| p_id := None; p_name := None; p_description := Some v; p_files := None;
     p_criteria := None |}.

Definition onlyFiles (names : list string) : PartialScenario :=
  {| p_id := None; p_name := None; p_description := None;
     p_files := Some names; p_criteria := None |}.

Section FurtherHandlers.
(** [String.prototype.trim] is taken as given. *)
Variable trim : string -> string.
Variable r : AppState.
Variable sel : Scenario.

(** The callbacks [onChangeName], [onChangeDesc] and [onFiles] that [App]
    passes to [Step1_Scenarios]. *)
Definition onChangeName (v : string) : list Update :=
  updateScenario r (onlyName v).

Definition onChangeDesc (v : string) : list Update :=
  updateScenario r (onlyDescription v).

Definition onFiles (names : list string) : list Update :=
  updateScenario r (onlyFiles (files sel ++ names)).

(** [text.split("\n").map((l) => l.trim()).filter(Boolean)] *)
Definition criteriaLines (text : string) : list string :=
  filter (fun l => negb (String.eqb l "")) (map trim (split_newline text)).

(** [uid k] is what the call of [uid()] for line number [k] returns. *)
Definition addCriteriaFromText (uid : nat -> string) (area : Area.t)
           (text : string) : list Update :=
  let lines := criteriaLines text in
  match lines with
  | [] => []
  | _ :: _ =>
      updateScenario r
        (onlyCriteria
           (set area
                (get (criteria sel) area ++
                 imap (fun k t => {| c_id := uid k; c_text := t; score := None |})
                      lines)
                (criteria sel)))
  end.
End FurtherHandlers.

(** What a handler bound to the selected scenario can queue, with the
    arguments the components pass: [Step1_Scenarios] the name, description
    and file names, [Step2_Criteria] added, edited and deleted criteria,
    and the [select] of [Step3_Scoring] either no score or one of
    [ALL_FIB_WITH_ZERO]. *)
Inductive ScenarioHandler (trim : string -> string) (st : AppState)
          (sel : Scenario) : list Update -> Prop :=
  | H_name v : ScenarioHandler trim st sel (onChangeName st v)
  | H_desc v : ScenarioHandler trim st sel (onChangeDesc st v)
  | H_files names : ScenarioHandler trim st sel (onFiles st sel names)
  | H_addCriteria uid area text :
      ScenarioHandler trim st sel (addCriteriaFromText trim st sel uid area text)
  | H_edit area id text :
      ScenarioHandler trim st sel (setCriterionText st sel area id text)
  | H_delete area id :
      ScenarioHandler trim st sel (deleteCriterion st sel area id)
  | H_unscore area id :
      ScenarioHandler trim st sel (setCriterionScore st sel area id None)
  | H_score area id v :
      In v ALL_FIB_WITH_ZERO ->
      ScenarioHandler trim st sel (setCriterionScore st sel area id (Some v)).

(** The states the application can be in.  Every event runs in the render
    of the current state, except that the response of the scoring endpoint
    arrives later: [aiScoreAll] was started in the render of an earlier
    state [r], and its updates are applied to the state [st] of that
    moment.  The header offers the existing scenarios for selection. *)
Inductive Reachable (trim : string -> string) : AppState -> Prop :=
  | R_initial uid0 : Reachable trim (initialState uid0)
  | R_addScenario st fresh name :
      Reachable trim st ->
      Reachable trim (commit st (addScenario fresh name))
  | R_removeScenario st id :
      Reachable trim st ->
      Reachable trim (commit st (removeScenario st id))
  | R_select st id :
      Reachable trim st -> In id (map s_id (scenarios st)) ->
      Reachable trim (commit st [SetSelectedScenarioId id])
  | R_weights st w :
      Reachable trim st -> Reachable trim (commit st [SetWeights w])
  | R_scenario st sel us :
      Reachable trim st -> selected st = Some sel ->
      ScenarioHandler trim st sel us ->
      Reachable trim (commit st us)
  | R_aiScoreAll r sel st outcome :
      Reachable trim r -> selected r = Some sel -> Reachable trim st ->
      Reachable trim (commit st (updates (aiScoreAll r sel outcome))).

(** The selected id names a scenario of the list. *)
Definition validSelection (st : AppState) : Prop :=
  In (selectedScenarioId st) (map s_id (scenarios st)).

(** Every score in the state is absent or one of [ALL_FIB_WITH_ZERO]. *)
Definition offeredScore (c : Criterion) : Prop :=
  match score c with
  | None => True
  | Some v => In v ALL_FIB_WITH_ZERO
  end.

Definition scoresOffered (s : Scenario) : Prop :=
  forall a, Forall offeredScore (get (criteria s) a).

(** A partial that keeps the id and brings, if any, criteria whose scores
    are all offered ones. *)
Definition offeredPartial (p : PartialScenario) : Prop :=
  p_id p = None /\
  match p_criteria p with
  | None => True
  | Some c => forall a, Forall offeredScore (get c a)
  end.

(** An update as [updateScenario] queues it in some render, with such a
    partial. *)
Definition offeredUpdate (u : Update) : Prop :=
  exists id p,
    offeredPartial p /\
    u = UpdateScenarios
          (fun prev =>
             map (fun s => if String.eqb (s_id s) id then spread s p else s)
                 prev).

(** The invariant of the application state. *)
Definition stateInvariant (st : AppState) : Prop :=
  validSelection st /\ Forall scoresOffered (scenarios st).

(** The criteria of area [a] of a scenario that carry the id [id]. *)
Definition criteriaWithId (s : Scenario) (a : Area.t) (id : string)
  : list Criterion :=
  filter (fun c => String.eqb (c_id c) id) (get (criteria s) a).

(** Two scenarios agree in everything but the scores: same id, name,
    description and files, and in every area the same criteria ids and
    texts in the same order. *)
Definition sameButScores (s s' : Scenario) : Prop :=
  s_id s' = s_id s /\ s_name s' = s_name s /\
  description s' = description s /\ files s' = files s /\
  forall a, map c_id (get (criteria s') a) = map c_id (get (criteria s) a) /\
            map c_text (get (criteria s') a) = map c_text (get (criteria s) a).



(** The number of newline characters of a text. *)
Fixpoint newlines (s : string) : nat :=
  match s with
  | EmptyString => 0
  | String ch rest =>
      (if Ascii.eqb ch (Ascii.ascii_of_nat 10) then 1 else 0) + newlines rest
  end.

(** * Properties *)

(** ** Sample runs of the snappers *)

Example nearestFib_4 : nearestFib (num 4) = num 3.
Proof. reflexivity. Qed.
Example nearestFib_0 : nearestFib (num 0) = num 0.
Proof. reflexivity. Qed.
Example snapFib_0 : snapFib (num 0) = num 1.
Proof. reflexivity. Qed.
Example nearestFib_NaN : nearestFib NaN = num 1.
Proof. reflexivity. Qed.
Example nearestFib_inf : nearestFib PosInf = num 1 /\ nearestFib NegInf = num 0.
Proof. split; reflexivity. Qed.
Example nearestFib_big : nearestFib (num 5000) = num 1597.
Proof. reflexivity. Qed.

(** ** Comparisons of finite numbers *)

Lemma nlt_Fin (a b : Q) : nlt (Fin a) (Fin b) = true <-> a < b.
Proof.
  simpl. rewrite Qlt_alt. destruct (a ?= b); split; congruence.
Qed.

Lemma nlt_Fin_false (a b : Q) : nlt (Fin a) (Fin b) = false <-> b <= a.
Proof.
  rewrite <- Bool.not_true_iff_false, nlt_Fin. split.
  - apply Qnot_lt_le.
  - apply Qle_not_lt.
Qed.

Lemma nle_Fin (a b : Q) : nle (Fin a) (Fin b) = true <-> a <= b.
Proof.
  simpl. rewrite Qle_alt. destruct (a ?= b); split; congruence.
Qed.

Lemma nle_Fin_false (a b : Q) : nle (Fin a) (Fin b) = false <-> b < a.
Proof.
  rewrite <- Bool.not_true_iff_false, nle_Fin. split.
  - apply Qnot_le_lt.
  - apply Qlt_not_le.
Qed.

Lemma Qabs_cases (x : Q) :
  (0 <= x /\ Qabs x == x) \/ (x <= 0 /\ Qabs x == - x).
Proof.
  destruct (Qlt_le_dec x 0) as [H | H].
  - right. split; [lra |]. apply Qabs_neg. lra.
  - left. split; [exact H |]. apply Qabs_pos. exact H.
Qed.

(** Linear arithmetic over the rationals with absolute values: every
    [Qabs x] is replaced by a fresh variable and split on the sign of [x]. *)
Ltac qabs_lra :=
  repeat match goal with
    | |- context [Qabs ?x] =>
        let v := fresh "v" in
        let H := fresh "H" in
        let E := fresh "E" in
        pose proof (Qabs_cases x) as H;
        remember (Qabs x) as v eqn:E; clear E;
        destruct H as [[? ?] | [? ?]]
    | H0 : context [Qabs ?x] |- _ =>
        let v := fresh "v" in
        let H := fresh "H" in
        let E := fresh "E" in
        pose proof (Qabs_cases x) as H;
        remember (Qabs x) as v eqn:E; clear E;
        destruct H as [[? ?] | [? ?]]
    end;
  lra.

Lemma dist_Fin (q : Q) (z : Z) :
  dist (Fin q) (num z) = Fin (Qabs (q - inject_Z z)).
Proof. reflexivity. Qed.

(** ** The loop of [nearestFib] *)

Lemma nearest_step_Fin (q : Q) (b x : Z) :
  nearest_step (Fin q) (num b, dist (Fin q) (num b)) (num x) =
  if nlt (dist (Fin q) (num x)) (dist (Fin q) (num b))
  then (num x, dist (Fin q) (num x)) else (num b, dist (Fin q) (num b)).
Proof. reflexivity. Qed.

Lemma nearest_loop (q : Q) (l : list Z) :
  forall (seen : list Z) (b : Z),
    In b seen ->
    closest_low q b seen ->
    (forall x g, In x l -> In g seen -> (g <= x)%Z) ->
    StronglySorted Z.le l ->
    exists f,
      fst (fold_left (nearest_step (Fin q)) (map num l)
             (num b, dist (Fin q) (num b))) = num f /\
      In f (seen ++ l) /\ closest_low q f (seen ++ l).
Proof.
  induction l as [| x l IH]; intros seen b Hb Hc Hle Hs.
  - exists b. rewrite app_nil_r. simpl. auto.
  - inversion Hs as [| ? ? Hs' Hx]; subst.
    change (map num (x :: l)) with (num x :: map num l).
    cbn [fold_left]. rewrite nearest_step_Fin.
    assert (Hle' : forall y g, In y l -> In g (seen ++ [x]) -> (g <= y)%Z).
    { intros y g Hy Hg. apply in_app_or in Hg. destruct Hg as [Hg | [<- | []]].
      - apply Hle; [right |]; assumption.
      - rewrite Forall_forall in Hx. apply Hx, Hy. }
    destruct (nlt (dist (Fin q) (num x)) (dist (Fin q) (num b))) eqn:E;
      rewrite !dist_Fin in E.
    + apply nlt_Fin in E.
      destruct (IH (seen ++ [x]) x) as (f & Hf & Hin & Hcl); auto.
      * apply in_or_app. right. left. reflexivity.
      * intros g Hg. apply in_app_or in Hg. destruct Hg as [Hg | [<- | []]].
        -- destruct (Hc g Hg) as [H1 _]. split; [lra | intros H2; lra].
        -- split; [lra | lia].
      * exists f. rewrite <- app_assoc in Hin, Hcl. auto.
    + apply nlt_Fin_false in E.
      destruct (IH (seen ++ [x]) b) as (f & Hf & Hin & Hcl); auto.
      * apply in_or_app. left. assumption.
      * intros g Hg. apply in_app_or in Hg. destruct Hg as [Hg | [<- | []]].
        -- apply Hc, Hg.
        -- split; [exact E |]. intros _. apply Hle; [left; reflexivity | exact Hb].
      * exists f. rewrite <- app_assoc in Hin, Hcl. auto.
Qed.

Lemma scale_sorted : StronglySorted Z.le scale.
Proof.
  unfold scale.
  repeat (apply SSorted_cons; [| repeat (apply Forall_cons; [lia |]); apply Forall_nil]).
  apply SSorted_nil.
Qed.

Lemma scale_ge_1 (x : Z) : In x scale -> (1 <= x)%Z.
Proof. unfold scale. simpl. intros H. repeat (destruct H as [<- | H]; [lia |]). destruct H. Qed.

Lemma nearestFib_pos (q : Q) :
  0 < q ->
  nearestFib (Fin q) =
  fst (fold_left (nearest_step (Fin q)) (map num scale)
         (num 1, dist (Fin q) (num 1))).
Proof.
  intros Hq. unfold nearestFib.
  assert (E : nle (Fin q) (num 0) = false).
  { apply nle_Fin_false. exact Hq. }
  rewrite E. reflexivity.
Qed.

(** For a positive finite input the result is the closest member of the
    scale and, among equally close members, the lowest. *)
Lemma nearestFib_closest_low (q : Q) :
  0 < q ->
  exists f, nearestFib (Fin q) = num f /\ In f scale /\ closest_low q f scale.
Proof.
  intros Hq. rewrite nearestFib_pos by exact Hq.
  destruct (nearest_loop q scale [1%Z] 1%Z) as (f & Hf & Hin & Hcl).
  - left. reflexivity.
  - intros g [<- | []]. split; [lra | lia].
  - intros x g Hx [<- | []]. apply scale_ge_1, Hx.
  - apply scale_sorted.
  - exists f. split; [exact Hf |]. split.
    + destruct Hin as [<- | Hin]; [left; reflexivity | exact Hin].
    + intros g Hg. apply Hcl. right. exact Hg.
Qed.

(** The closest-and-lowest member is unique. *)
Lemma closest_low_unique (q : Q) (f g : Z) (among : list Z) :
  In f among -> In g among ->
  closest_low q f among -> closest_low q g among -> f = g.
Proof.
  intros Hf Hg Cf Cg.
  destruct (Cf g Hg) as [H1 H2]. destruct (Cg f Hf) as [H3 H4].
  specialize (H2 H3). specialize (H4 H1). lia.
Qed.

Lemma In_FIB (g : number) : In g FIB <-> exists z, g = num z /\ In z scale.
Proof.
  unfold FIB. rewrite in_map_iff. split; intros (z & H1 & H2); exists z; auto.
Qed.

Lemma nle_dist (q : Q) (f g : Z) :
  nle (dist (Fin q) (num f)) (dist (Fin q) (num g)) = true <->
  Qabs (q - inject_Z f) <= Qabs (q - inject_Z g).
Proof. rewrite !dist_Fin. apply nle_Fin. Qed.


Lemma nle_num (a b : Z) : nle (num a) (num b) = true <-> (a <= b)%Z.
Proof. unfold num. rewrite nle_Fin, Zle_Qle. reflexivity. Qed.

Lemma num_inj (a b : Z) : num a = num b -> a = b.
Proof. unfold num, inject_Z. intros H. injection H. auto. Qed.





(** * Binary64 rounding *)

(** ** Powers of two *)

Lemma pow2_pos (e : Z) : 0 < pow2 e.
Proof. apply Qpower_0_lt. reflexivity. Qed.

Lemma two_not_zero : ~ 2 == 0.
Proof. intro H. discriminate H. Qed.

Lemma pow2_add (a b : Z) : pow2 (a + b) == pow2 a * pow2 b.
Proof. apply Qpower_plus, two_not_zero. Qed.

Lemma pow2_le (a b : Z) : (a <= b)%Z -> pow2 a <= pow2 b.
Proof. intro H. apply Qpower_le_compat_l; [exact H | discriminate]. Qed.

Lemma pow2_lt (a b : Z) : (a < b)%Z -> pow2 a < pow2 b.
Proof. intro H. apply Qpower_lt_compat_l; [exact H | reflexivity]. Qed.

Lemma pow2_lt_inv (a b : Z) : pow2 a < pow2 b -> (a < b)%Z.
Proof. intro H. apply (Qpower_lt_compat_l_inv 2); [exact H | reflexivity]. Qed.

Lemma pow2_Z (k : Z) : (0 <= k)%Z -> pow2 k == inject_Z (2 ^ k).
Proof. intro H. symmetry. apply (Zpower_Qpower 2 k H). Qed.

Lemma pow2_split (e E : Z) :
  (e <= E)%Z -> pow2 E == inject_Z (2 ^ (E - e)) * pow2 e.
Proof.
  intro H. rewrite <- pow2_Z by lia. rewrite <- pow2_add.
  replace (E - e + e)%Z with E by lia. reflexivity.
Qed.

(** ** The binary logarithm *)

Lemma frac_lt (n1 d1 n2 d2 : Z) :
  (0 < d1)%Z -> (0 < d2)%Z -> (n1 * d2 < n2 * d1)%Z ->
  inject_Z n1 / inject_Z d1 < inject_Z n2 / inject_Z d2.
Proof.
  intros H1 H2 H.
  assert (Hd1 : 0 < inject_Z d1) by (rewrite (Zlt_Qlt 0 d1) in H1; exact H1).
  assert (Hd2 : 0 < inject_Z d2) by (rewrite (Zlt_Qlt 0 d2) in H2; exact H2).
  apply Qlt_shift_div_r; [exact Hd1 |].
  assert (E : inject_Z n2 / inject_Z d2 * inject_Z d1
               == inject_Z n2 * inject_Z d1 / inject_Z d2) by (field; lra).
  rewrite E.
  apply Qlt_shift_div_l; [exact Hd2 |].
  rewrite <- !inject_Z_mult, <- Zlt_Qlt. exact H.
Qed.

Lemma Qabs_frac (q : Q) :
  Qabs q == inject_Z (Z.abs (Qnum q)) / inject_Z (Zpos (Qden q)).
Proof. destruct q as [n d]. cbn [Qabs Qnum Qden]. apply Qmake_Qdiv. Qed.

Lemma pow2_frac (a b : Z) :
  (0 <= a)%Z -> (0 <= b)%Z ->
  pow2 (a - b) == inject_Z (2 ^ a) / inject_Z (2 ^ b).
Proof.
  intros Ha Hb. unfold pow2. rewrite Qpower_minus by exact two_not_zero.
  rewrite (Zpower_Qpower 2 a Ha), (Zpower_Qpower 2 b Hb). reflexivity.
Qed.

Lemma Qlog2_bounds (q : Q) :
  ~ q == 0 ->
  let c := (Z.log2 (Z.abs (Qnum q)) - Z.log2 (Zpos (Qden q)))%Z in
  pow2 (c - 1) < Qabs q /\ Qabs q < pow2 (c + 1).
Proof.
  intros Hq c.
  assert (Hn : (0 < Z.abs (Qnum q))%Z).
  { destruct q as [n d]. cbn [Qnum]. destruct n; [| lia | lia].
    exfalso. apply Hq. reflexivity. }
  destruct (Z.log2_spec _ Hn) as [Hn1 Hn2].
  destruct (Z.log2_spec (Zpos (Qden q)) ltac:(lia)) as [Hd1 Hd2].
  pose proof (Z.log2_nonneg (Z.abs (Qnum q))) as Ha.
  pose proof (Z.log2_nonneg (Zpos (Qden q))) as Hb.
  set (a := Z.log2 (Z.abs (Qnum q))) in *.
  set (b := Z.log2 (Zpos (Qden q))) in *.
  assert (Hpa : (0 < 2 ^ a)%Z) by (apply Z.pow_pos_nonneg; lia).
  assert (Hpb : (0 < 2 ^ b)%Z) by (apply Z.pow_pos_nonneg; lia).
  rewrite Z.pow_succ_r in Hn2, Hd2 by lia.
  rewrite (Qabs_frac q). split.
  - replace (c - 1)%Z with (a - (b + 1))%Z by (unfold c; lia).
    rewrite pow2_frac by lia. apply frac_lt; [| lia |].
    + apply Z.pow_pos_nonneg; lia.
    + rewrite Z.pow_add_r by lia. change (2 ^ 1)%Z with 2%Z. nia.
  - replace (c + 1)%Z with ((a + 1) - b)%Z by (unfold c; lia).
    rewrite pow2_frac by lia. apply frac_lt; [lia | lia |].
    rewrite Z.pow_add_r by lia. change (2 ^ 1)%Z with 2%Z. nia.
Qed.

Lemma Qlog2_spec (q : Q) :
  ~ q == 0 -> pow2 (Qlog2 q) <= Qabs q /\ Qabs q < pow2 (Qlog2 q + 1).
Proof.
  intro Hq. destruct (Qlog2_bounds q Hq) as [H1 H2]. unfold Qlog2.
  set (c := (Z.log2 (Z.abs (Qnum q)) - Z.log2 (Zpos (Qden q)))%Z) in *.
  destruct (Qle_bool (pow2 c) (Qabs q)) eqn:E.
  - split; [apply Qle_bool_iff, E | exact H2].
  - split; [apply Qlt_le_weak, H1 |].
    replace (c - 1 + 1)%Z with c by lia.
    apply Qnot_le_lt. intro H. apply Qle_bool_iff in H. congruence.
Qed.

Lemma Qlog2_unique (q : Q) (L : Z) :
  pow2 L <= Qabs q -> Qabs q < pow2 (L + 1) -> Qlog2 q = L.
Proof.
  intros H1 H2.
  assert (Hq : ~ q == 0).
  { intro E. rewrite E in H1. pose proof (pow2_pos L) as Hp.
    change (Qabs 0) with 0 in H1. lra. }
  destruct (Qlog2_spec q Hq) as [H3 H4].
  assert ((Qlog2 q < L + 1)%Z) by (apply pow2_lt_inv; lra).
  assert ((L < Qlog2 q + 1)%Z) by (apply pow2_lt_inv; lra).
  lia.
Qed.

Lemma Qlog2_comp (q q' : Q) : ~ q == 0 -> q == q' -> Qlog2 q = Qlog2 q'.
Proof.
  intros Hq E. destruct (Qlog2_spec q Hq) as [H1 H2]. symmetry.
  apply Qlog2_unique; rewrite <- E; assumption.
Qed.

Lemma Qlog2_mono (a b : Q) :
  ~ a == 0 -> Qabs a <= Qabs b -> (Qlog2 a <= Qlog2 b)%Z.
Proof.
  intros Ha Hab.
  assert (Hb : ~ b == 0).
  { intro E. rewrite E in Hab. change (Qabs 0) with 0 in Hab.
    apply Ha. revert Hab. apply Qabs_case; intros; lra. }
  destruct (Qlog2_spec a Ha) as [H1 _]. destruct (Qlog2_spec b Hb) as [_ H2].
  assert ((Qlog2 a < Qlog2 b + 1)%Z) by (apply pow2_lt_inv; lra).
  lia.
Qed.

Lemma Qlog2_opp (q : Q) : Qlog2 (- q) = Qlog2 q.
Proof.
  destruct q as [n d]. unfold Qlog2. cbn [Qopp Qnum Qden Qabs].
  rewrite Z.abs_opp. reflexivity.
Qed.

Lemma expo_comp (q q' : Q) : ~ q == 0 -> q == q' -> expo q = expo q'.
Proof. intros Hq E. unfold expo. rewrite (Qlog2_comp q q' Hq E). reflexivity. Qed.

Lemma expo_mono (a b : Q) :
  ~ a == 0 -> Qabs a <= Qabs b -> (expo a <= expo b)%Z.
Proof. intros Ha Hab. unfold expo. pose proof (Qlog2_mono a b Ha Hab). lia. Qed.

Lemma expo_opp (q : Q) : expo (- q) = expo q.
Proof. unfold expo. rewrite Qlog2_opp. reflexivity. Qed.

Lemma expo_ge (q : Q) : (-1074 <= expo q)%Z.
Proof. unfold expo. lia. Qed.

(** ** Rounding to an integer *)

Lemma Qfloor_unique (x : Q) (z : Z) :
  inject_Z z <= x -> x < inject_Z (z + 1) -> Qfloor x = z.
Proof.
  intros H1 H2. pose proof (Qfloor_le x) as H3. pose proof (Qlt_floor x) as H4.
  assert (Ha : inject_Z z < inject_Z (Qfloor x + 1)) by lra.
  assert (Hb : inject_Z (Qfloor x) < inject_Z (z + 1)) by lra.
  rewrite <- Zlt_Qlt in Ha, Hb. lia.
Qed.

Lemma rne_comp (x y : Q) : x == y -> rne x = rne y.
Proof.
  intro E. unfold rne. rewrite (Qfloor_comp x y E).
  assert (Hc : Qcompare (x - inject_Z (Qfloor y)) (1 # 2)
               = Qcompare (y - inject_Z (Qfloor y)) (1 # 2)).
  { apply Qcompare_comp; [rewrite E |]; reflexivity. }
  rewrite Hc. reflexivity.
Qed.

Lemma rne_Z (z : Z) : rne (inject_Z z) = z.
Proof.
  unfold rne. rewrite Qfloor_Z.
  assert (Hc : Qcompare (inject_Z z - inject_Z z) (1 # 2) = Lt).
  { apply Qlt_alt. assert (E : inject_Z z - inject_Z z == 0) by ring. rewrite E. reflexivity. }
  rewrite Hc. reflexivity.
Qed.

Lemma rne_bounds (x : Q) : (Qfloor x <= rne x <= Qfloor x + 1)%Z.
Proof.
  unfold rne. destruct (Qcompare _ _); [destruct (Z.even _) | |]; lia.
Qed.

Lemma rne_mono (x y : Q) : x <= y -> (rne x <= rne y)%Z.
Proof.
  intro Hxy. pose proof (Qfloor_resp_le x y Hxy) as Hf.
  destruct (Z.eq_dec (Qfloor x) (Qfloor y)) as [E | N].
  - unfold rne. rewrite E.
    destruct (Qcompare_spec (x - inject_Z (Qfloor y)) (1 # 2)) as [Cx | Cx | Cx];
      destruct (Qcompare_spec (y - inject_Z (Qfloor y)) (1 # 2)) as [Cy | Cy | Cy];
      try (destruct (Z.even (Qfloor y))); try lia;
      exfalso; generalize dependent (inject_Z (Qfloor y)); intros; lra.
  - pose proof (rne_bounds x). pose proof (rne_bounds y). lia.
Qed.

Lemma rne_opp (x : Q) : rne (- x) = (- rne x)%Z.
Proof.
  pose proof (Qfloor_le x) as H1. pose proof (Qlt_floor x) as H2.
  rewrite inject_Z_plus in H2. change (inject_Z 1) with 1 in H2.
  destruct (Qeq_dec x (inject_Z (Qfloor x))) as [E | N].
  - rewrite (rne_comp x _ E), rne_Z.
    assert (E' : - x == inject_Z (- Qfloor x)) by (rewrite inject_Z_opp, <- E; reflexivity).
    rewrite (rne_comp _ _ E'), rne_Z. reflexivity.
  - assert (Hf : Qfloor (- x) = (- Qfloor x - 1)%Z).
    { apply Qfloor_unique.
      - unfold Z.sub. rewrite inject_Z_plus, inject_Z_opp.
        change (inject_Z (- (1))) with (- (1)). lra.
      - replace (- Qfloor x - 1 + 1)%Z with (- Qfloor x)%Z by lia.
        rewrite inject_Z_opp.
        assert (inject_Z (Qfloor x) < x) by (apply Qle_lteq in H1; destruct H1 as [H1 | H1]; [exact H1 | exfalso; apply N; symmetry; exact H1]).
        lra. }
    unfold rne. rewrite Hf.
    assert (Hinj : inject_Z (- Qfloor x - 1) == - inject_Z (Qfloor x) - 1).
    { unfold Z.sub. rewrite inject_Z_plus, !inject_Z_opp. reflexivity. }
    rewrite Z.even_sub, Z.even_opp. change (Z.even 1) with false.
    destruct (Qcompare_spec (x - inject_Z (Qfloor x)) (1 # 2)) as [Cx | Cx | Cx];
      destruct (Qcompare_spec (- x - inject_Z (- Qfloor x - 1)) (1 # 2)) as [Cy | Cy | Cy];
      rewrite Hinj in Cy;
      try (exfalso; generalize dependent (inject_Z (Qfloor x)); intros; lra);
      try (destruct (Z.even (Qfloor x)); cbn [Bool.eqb]; lia); lia.
Qed.

(** ** Rounding to a multiple of a power of two *)

Lemma scaled_comp (e : Z) (x y : Q) : x == y -> scaled e x = scaled e y.
Proof.
  intro E. unfold scaled.
  assert (H : x / pow2 e == y / pow2 e) by (rewrite E; reflexivity).
  rewrite (rne_comp _ _ H). reflexivity.
Qed.

Lemma scaled_mono (e : Z) (x y : Q) : x <= y -> scaled e x <= scaled e y.
Proof.
  intro H. unfold scaled. pose proof (pow2_pos e) as Hp.
  apply Qmult_le_compat_r; [| lra].
  rewrite <- Zle_Qle. apply rne_mono.
  apply Qmult_le_compat_r; [exact H |].
  apply Qlt_le_weak, Qinv_lt_0_compat, Hp.
Qed.

Lemma scaled_exact (e : Z) (x : Q) (z : Z) :
  x == inject_Z z * pow2 e -> scaled e x == x.
Proof.
  intro E. unfold scaled. pose proof (pow2_pos e) as Hp.
  assert (H : x / pow2 e == inject_Z z) by (rewrite E; field; lra).
  rewrite (rne_comp _ _ H), rne_Z. rewrite E. reflexivity.
Qed.

Lemma scaled_opp (e : Z) (x : Q) : scaled e (- x) == - scaled e x.
Proof.
  unfold scaled. pose proof (pow2_pos e) as Hp.
  assert (H : - x / pow2 e == - (x / pow2 e)) by (field; lra).
  rewrite (rne_comp _ _ H), rne_opp, inject_Z_opp. ring.
Qed.

Lemma scaled_nonneg (e : Z) (x : Q) : 0 <= x -> 0 <= scaled e x.
Proof.
  intro H. pose proof (scaled_mono e 0 x H) as Hm.
  assert (E0 : scaled e 0 == 0) by (apply (scaled_exact e 0 0); ring).
  lra.
Qed.

(** The rounding of a positive number, before the overflow test. *)
Lemma rounding_mono (a b : Q) :
  0 < a -> a <= b -> scaled (expo a) a <= scaled (expo b) b.
Proof.
  intros Ha Hab.
  assert (Ha0 : ~ a == 0) by lra. assert (Hb0 : ~ b == 0) by lra.
  assert (Habs : Qabs a <= Qabs b) by (rewrite !Qabs_pos by lra; exact Hab).
  pose proof (expo_mono a b Ha0 Habs) as He.
  destruct (Z.eq_dec (expo a) (expo b)) as [E | N].
  - rewrite E. apply scaled_mono, Hab.
  - assert (HL : (Qlog2 a < Qlog2 b)%Z /\ expo b = (Qlog2 b - 52)%Z).
    { unfold expo in *. lia. }
    destruct HL as [HL Hb].
    destruct (Qlog2_spec a Ha0) as [_ Ha2]. destruct (Qlog2_spec b Hb0) as [Hb1 _].
    rewrite Qabs_pos in Ha2, Hb1 by lra.
    assert (Hle : pow2 (Qlog2 a + 1) <= pow2 (Qlog2 b)) by (apply pow2_le; lia).
    assert (Hea : (expo a <= Qlog2 b)%Z) by (unfold expo in *; lia).
    assert (Heb : (expo b <= Qlog2 b)%Z) by lia.
    apply Qle_trans with (pow2 (Qlog2 b)).
    + rewrite <- (scaled_exact (expo a) (pow2 (Qlog2 b)) _ (pow2_split _ _ Hea)).
      apply scaled_mono. lra.
    + rewrite <- (scaled_exact (expo b) (pow2 (Qlog2 b)) _ (pow2_split _ _ Heb)) at 1.
      apply scaled_mono. lra.
Qed.

(** ** Rounding to binary64 *)

Lemma Qeq_bool_false (q : Q) : ~ q == 0 -> Qeq_bool q 0 = false.
Proof.
  intro H. destruct (Qeq_bool q 0) eqn:E; [| reflexivity].
  exfalso. apply H, Qeq_bool_eq, E.
Qed.

Lemma Qle_bool_false (x y : Q) : Qle_bool x y = false <-> y < x.
Proof.
  split; intro H.
  - apply Qnot_le_lt. intro Hle. apply Qle_bool_iff in Hle. congruence.
  - destruct (Qle_bool x y) eqn:E; [| reflexivity].
    apply Qle_bool_iff in E. lra.
Qed.

Lemma round64_comp (q q' : Q) : q == q' -> round64 q = round64 q'.
Proof.
  intro E. unfold round64.
  rewrite (Qeqb_comp q q' E 0 0 (Qeq_refl 0)).
  destruct (Qeq_bool q' 0) eqn:Z0; [reflexivity |].
  assert (Hq : ~ q == 0) by (rewrite E; apply Qeq_bool_neq, Z0).
  rewrite (expo_comp q q' Hq E), (scaled_comp _ q q' E).
  rewrite (Qleb_comp 0 0 (Qeq_refl 0) q q' E). reflexivity.
Qed.

Lemma round64_zero (q : Q) : q == 0 -> round64 q = Fin 0.
Proof. intro E. rewrite (round64_comp q 0 E). reflexivity. Qed.

(** The two outcomes of rounding a positive number. *)
Lemma round64_pos (q : Q) :
  0 < q ->
  0 <= scaled (expo q) q /\
  ((pow2 1024 <= scaled (expo q) q /\ round64 q = PosInf) \/
   (scaled (expo q) q < pow2 1024 /\ round64 q = Fin (Qred (scaled (expo q) q)))).
Proof.
  intro Hq. pose proof (scaled_nonneg (expo q) q (Qlt_le_weak _ _ Hq)) as Hr.
  split; [exact Hr |]. unfold round64.
  rewrite Qeq_bool_false by lra.
  assert (Ha : Qabs (scaled (expo q) q) == scaled (expo q) q) by (apply Qabs_pos, Hr).
  rewrite (Qleb_comp _ _ (Qeq_refl (pow2 1024)) _ _ Ha).
  destruct (Qle_bool (pow2 1024) (scaled (expo q) q)) eqn:E.
  - left. split; [apply Qle_bool_iff, E |].
    assert (Hp : Qle_bool 0 q = true) by (apply Qle_bool_iff; lra).
    rewrite Hp. reflexivity.
  - right. split; [apply Qle_bool_false, E | reflexivity].
Qed.

Lemma round64_opp (q : Q) : round64 (- q) = nneg (round64 q).
Proof.
  destruct (Qeq_dec q 0) as [Z0 | N0].
  - rewrite (round64_zero q Z0), (round64_zero (- q)) by lra. reflexivity.
  - unfold round64. rewrite !Qeq_bool_false by lra. rewrite expo_opp.
    assert (Hs : scaled (expo q) (- q) == - scaled (expo q) q) by apply scaled_opp.
    assert (Ha : Qabs (scaled (expo q) (- q)) == Qabs (scaled (expo q) q))
      by (rewrite Hs; apply Qabs_opp).
    rewrite (Qleb_comp _ _ (Qeq_refl (pow2 1024)) _ _ Ha).
    destruct (Qle_bool (pow2 1024) (Qabs (scaled (expo q) q))).
    + destruct (Qle_bool 0 (- q)) eqn:E1; destruct (Qle_bool 0 q) eqn:E2;
        try reflexivity; exfalso.
      * apply Qle_bool_iff in E1, E2. apply N0. lra.
      * apply Qle_bool_false in E1, E2. lra.
    + cbn [nneg]. rewrite (Qred_complete _ _ Hs), Qred_opp. reflexivity.
Qed.

Lemma nle_nneg (x y : number) : nle x y = true -> nle (nneg y) (nneg x) = true.
Proof.
  destruct x as [| | | a], y as [| | | b]; cbn [nle nneg]; try congruence.
  destruct (Qcompare_spec a b) as [H | H | H]; try discriminate; intros _;
    destruct (Qcompare_spec (- b) (- a)) as [H' | H' | H']; try reflexivity; lra.
Qed.

Lemma round64_mono_pos (a b : Q) :
  0 < a -> a <= b -> nle (round64 a) (round64 b) = true.
Proof.
  intros Ha Hab. pose proof (rounding_mono a b Ha Hab) as Hm.
  destruct (round64_pos a Ha) as [_ [[Ha1 Ea] | [Ha1 Ea]]];
    destruct (round64_pos b ltac:(lra)) as [_ [[Hb1 Eb] | [Hb1 Eb]]];
    rewrite Ea, Eb; try reflexivity.
  - exfalso. lra.
  - cbn [nle]. rewrite <- Qred_compare.
    destruct (Qcompare_spec (scaled (expo a) a) (scaled (expo b) b)); try reflexivity.
    lra.
Qed.

Lemma round64_nonneg (q : Q) : 0 <= q -> nle (Fin 0) (round64 q) = true.
Proof.
  intro Hq. destruct (Qeq_dec q 0) as [Z0 | N0].
  - rewrite (round64_zero q Z0). reflexivity.
  - destruct (round64_pos q ltac:(lra)) as [Hr [[_ E] | [_ E]]]; rewrite E;
      [reflexivity |].
    cbn [nle].
    destruct (Qcompare_spec 0 (Qred (scaled (expo q) q))) as [H | H | H];
      try reflexivity.
    rewrite Qred_correct in H. lra.
Qed.

Lemma nle_trans (x y z : number) :
  nle x y = true -> nle y z = true -> nle x z = true.
Proof.
  destruct x as [| | | a], y as [| | | b], z as [| | | c]; cbn [nle];
    try congruence.
  destruct (Qcompare_spec a b); try discriminate;
    destruct (Qcompare_spec b c); try discriminate;
    destruct (Qcompare_spec a c); try reflexivity; lra.
Qed.

(** Rounding is monotone. *)
Lemma round64_mono (a b : Q) : a <= b -> nle (round64 a) (round64 b) = true.
Proof.
  intro Hab.
  assert (Hneg : forall q, q <= 0 -> nle (round64 q) (Fin 0) = true).
  { intros q Hq.
    assert (E : q == - (- q)) by ring.
    rewrite (round64_comp _ _ E), (round64_opp (- q)).
    apply (nle_nneg (Fin 0)), round64_nonneg. lra. }
  destruct (Qlt_le_dec 0 a) as [Ha | Ha].
  - apply round64_mono_pos; assumption.
  - destruct (Qlt_le_dec b 0) as [Hb | Hb].
    + assert (Ea : a == - (- a)) by ring. assert (Eb : b == - (- b)) by ring.
      rewrite (round64_comp _ _ Ea), (round64_comp _ _ Eb).
      rewrite (round64_opp (- a)), (round64_opp (- b)).
      apply nle_nneg, round64_mono_pos; lra.
    + apply nle_trans with (Fin 0); [apply Hneg, Ha | apply round64_nonneg, Hb].
Qed.

(** A multiple of the unit in the last place, or of a higher power of two,
    is not changed. *)
Lemma round64_exact (q : Q) (z E : Z) :
  q == inject_Z z * pow2 E ->
  (~ q == 0 -> (expo q <= E)%Z) ->
  Qabs q < pow2 1024 ->
  round64 q = Fin (Qred q).
Proof.
  intros Hq He Hmax. destruct (Qeq_dec q 0) as [Z0 | N0].
  - rewrite (round64_zero q Z0), (Qred_complete q 0 Z0). reflexivity.
  - specialize (He N0). unfold round64. rewrite Qeq_bool_false by exact N0.
    assert (Hs : scaled (expo q) q == q).
    { apply (scaled_exact _ _ (z * 2 ^ (E - expo q))).
      pose proof (pow2_split _ _ He) as Hp.
      apply Qeq_trans with (inject_Z z * pow2 E); [exact Hq |].
      rewrite inject_Z_mult.
      rewrite Hp. ring. }
    assert (Hov : Qle_bool (pow2 1024) (Qabs (scaled (expo q) q)) = false).
    { apply Qle_bool_false. rewrite Hs. exact Hmax. }
    rewrite Hov, (Qred_complete _ _ Hs). reflexivity.
Qed.

(** Every finite result is a multiple of [2^-1074] below [2^1024]. *)
Lemma round64_grid (q r : Q) :
  round64 q = Fin r ->
  (exists z, r == inject_Z z * pow2 (-1074)) /\ Qabs r < pow2 1024.
Proof.
  unfold round64. destruct (Qeq_bool q 0).
  - intro H. injection H as <-. split; [exists 0%Z; ring | reflexivity].
  - destruct (Qle_bool (pow2 1024) (Qabs (scaled (expo q) q))) eqn:E.
    + destruct (Qle_bool 0 q); discriminate.
    + intro H. injection H as <-. rewrite Qred_correct. split.
      * exists (rne (q / pow2 (expo q)) * 2 ^ (expo q - -1074))%Z.
        unfold scaled. pose proof (pow2_split (-1074) (expo q) (expo_ge q)) as Hp.
        rewrite inject_Z_mult. generalize (rne (q / pow2 (expo q))). intro n.
        rewrite Hp, Qred_correct. ring.
      * apply Qle_bool_false, E.
Qed.

Lemma Qabs_nonneg_eq (r : Q) : 0 <= r -> Qabs r = r.
Proof.
  destruct r as [n d]. unfold Qle. cbn [Qnum Qden Qabs]. intro H.
  rewrite Z.abs_eq by lia. reflexivity.
Qed.

Lemma Qabs_opp_eq (r : Q) : Qabs (- r) = Qabs r.
Proof. destruct r as [n d]. cbn [Qopp Qabs Qnum Qden]. rewrite Z.abs_opp. reflexivity. Qed.

Lemma nabs_nneg (x : number) : nabs (nneg x) = nabs x.
Proof. destruct x; cbn [nabs nneg]; try reflexivity. rewrite Qabs_opp_eq. reflexivity. Qed.

Lemma nabs_nonneg (x : number) : nle (Fin 0) x = true -> nabs x = x.
Proof.
  destruct x as [| | | r]; cbn [nle nabs]; try congruence.
  destruct (Qcompare_spec 0 r) as [H | H | H]; try discriminate; intros _;
    rewrite Qabs_nonneg_eq by lra; reflexivity.
Qed.

(** [Math.abs] of a rounded value is the rounded absolute value. *)
Lemma round64_abs (q : Q) : nabs (round64 q) = round64 (Qabs q).
Proof.
  destruct (Qlt_le_dec q 0) as [H | H].
  - assert (E : q == - (- q)) by ring.
    rewrite (round64_comp q _ E), (round64_opp (- q)), nabs_nneg.
    rewrite (round64_comp (Qabs q) (- q)) by (apply Qabs_neg; lra).
    apply nabs_nonneg, round64_nonneg. lra.
  - rewrite (round64_comp (Qabs q) q) by (apply Qabs_pos, H).
    apply nabs_nonneg, round64_nonneg, H.
Qed.

Lemma expo_le (q : Q) (E : Z) :
  ~ q == 0 -> Qabs q < pow2 (E + 53) -> (-1074 <= E)%Z -> (expo q <= E)%Z.
Proof.
  intros Hq Hlt HE. destruct (Qlog2_spec q Hq) as [H1 _].
  assert ((Qlog2 q < E + 53)%Z) by (apply pow2_lt_inv; lra).
  unfold expo. lia.
Qed.

(** A binary64 value is a multiple of its unit in the last place. *)
Lemma isDouble_ulp (q : Q) :
  isDouble q -> exists z, q == inject_Z z * pow2 (expo q).
Proof.
  unfold isDouble. intro H. destruct (Qeq_dec q 0) as [Z0 | N0].
  - exists 0%Z. apply Qeq_trans with 0; [exact Z0 | ring].
  - unfold round64 in H. rewrite Qeq_bool_false in H by exact N0.
    destruct (Qle_bool (pow2 1024) (Qabs (scaled (expo q) q))).
    + destruct (Qle_bool 0 q); discriminate.
    + injection H as H. apply Qred_eq_iff in H.
      exists (rne (q / pow2 (expo q))). rewrite <- H at 1. reflexivity.
Qed.

Lemma isDouble_max (q : Q) : isDouble q -> Qabs q < pow2 1024.
Proof.
  unfold isDouble. intro H. destruct (round64_grid _ _ H) as [_ Hm].
  rewrite Qred_correct in Hm. exact Hm.
Qed.

Lemma isDouble_Z (z : Z) : (Z.abs z < 2 ^ 53)%Z -> isDouble (inject_Z z).
Proof.
  intro Hz. unfold isDouble.
  assert (Habs : Qabs (inject_Z z) == inject_Z (Z.abs z)).
  { unfold inject_Z. cbn [Qabs]. reflexivity. }
  assert (Hlt : Qabs (inject_Z z) < pow2 53).
  { rewrite Habs, pow2_Z by lia. rewrite <- Zlt_Qlt. exact Hz. }
  apply (round64_exact _ z 0).
  - change (pow2 0) with 1. ring.
  - intro N0. apply expo_le; [exact N0 | exact Hlt | lia].
  - apply Qlt_trans with (pow2 53); [exact Hlt | apply pow2_lt; lia].
Qed.

(** ** The snappers in binary64 arithmetic *)

Lemma nle_nlt_false (x y : number) : nle x y = true -> nlt y x = false.
Proof.
  destruct x as [| | | a], y as [| | | b]; cbn [nle nlt]; try congruence.
  destruct (Qcompare_spec a b); try discriminate;
    destruct (Qcompare_spec b a); try reflexivity; lra.
Qed.

(** The distance the loops compare is the rounded distance. *)
Lemma Double_dist (q : Q) (f : Z) :
  nabs (Double.nsub (Fin q) (num f)) = round64 (Qabs (q - inject_Z f)).
Proof. cbn [Double.nsub num]. apply round64_abs. Qed.

Lemma Double_nabs_nsub_sym (x y : number) :
  nabs (Double.nsub x y) = nabs (Double.nsub y x).
Proof.
  destruct x as [| | | a], y as [| | | b]; try reflexivity.
  cbn [Double.nsub]. rewrite !round64_abs, (Qabs_Qminus a b). reflexivity.
Qed.

(** [reduce] in [snapFib] and the loop of [nearestFib] make the same
    comparisons. *)
Lemma Double_snap_loop_nearest_loop (n : number) (l : list number) :
  forall b,
    fold_left (Double.snap_step n) l b =
    fst (fold_left (Double.nearest_step n) l (b, nabs (Double.nsub n b))).
Proof.
  induction l as [| c l IH]; intro b; [reflexivity |].
  cbn [fold_left]. unfold Double.snap_step at 2, Double.nearest_step at 2.
  cbn [snd]. rewrite (Double_nabs_nsub_sym c n), (Double_nabs_nsub_sym b n).
  destruct (nlt (nabs (Double.nsub n c)) (nabs (Double.nsub n b))); apply IH.
Qed.

(** The loop returns the member [a] whose rounded distance is strictly below
    that of every lower member and not above that of any member. *)
Lemma Double_nearest_loop (q : Q) (a : Z) (l : list Z) :
  forall b,
    StronglySorted Z.le (b :: l) ->
    In a (b :: l) ->
    (forall g, In g (b :: l) -> (g < a)%Z ->
       nlt (round64 (Qabs (q - inject_Z a))) (round64 (Qabs (q - inject_Z g))) = true) ->
    (forall g, In g (b :: l) ->
       nlt (round64 (Qabs (q - inject_Z g))) (round64 (Qabs (q - inject_Z a))) = false) ->
    fst (fold_left (Double.nearest_step (Fin q)) (map num l)
           (num b, nabs (Double.nsub (Fin q) (num b)))) = num a.
Proof.
  induction l as [| x l IH]; intros b Hs Ha P1 P2.
  - destruct Ha as [-> | []]. reflexivity.
  - change (map num (x :: l)) with (num x :: map num l). cbn [fold_left].
    inversion Hs as [| ? ? Hs' Hb]; subst.
    inversion Hs' as [| ? ? Hs'' Hx]; subst.
    inversion Hb as [| ? ? Hbx Hbl]; subst.
    unfold Double.nearest_step at 2. cbn [snd]. rewrite !Double_dist.
    destruct (Z.eq_dec b a) as [-> | Nb].
    + rewrite (P2 x) by (right; left; reflexivity).
      rewrite <- Double_dist. apply IH.
      * apply SSorted_cons; assumption.
      * left. reflexivity.
      * intros g [<- | Hg] Hlt; [lia |]. apply P1; [right; right; exact Hg | exact Hlt].
      * intros g [<- | Hg]; apply P2; [left | right; right]; auto.
    + destruct Ha as [Ha | Ha]; [congruence |].
      assert (Hba : (b < a)%Z).
      { destruct Ha as [<- | Ha]; [lia |].
        rewrite Forall_forall in Hbl. specialize (Hbl a Ha). lia. }
      destruct (Z.eq_dec x a) as [-> | Nx].
      * rewrite (P1 b) by (auto; left; reflexivity).
        rewrite <- Double_dist. apply IH.
        -- exact Hs'.
        -- left. reflexivity.
        -- intros g [<- | Hg] Hlt; [lia |]. apply P1; [right; right; exact Hg | exact Hlt].
        -- intros g [<- | Hg]; apply P2; [right; left | right; right]; auto.
      * destruct Ha as [Ha | Ha]; [congruence |].
        destruct (nlt (round64 (Qabs (q - inject_Z x)))
                      (round64 (Qabs (q - inject_Z b)))).
        -- rewrite <- Double_dist. apply IH.
           ++ exact Hs'.
           ++ right. exact Ha.
           ++ intros g Hg. apply P1. right. exact Hg.
           ++ intros g Hg. apply P2. right. exact Hg.
        -- rewrite <- Double_dist. apply IH.
           ++ apply SSorted_cons; assumption.
           ++ right. exact Ha.
           ++ intros g [<- | Hg]; apply P1; [left | right; right]; auto.
           ++ intros g [<- | Hg]; apply P2; [left | right; right]; auto.
Qed.

(** Below [2^53] a binary64 value is a multiple of a power of two that
    divides every integer, and so is its distance to an integer. *)
Lemma distance_exact (q : Q) (f : Z) :
  isDouble q -> 0 < q -> q < pow2 53 ->
  Qabs (q - inject_Z f) <= q ->
  round64 (Qabs (q - inject_Z f)) = Fin (Qred (Qabs (q - inject_Z f))).
Proof.
  intros Hd Hpos Hmax Hle.
  assert (Hq0 : ~ q == 0) by lra.
  assert (Haq : Qabs q == q) by (apply Qabs_pos; lra).
  assert (He : (expo q <= 0)%Z).
  { apply expo_le; [exact Hq0 | rewrite Haq; exact Hmax | lia]. }
  destruct (isDouble_ulp q Hd) as [zq Hzq].
  pose proof (pow2_split (expo q) 0 He) as H1.
  change (pow2 0) with 1 in H1.
  apply (round64_exact _ (Z.abs (zq - f * 2 ^ (0 - expo q))) (expo q)).
  - assert (E : q - inject_Z f
                == inject_Z (zq - f * 2 ^ (0 - expo q)) * pow2 (expo q)).
    { unfold Z.sub at 1. rewrite inject_Z_plus, inject_Z_opp, inject_Z_mult.
      generalize dependent (pow2 (expo q)). intros p Hzq H1.
      rewrite Hzq at 1.
      assert (E1 : inject_Z f == inject_Z f * 1) by ring.
      rewrite E1 at 1. rewrite H1. ring. }
    rewrite E, Qabs_Qmult, (Qabs_pos (pow2 (expo q)))
      by (apply Qlt_le_weak, pow2_pos).
    apply Qmult_comp; [| reflexivity].
    unfold inject_Z. cbn [Qabs]. reflexivity.
  - intro N0. apply Z.le_trans with (expo q); [| lia].
    apply expo_mono; [exact N0 |].
    rewrite (Qabs_pos (Qabs (q - inject_Z f))) by apply Qabs_nonneg.
    rewrite Haq. exact Hle.
  - rewrite (Qabs_pos (Qabs (q - inject_Z f))) by apply Qabs_nonneg.
    apply Qle_lt_trans with q; [exact Hle |].
    apply Qlt_trans with (pow2 53); [exact Hmax | apply pow2_lt; lia].
Qed.

Lemma Double_nearestFib_pos (q : Q) :
  0 < q ->
  Double.nearestFib (Fin q) =
  fst (fold_left (Double.nearest_step (Fin q)) (map num scale)
         (num 1, nabs (Double.nsub (Fin q) (num 1)))).
Proof.
  intros Hq. unfold Double.nearestFib.
  assert (E : nle (Fin q) (num 0) = false) by (apply nle_Fin_false; exact Hq).
  rewrite E. reflexivity.
Qed.

(** In binary64 arithmetic, for a positive input below [2^53], the loop of
    [nearestFib] returns the member that is closest in exact terms, the
    lowest of two equally close ones. *)
Lemma Double_nearestFib_closest_low (q : Q) :
  isDouble q -> 0 < q -> q < pow2 53 ->
  exists f, Double.nearestFib (Fin q) = num f /\ In f scale /\ closest_low q f scale.
Proof.
  intros Hd Hpos Hmax.
  destruct (nearestFib_closest_low q Hpos) as (a & _ & Ha & Ca).
  exists a. split; [| split; assumption].
  rewrite Double_nearestFib_pos by exact Hpos.
  apply Double_nearest_loop.
  - apply SSorted_cons; [apply scale_sorted |].
    apply Forall_forall. intros x Hx. apply scale_ge_1, Hx.
  - right. exact Ha.
  - intros g Hg Hlt.
    assert (Hg' : In g scale) by (destruct Hg as [<- | Hg]; [left; reflexivity | exact Hg]).
    destruct (Ca g Hg') as [H1 H2].
    assert (Hstrict : Qabs (q - inject_Z a) < Qabs (q - inject_Z g)).
    { apply Qnot_le_lt. intro H. specialize (H2 H). lia. }
    assert (Hg1 : 1 <= inject_Z g).
    { pose proof (scale_ge_1 g Hg') as H. rewrite Zle_Qle in H. exact H. }
    assert (Hga : inject_Z g < inject_Z a) by (rewrite <- Zlt_Qlt; exact Hlt).
    assert (Hgq : Qabs (q - inject_Z g) <= q).
    { revert Hstrict. generalize (inject_Z a) (inject_Z g) Hg1 Hga.
      intros za zg ? ? ?. qabs_lra. }
    rewrite (distance_exact q g Hd Hpos Hmax Hgq).
    rewrite (distance_exact q a Hd Hpos Hmax) by lra.
    apply nlt_Fin. apply Qred_lt. exact Hstrict.
  - intros g Hg.
    assert (Hg' : In g scale) by (destruct Hg as [<- | Hg]; [left; reflexivity | exact Hg]).
    apply nle_nlt_false, round64_mono. apply Ca, Hg'.
Qed.

Lemma nlt_irrefl (x : number) : nlt x x = false.
Proof.
  destruct x as [| | | d]; try reflexivity. apply nlt_Fin_false. lra.
Qed.

(** Above zero the two snappers agree. *)
Lemma Double_snapFib_nearestFib (n : number) :
  nle n (num 0) = false -> Double.snapFib n = Double.nearestFib n.
Proof.
  intro Hn. unfold Double.nearestFib. rewrite Hn.
  change FIB with (num 1 :: map num (tl scale)).
  cbn [nth fold_left].
  assert (E : Double.nearest_step n (num 1, nabs (Double.nsub n (num 1))) (num 1)
              = (num 1, nabs (Double.nsub n (num 1)))).
  { unfold Double.nearest_step. cbn [snd]. rewrite nlt_irrefl. reflexivity. }
  rewrite E. unfold Double.snapFib, reduce.
  change FIB with (num 1 :: map num (tl scale)).
  apply Double_snap_loop_nearest_loop.
Qed.




(** ** Range of [nearestFib] *)

Lemma nearest_loop_In (n : number) (l : list number) :
  forall st, In (fst (fold_left (nearest_step n) l st)) (fst st :: l).
Proof.
  induction l as [| f l IH]; intros st.
  - left. reflexivity.
  - cbn [fold_left]. specialize (IH (nearest_step n st f)).
    destruct IH as [IH | IH]; [| right; right; exact IH].
    rewrite <- IH. unfold nearest_step.
    destruct (nlt (nabs (nsub n f)) (snd st)); simpl.
    + right. left. reflexivity.
    + left. reflexivity.
Qed.


(** ** Inputs at or below zero *)

Lemma snap_loop_low (q : Q) (l : list Z) :
  q <= 0 -> (forall c, In c l -> (1 <= c)%Z) ->
  fold_left (snap_step (Fin q)) (map num l) (num 1) = num 1.
Proof.
  intros Hq. induction l as [| c l IH]; intros Hl; [reflexivity |].
  change (map num (c :: l)) with (num c :: map num l). cbn [fold_left].
  assert (E : snap_step (Fin q) (num 1) (num c) = num 1).
  { unfold snap_step.
    assert (Hc : (1 <= c)%Z) by (apply Hl; left; reflexivity).
    rewrite Zle_Qle in Hc.
    assert (F : nlt (nabs (nsub (num c) (Fin q))) (nabs (nsub (num 1) (Fin q)))
                = false).
    { apply nlt_Fin_false. change (inject_Z 1) with 1 in *. qabs_lra. }
    rewrite F. reflexivity. }
  rewrite E. apply IH. intros c' Hc'. apply Hl. right. exact Hc'.
Qed.

(** C1 (as the code has it). For every input [n <= 0], the client-side
    snapper [nearestFib] returns [0], the explicit no-score value, and not a
    member of the scale; the service-side snapper [snapFib] returns the
    lowest member of the scale, [1]. *)
Theorem nonpositive_nearestFib_zero_snapFib_lowest
        (n : number) (Hn : nle n (num 0) = true) :
  nearestFib n = num 0 /\ ~ In (nearestFib n) FIB /\ snapFib n = num 1.
Proof.
  assert (E : nearestFib n = num 0) by (unfold nearestFib; rewrite Hn; reflexivity).
  split; [exact E |]. split.
  - rewrite E. intros H. apply In_FIB in H. destruct H as (z & Hz & Hin).
    apply num_inj in Hz. subst z. apply scale_ge_1 in Hin. lia.
  - destruct n as [| | | q]; try discriminate; [reflexivity |].
    apply nle_Fin in Hn. unfold snapFib. simpl reduce.
    apply (snap_loop_low q (tl scale)).
    + exact Hn.
    + intros c Hc. apply scale_ge_1. right. exact Hc.
Qed.

Lemma nonpositive_nearestFib_zero_snapFib_lowest_witness :
  nearestFib (num (-3)) = num 0 /\ snapFib (num (-3)) = num 1.
Proof.
  destruct (nonpositive_nearestFib_zero_snapFib_lowest (num (-3)) eq_refl)
    as (H1 & _ & H2).
  split; [exact H1 | exact H2].
Defined.

(** C1 as stated fails: at the input [0] (and at [-3]) [nearestFib]
    returns [0], which is not the lowest member [1] of the scale. *)
Lemma nearestFib_nonpositive_is_not_lowest_member :
  nle (num 0) (num 0) = true /\ nearestFib (num 0) = num 0 /\
  nearestFib (num 0) <> nth 0 FIB NaN /\
  nle (num (-3)) (num 0) = true /\ nearestFib (num (-3)) <> num 1.
Proof.
  repeat split; try reflexivity; intros H; apply num_inj in H; discriminate.
Qed.

(** ** The service *)




Lemma Double_snap_loop_In (n : number) (l : list number) :
  forall p, In (fold_left (Double.snap_step n) l p) (p :: l).
Proof.
  induction l as [| c l IH]; intros p.
  - left. reflexivity.
  - cbn [fold_left]. destruct (IH (Double.snap_step n p c)) as [H | H].
    + rewrite <- H. unfold Double.snap_step.
      destruct (nlt (nabs (Double.nsub c n)) (nabs (Double.nsub p n))).
      * right. left. reflexivity.
      * left. reflexivity.
    + right. right. exact H.
Qed.

Lemma Double_snapFib_In (n : number) : In (Double.snapFib n) FIB.
Proof.
  unfold Double.snapFib. simpl reduce.
  apply (Double_snap_loop_In n (tl FIB) (num 1)).
Qed.

Lemma scoreOne_In (completion : Completion) (text : string) (v : number) :
  scoreOne completion text = Some v -> In v FIB.
Proof.
  unfold scoreOne. destruct (completion text); [| discriminate].
  intros H. injection H as <-. apply Double_snapFib_In.
Qed.

Lemma scoreOne_None (completion : Completion) (text : string) :
  scoreOne completion text = None <-> completion text = None.
Proof.
  unfold scoreOne. destruct (completion text); split; congruence.
Qed.

Lemma scoreList_cons (completions : nat -> Completion) (x : CriterionIn)
      (items : list CriterionIn) :
  scoreList completions (x :: items) =
  match scoreOne (completions 0%nat) (in_text x) with
  | Some v =>
      match scoreList (fun k => completions (S k)) items with
      | Some rs => Some ((in_id x, v) :: rs)
      | None => None
      end
  | None => None
  end.
Proof.
  unfold scoreList. cbn [imap promise_all].
  destruct (scoreOne (completions 0%nat) (in_text x)); reflexivity.
Qed.

Lemma scoreList_None (items : list CriterionIn) :
  forall (completions : nat -> Completion) (k : nat) (c : CriterionIn),
    items !! k = Some c -> completions k (in_text c) = None ->
    scoreList completions items = None.
Proof.
  induction items as [| x items IH]; intros completions k c Hk Hc.
  - discriminate.
  - rewrite scoreList_cons. destruct k as [| k].
    + injection Hk as ->. apply scoreOne_None in Hc. rewrite Hc. reflexivity.
    + rewrite (IH (fun k => completions (S k)) k c Hk Hc).
      destruct (scoreOne (completions 0%nat) (in_text x)); reflexivity.
Qed.

(** The results of an area stand in the order of its criteria; each holds
    the id of its criterion and the score of the call made for it. *)
Lemma scoreList_inv (items : list CriterionIn) :
  forall (completions : nat -> Completion) results,
    scoreList completions items = Some results ->
    map fst results = map in_id items /\
    forall k c, items !! k = Some c ->
      exists v, results !! k = Some (in_id c, v) /\
                scoreOne (completions k) (in_text c) = Some v.
Proof.
  induction items as [| x items IH]; intros completions results.
  - intros H. injection H as <-. split; [reflexivity | discriminate].
  - rewrite scoreList_cons.
    destruct (scoreOne (completions 0%nat) (in_text x)) as [v |] eqn:Ex;
      [| discriminate].
    destruct (scoreList (fun k => completions (S k)) items) as [rs |] eqn:Er;
      [| discriminate].
    intros H. injection H as <-.
    destruct (IH _ _ Er) as [Hids Hall]. split.
    + cbn [map fst]. rewrite Hids. reflexivity.
    + intros [| k] c Hk.
      * injection Hk as <-. exists v. split; [reflexivity | exact Ex].
      * apply (Hall k c Hk).
Qed.

Lemma scoreList_Some (items : list CriterionIn) :
  forall completions : nat -> Completion,
    (forall k c, items !! k = Some c -> completions k (in_text c) <> None) ->
    exists results, scoreList completions items = Some results.
Proof.
  induction items as [| x items IH]; intros completions Hall.
  - exists []. reflexivity.
  - rewrite scoreList_cons.
    destruct (scoreOne (completions 0%nat) (in_text x)) as [v |] eqn:Ex.
    + destruct (IH (fun k => completions (S k))) as (rs & Er).
      { intros k c Hk. apply (Hall (S k) c Hk). }
      rewrite Er. eexists. reflexivity.
    + exfalso. apply scoreOne_None in Ex. apply (Hall 0%nat x eq_refl Ex).
Qed.

Lemma scoreList_None_inv (items : list CriterionIn) :
  forall completions : nat -> Completion,
    scoreList completions items = None ->
    exists k c, items !! k = Some c /\ completions k (in_text c) = None.
Proof.
  induction items as [| x items IH]; intros completions; [discriminate |].
  rewrite scoreList_cons.
  destruct (scoreOne (completions 0%nat) (in_text x)) as [v |] eqn:Ex.
  - destruct (scoreList (fun k => completions (S k)) items) eqn:Er;
      [discriminate |].
    intros _. destruct (IH _ Er) as (k & c & Hk & Hc).
    exists (S k), c. auto.
  - intros _. exists 0%nat, x. split; [reflexivity |].
    apply scoreOne_None, Ex.
Qed.

Lemma scoreList_values (items : list CriterionIn)
      (completions : nat -> Completion) (results : list (string * number)%type) :
  scoreList completions items = Some results ->
  Forall (fun r => In (snd r) FIB) results.
Proof.
  intros H. destruct (scoreList_inv items completions results H) as [Hids Hall].
  apply Forall_forall. intros r Hr.
  apply list_elem_of_In, list_elem_of_lookup in Hr. destruct Hr as [k Hk].
  assert (Hlen : (k < length items)%nat).
  { apply lookup_lt_Some in Hk.
    rewrite <- (length_map in_id), <- Hids, length_map. exact Hk. }
  destruct (lookup_lt_is_Some_2 items k Hlen) as [c Hc].
  destruct (Hall k c Hc) as (v & Hv & Es).
  rewrite Hk in Hv. injection Hv as ->. cbn [snd].
  apply (scoreOne_In _ _ _ Es).
Qed.

Lemma record_results_cons (r : (string * number)%type)
      (results : list (string * number)%type) (m : gmap string number) :
  record_results (r :: results) m =
  record_results results
    (if String.eqb (fst r) "__proto__" then m else <[fst r := snd r]> m).
Proof. reflexivity. Qed.

Lemma record_results_values (P : number -> Prop)
      (results : list (string * number)%type) :
  Forall (fun r => P (snd r)) results ->
  forall (m : gmap string number),
    (forall id v, m !! id = Some v -> P v) ->
    forall id v, record_results results m !! id = Some v -> P v.
Proof.
  induction 1 as [| r results Hr _ IH]; intros m Hm id v.
  - apply Hm.
  - rewrite record_results_cons. apply IH.
    destruct (String.eqb (fst r) "__proto__"); [exact Hm |].
    intros id' v'. rewrite lookup_insert.
    destruct (decide (fst r = id')).
    + intros H. injection H as <-. exact Hr.
    + apply Hm.
Qed.

Lemma record_results_other (results : list (string * number)%type) :
  forall (m : gmap string number) id,
    ~ In id (map fst results) ->
    record_results results m !! id = m !! id.
Proof.
  induction results as [| r results IH]; intros m id Hid; [reflexivity |].
  rewrite record_results_cons, IH by (intros H; apply Hid; right; exact H).
  destruct (String.eqb (fst r) "__proto__"); [reflexivity |].
  apply lookup_insert_ne. intros E. apply Hid. left. exact E.
Qed.

(** No entry is ever made under [__proto__]. *)
Lemma record_results_proto (results : list (string * number)%type) :
  forall m : gmap string number,
    record_results results m !! "__proto__" = m !! "__proto__".
Proof.
  induction results as [| r results IH]; intros m; [reflexivity |].
  rewrite record_results_cons, IH.
  destruct (String.eqb_spec (fst r) "__proto__") as [E | N]; [reflexivity |].
  apply lookup_insert_ne. exact N.
Qed.

Lemma record_results_last (l1 l2 : list (string * number)%type)
      (id : string) (v : number) (m : gmap string number) :
  id <> "__proto__" ->
  ~ In id (map fst l2) ->
  record_results (l1 ++ (id, v) :: l2) m !! id = Some v.
Proof.
  intros Hp Hid. unfold record_results. rewrite fold_left_app.
  cbn [fold_left fst snd].
  apply String.eqb_neq in Hp. rewrite Hp.
  match goal with
  | |- fold_left ?f l2 ?m0 !! id = _ =>
      change (fold_left f l2 m0) with (record_results l2 m0)
  end.
  rewrite record_results_other by exact Hid.
  apply lookup_insert_eq.
Qed.

Lemma record_results_has (results : list (string * number)%type) :
  forall (m : gmap string number) id,
    id <> "__proto__" ->
    In id (map fst results) -> is_Some (record_results results m !! id).
Proof.
  intros m id Hp Hin.
  assert (Hlast : exists l1 v l2,
             results = l1 ++ (id, v) :: l2 /\ ~ In id (map fst l2)).
  { clear m. induction results as [| r results IH]; [destruct Hin |].
    destruct (in_dec String.string_dec id (map fst results)) as [Hin' | Hn].
    - destruct (IH Hin') as (l1 & v & l2 & -> & Hl2).
      exists (r :: l1), v, l2. split; [reflexivity | exact Hl2].
    - destruct Hin as [E | Hin]; [| contradiction].
      exists [], (snd r), results. split; [| exact Hn].
      destruct r as [id' v']. cbn [fst snd] in *. subst. reflexivity. }
  destruct Hlast as (l1 & v & l2 & -> & Hl2).
  exists v. apply record_results_last; assumption.
Qed.

Lemma record_results_keys (results : list (string * number)%type) (id : string) :
  is_Some (record_results results ∅ !! id) <->
  In id (map fst results) /\ id <> "__proto__".
Proof.
  split.
  - intros H. split.
    + destruct (in_dec String.string_dec id (map fst results)) as [Hin | Hn];
        [exact Hin |].
      rewrite record_results_other in H by exact Hn.
      rewrite lookup_empty in H. destruct H as [v H]. discriminate.
    + intros ->. rewrite record_results_proto, lookup_empty in H.
      destruct H as [v H]. discriminate.
  - intros [Hin Hp]. apply record_results_has; assumption.
Qed.

(** The loop over the four areas, unrolled. *)
Lemma scoreAreas_unrolled (openai : OpenAI) (criteria : byArea (list CriterionIn)) :
  scoreAreas openai criteria =
  match scoreList (openai Area.S) (at_S criteria),
        scoreList (openai Area.W) (at_W criteria),
        scoreList (openai Area.O) (at_O criteria),
        scoreList (openai Area.T) (at_T criteria) with
  | Some rs, Some rw, Some ro, Some rt =>
      Some (ByArea (record_results rs ∅) (record_results rw ∅)
                   (record_results ro ∅) (record_results rt ∅))
  | _, _, _, _ => None
  end.
Proof.
  unfold scoreAreas. simpl.
  destruct (scoreList (openai Area.S) (at_S criteria)); simpl;
    destruct (scoreList (openai Area.W) (at_W criteria)); simpl;
    destruct (scoreList (openai Area.O) (at_O criteria)); simpl;
    destruct (scoreList (openai Area.T) (at_T criteria)); reflexivity.
Qed.

Lemma scoreAreas_Some (openai : OpenAI) (criteria : byArea (list CriterionIn))
      (out : byArea (gmap string number)) :
  scoreAreas openai criteria = Some out ->
  forall a, exists results,
    scoreList (openai a) (get criteria a) = Some results /\
    get out a = record_results results ∅.
Proof.
  rewrite scoreAreas_unrolled.
  destruct (scoreList (openai Area.S) (at_S criteria)) as [rs |] eqn:Es; [| discriminate].
  destruct (scoreList (openai Area.W) (at_W criteria)) as [rw |] eqn:Ew; [| discriminate].
  destruct (scoreList (openai Area.O) (at_O criteria)) as [ro |] eqn:Eo; [| discriminate].
  destruct (scoreList (openai Area.T) (at_T criteria)) as [rt |] eqn:Et; [| discriminate].
  intros H. injection H as <-. intros []; simpl;
    eexists; (split; [eassumption | reflexivity]).
Qed.

Lemma scoreAreas_None (openai : OpenAI) (criteria : byArea (list CriterionIn))
      (a : Area.t) :
  scoreList (openai a) (get criteria a) = None ->
  scoreAreas openai criteria = None.
Proof.
  intro E. rewrite scoreAreas_unrolled.
  destruct a; cbn [get] in E; rewrite E;
    repeat match goal with
      | |- context [match scoreList ?j ?l with _ => _ end] =>
          destruct (scoreList j l)
      end; reflexivity.
Qed.

Lemma scoreAreas_all (openai : OpenAI) (criteria : byArea (list CriterionIn)) :
  (forall a, exists results, scoreList (openai a) (get criteria a) = Some results) ->
  exists out, scoreAreas openai criteria = Some out.
Proof.
  intro Hall. rewrite scoreAreas_unrolled.
  destruct (Hall Area.S) as (rs & Es). destruct (Hall Area.W) as (rw & Ew).
  destruct (Hall Area.O) as (ro & Eo). destruct (Hall Area.T) as (rt & Et).
  cbn [get] in Es, Ew, Eo, Et. rewrite Es, Ew, Eo, Et. eexists. reflexivity.
Qed.

Lemma scoreAreas_None_inv (openai : OpenAI) (criteria : byArea (list CriterionIn)) :
  scoreAreas openai criteria = None ->
  exists a k c, get criteria a !! k = Some c /\ openai a k (in_text c) = None.
Proof.
  intro Hn.
  assert (H : exists a, scoreList (openai a) (get criteria a) = None).
  { destruct (scoreList (openai Area.S) (get criteria Area.S)) eqn:ES;
      [| exists Area.S; exact ES].
    destruct (scoreList (openai Area.W) (get criteria Area.W)) eqn:EW;
      [| exists Area.W; exact EW].
    destruct (scoreList (openai Area.O) (get criteria Area.O)) eqn:EO;
      [| exists Area.O; exact EO].
    destruct (scoreList (openai Area.T) (get criteria Area.T)) eqn:ET;
      [| exists Area.T; exact ET].
    exfalso. destruct (scoreAreas_all openai criteria) as (out & E).
    - intros []; eexists; eassumption.
    - congruence. }
  destruct H as (a & Ea).
  destruct (scoreList_None_inv _ _ Ea) as (k & c & Hk & Hc).
  exists a, k, c. auto.
Qed.

Lemma scoreAreas_values (openai : OpenAI) (criteria : byArea (list CriterionIn))
      (out : byArea (gmap string number)) :
  scoreAreas openai criteria = Some out ->
  forall a id v, get out a !! id = Some v -> In v FIB.
Proof.
  intros Hs a id v Hl.
  destruct (scoreAreas_Some openai criteria out Hs a) as (results & Hr & Ho).
  rewrite Ho in Hl.
  apply (record_results_values (fun v => In v FIB) results
           (scoreList_values _ _ _ Hr) ∅) in Hl; [exact Hl |].
  intros id' v'. rewrite lookup_empty. discriminate.
Qed.

Lemma handler_RespondScores (constructed : option OpenAI) (req : Request)
      (out : byArea (gmap string number)) :
  handler constructed req = RespondScores out ->
  method req = "POST" /\
  exists openai criteria,
    constructed = Some openai /\ body req = ValidBody criteria /\
    scoreAreas openai criteria = Some out.
Proof.
  unfold handler.
  destruct (String.eqb_spec (method req) "POST") as [Em | Em]; cbn [negb];
    [| discriminate].
  destruct (body req) as [| formatted | criteria]; try discriminate.
  destruct constructed as [openai |]; [| discriminate].
  destruct (scoreAreas openai criteria) as [o |] eqn:E; [| discriminate].
  intros H. injection H as <-. split; [exact Em |]. exists openai, criteria. auto.
Qed.

(** C8. In [scoreOne] a judgment whose [score] is missing or not a number
    is snapped as the raw value [0], a numeric one as itself; [snapFib]
    always yields a member of the scale (for [0], the member [1]), so every
    value of the mapping the service returns is a member of the scale. *)
Theorem service_values_on_scale (completion : Completion) :
  (forall text v, completion text = Some v -> (forall x, v <> JNumber x) ->
     scoreOne completion text = Some (Double.snapFib (num 0))) /\
  (forall text x, completion text = Some (JNumber x) ->
     scoreOne completion text = Some (Double.snapFib x)) /\
  Double.snapFib (num 0) = num 1 /\
  (forall n, In (Double.snapFib n) FIB) /\
  (forall constructed req out a id v,
     handler constructed req = RespondScores out ->
     get out a !! id = Some v -> In v FIB).
Proof.
  split; [| split; [| split; [| split]]].
  - intros text v Hj Hv. unfold scoreOne. rewrite Hj.
    destruct v; try reflexivity. exfalso. apply (Hv n). reflexivity.
  - intros text x Hj. unfold scoreOne. rewrite Hj. reflexivity.
  - vm_compute. reflexivity.
  - apply Double_snapFib_In.
  - intros constructed req out a id v Hh Hl.
    apply handler_RespondScores in Hh.
    destruct Hh as (_ & openai & criteria & _ & _ & Hs).
    apply (scoreAreas_values openai criteria out Hs a id v Hl).
Qed.

Lemma service_values_on_scale_witness :
  let completion := fun _ : string => Some (JString "hoch") in
  let req := postScores (ByArea [ {| in_id := "c1"; in_text := "Marke" |} ] [] [] []) in
  exists out, handler (Some (fun _ _ => completion)) req = RespondScores out /\
              get out Area.S !! "c1" = Some (num 1) /\ In (num 1) FIB.
Proof.
  intros completion req. eexists. split; [vm_compute; reflexivity |].
  split; [reflexivity |].
  destruct (service_values_on_scale completion) as (_ & _ & _ & _ & H).
  eapply (H (Some (fun _ _ => completion)) req _ Area.S "c1" (num 1));
    [vm_compute; reflexivity | reflexivity].
Defined.

(** C3 (as the code has it). The service awaits the judgments of an area
    with [Promise.all] and catches nothing: when the scoring of one
    submitted criterion fails, the whole request fails and no mapping is
    returned, and so it is when the client cannot be constructed; when no
    scoring fails, the returned mapping has, for every submitted criterion
    whose id is not [__proto__], an entry under its id that is a member of
    the scale, and no entry under [__proto__]. *)
Theorem handler_all_or_nothing (openai : OpenAI)
        (criteria : byArea (list CriterionIn)) :
  (forall a k c, get criteria a !! k = Some c -> openai a k (in_text c) = None ->
     handler (Some openai) (postScores criteria) = Throws) /\
  handler None (postScores criteria) = Throws /\
  ((forall a k c, get criteria a !! k = Some c -> openai a k (in_text c) <> None) ->
   exists out,
     handler (Some openai) (postScores criteria) = RespondScores out /\
     (forall a c, In c (get criteria a) -> in_id c <> "__proto__" ->
        exists v, get out a !! in_id c = Some v /\ In v FIB) /\
     (forall a, get out a !! "__proto__" = None)).
Proof.
  split; [| split; [reflexivity |]].
  - intros a k c Hk Hc. unfold handler, postScores. cbn [method body].
    cbn [String.eqb Ascii.eqb Bool.eqb negb andb].
    rewrite (scoreAreas_None openai criteria a); [reflexivity |].
    apply (scoreList_None _ _ k c Hk Hc).
  - intros Hall.
    destruct (scoreAreas_all openai criteria) as (out & Hs).
    { intro a. apply scoreList_Some. intros k c Hk. apply (Hall a k c Hk). }
    exists out. split; [| split].
    + unfold handler, postScores. cbn [method body].
      cbn [String.eqb Ascii.eqb Bool.eqb negb andb]. rewrite Hs. reflexivity.
    + intros a c Hin Hp.
      destruct (scoreAreas_Some openai criteria out Hs a) as (results & Hr & Ho).
      destruct (scoreList_inv _ _ _ Hr) as [Hids _].
      assert (Hsome : is_Some (get out a !! in_id c)).
      { rewrite Ho. apply record_results_has; [exact Hp |].
        rewrite Hids. apply in_map. exact Hin. }
      destruct Hsome as (v & Hv). exists v. split; [exact Hv |].
      apply (scoreAreas_values openai criteria _ Hs a (in_id c) v Hv).
    + intro a.
      destruct (scoreAreas_Some openai criteria out Hs a) as (results & _ & Ho).
      rewrite Ho, record_results_proto. apply lookup_empty.
Qed.

Lemma handler_all_or_nothing_witness :
  let openai := fun (_ : Area.t) (_ : nat) (text : string) =>
                  if String.eqb text "Preisdruck" then None
                  else Some (JNumber (num 6)) in
  handler (Some openai)
    (postScores (ByArea [ {| in_id := "c1"; in_text := "Preisdruck" |};
                          {| in_id := "c2"; in_text := "Marke" |} ] [] [] []))
  = Throws /\
  exists out,
    handler (Some openai)
      (postScores (ByArea [ {| in_id := "c2"; in_text := "Marke" |} ] [] [] []))
    = RespondScores out /\
    exists v, get out Area.S !! "c2" = Some v /\ In v FIB.
Proof.
  intros openai. split.
  - destruct (handler_all_or_nothing openai
                (ByArea [ {| in_id := "c1"; in_text := "Preisdruck" |};
                          {| in_id := "c2"; in_text := "Marke" |} ] [] [] []))
      as [H _].
    apply (H Area.S 0%nat {| in_id := "c1"; in_text := "Preisdruck" |});
      reflexivity.
  - destruct (handler_all_or_nothing openai
                (ByArea [ {| in_id := "c2"; in_text := "Marke" |} ] [] [] []))
      as (_ & _ & H).
    destruct H as (out & Hout & Hall & _).
    + intros [] [| k] c Hc; try discriminate.
      injection Hc as <-. discriminate.
    + exists out. split; [exact Hout |].
      apply (Hall Area.S {| in_id := "c2"; in_text := "Marke" |}).
      * left. reflexivity.
      * discriminate.
Defined.

(** C3 as stated fails: with two criteria submitted in one area, of which
    the scoring of the first fails and that of the second succeeds, the
    service returns no mapping at all; the second criterion contributes no
    entry. *)
Lemma failed_subcall_fails_whole_batch :
  let openai := fun (_ : Area.t) (_ : nat) (text : string) =>
                  if String.eqb text "Preisdruck" then None
                  else Some (JNumber (num 6)) in
  let req := postScores (ByArea [ {| in_id := "c1"; in_text := "Preisdruck" |};
                                  {| in_id := "c2"; in_text := "Marke" |} ]
                                [] [] []) in
  scoreOne (openai Area.S 0%nat) "Preisdruck" = None /\
  scoreOne (openai Area.S 1%nat) "Marke" = Some (num 5) /\
  handler (Some openai) req = Throws /\
  ~ (exists out, handler (Some openai) req = RespondScores out /\
                 get out Area.S !! "c2" = Some (num 5)).
Proof.
  intros openai req. split; [reflexivity |].
  split; [vm_compute; reflexivity |].
  assert (E : handler (Some openai) req = Throws) by reflexivity.
  split; [exact E |].
  intros (out & H & _). rewrite E in H. discriminate.
Qed.

(** ** The scenario set *)

Lemma commit_keeps_scenarios (us : list Update) :
  Forall keeps_scenarios us ->
  forall st, scenarios st <> [] -> scenarios (commit st us) <> [].
Proof.
  unfold commit. induction 1 as [| u us Hu _ IH]; intros st Hst; simpl.
  - exact Hst.
  - apply IH. apply Hu. exact Hst.
Qed.

Lemma updateScenario_keeps (r : AppState) (partial : PartialScenario) :
  Forall keeps_scenarios (updateScenario r partial).
Proof.
  constructor; [| constructor]. intros st Hst. simpl.
  destruct (scenarios st); [congruence | discriminate].
Qed.

Lemma applyResponse_keeps (r : AppState) (sel : Scenario)
      (data : byArea (option (gmap string jsval))) :
  Forall keeps_scenarios (applyResponse r sel data).
Proof.
  unfold applyResponse. apply Forall_flat_map. apply Forall_forall. intros a _.
  apply Forall_flat_map. apply Forall_forall. intros c _.
  unfold scoreFromResponse.
  destruct (default JUndefined _); try constructor.
  destruct (negb (isNaN n)); [apply updateScenario_keeps | constructor].
Qed.

Lemma handle_keeps (st : AppState) (a : Action) :
  Forall keeps_scenarios (handle st a).
Proof.
  destruct a as [fresh name | id | id | w | area id sc | area id text
                | area id | outcome]; simpl.
  - constructor; [| constructor; [| constructor]].
    + intros s _. simpl. destruct (scenarios s); discriminate.
    + intros s Hs. exact Hs.
  - unfold removeScenario.
    destruct (filter _ (scenarios st)) as [| first next]; [constructor |].
    constructor.
    + intros s _. discriminate.
    + destruct (String.eqb (selectedScenarioId st) id); constructor;
        [intros s Hs; exact Hs | constructor].
  - constructor; [intros s Hs; exact Hs | constructor].
  - constructor; [intros s Hs; exact Hs | constructor].
  - destruct (selected st); [apply updateScenario_keeps | constructor].
  - destruct (selected st); [apply updateScenario_keeps | constructor].
  - destruct (selected st); [apply updateScenario_keeps | constructor].
  - destruct (selected st) as [sel |]; [| constructor].
    destruct outcome as [message | res]; simpl; [constructor |].
    destruct (negb (ok res)); simpl; [constructor |].
    destruct (json res); simpl; [constructor | apply applyResponse_keeps].
Qed.

Lemma step_keeps_scenarios (st : AppState) (a : Action) :
  scenarios st <> [] -> scenarios (step st a) <> [].
Proof. apply commit_keeps_scenarios, handle_keeps. Qed.

Lemma run_keeps_scenarios (actions : list Action) :
  forall st, scenarios st <> [] -> scenarios (run st actions) <> [].
Proof.
  unfold run. induction actions as [| a actions IH]; intros st Hst; simpl.
  - exact Hst.
  - apply IH, step_keeps_scenarios, Hst.
Qed.

(** C9. The scenario set is never empty: the initial state holds exactly
    one scenario; removing is a no-op when every scenario carries the
    removed id, that is when it would leave the set empty; the updates a
    handler of any render queues leave a non-empty set non-empty; and after
    any sequence of events (adding, removing, selecting, editing, scoring)
    the set still holds a scenario. *)
Theorem scenarios_never_empty (uid0 : string) (actions : list Action) :
  length (scenarios (initialState uid0)) = 1%nat /\
  (forall st id,
     filter (fun s => negb (String.eqb (s_id s) id)) (scenarios st) = [] ->
     step st (RemoveScenario id) = st) /\
  (forall r st a,
     scenarios st <> [] -> scenarios (commit st (handle r a)) <> []) /\
  scenarios (run (initialState uid0) actions) <> [].
Proof.
  split; [reflexivity |]. split; [| split].
  - intros st id Hf. unfold step, handle, removeScenario. rewrite Hf. reflexivity.
  - intros r st a. apply commit_keeps_scenarios, handle_keeps.
  - apply run_keeps_scenarios. discriminate.
Qed.

Lemma scenarios_never_empty_witness :
  scenarios (run (initialState "a1")
               [RemoveScenario "a1"; AddScenario "b2" "Szenario B";
                RemoveScenario "a1"; RemoveScenario "b2"]) <> [].
Proof.
  apply (scenarios_never_empty "a1"
           [RemoveScenario "a1"; AddScenario "b2" "Szenario B";
            RemoveScenario "a1"; RemoveScenario "b2"]).
Defined.

(** ** A response that is not a success *)

Lemma append_nil_r (s : string) : (s ++ "")%string = s.
Proof.
  induction s as [| a s IH]; [reflexivity |].
  change (String a (s ++ "") = String a s). rewrite IH. reflexivity.
Qed.

Lemma append_assoc (s1 s2 s3 : string) :
  ((s1 ++ s2) ++ s3)%string = (s1 ++ (s2 ++ s3))%string.
Proof.
  induction s1 as [| a s1 IH]; [reflexivity |].
  change (String a ((s1 ++ s2) ++ s3) = String a (s1 ++ (s2 ++ s3))).
  rewrite IH. reflexivity.
Qed.

Lemma rejectedMessage_carries (res : Response) :
  (exists pre post,
     rejectedMessage res =
     (pre ++ "HTTP " ++ number_to_string (status res) ++ " " ++
      statusText res ++ post)%string) /\
  (exists pre, rejectedMessage res = (pre ++ text res)%string).
Proof.
  unfold rejectedMessage. split.
  - exists ("KI-Bewertung nicht erreichbar." ++ nl ++
            "Bitte Backend-Endpoint POST /api/ai-score bereitstellen." ++
            nl ++ nl)%string.
    eexists. reflexivity.
  - destruct (String.eqb (text res) "") eqn:E.
    + apply String.eqb_eq in E. rewrite E.
      exists ("KI-Bewertung nicht erreichbar." ++ nl ++
              "Bitte Backend-Endpoint POST /api/ai-score bereitstellen." ++
              nl ++ nl ++ "HTTP " ++ number_to_string (status res) ++ " " ++
              statusText res)%string.
      rewrite (append_nil_r (statusText res)). rewrite append_nil_r.
      reflexivity.
    + exists ("KI-Bewertung nicht erreichbar." ++ nl ++
              "Bitte Backend-Endpoint POST /api/ai-score bereitstellen." ++
              nl ++ nl ++ "HTTP " ++ number_to_string (status res) ++ " " ++
              statusText res ++ nl ++ nl)%string.
      rewrite !append_assoc. reflexivity.
Qed.

(** C7. When the endpoint answers with a status outside 200-299,
    [aiScoreAll] queues no state update, so the state and with it every
    score stays as it was, and raises exactly one alert, whose text carries
    the status, the status text and the body of the response. *)
Theorem rejected_response_changes_nothing
        (st : AppState) (sel : Scenario) (res : Response)
        (Hrejected : ok res = false) :
  updates (aiScoreAll st sel (Responded res)) = [] /\
  step st (AiScore (Responded res)) = st /\
  alerts (aiScoreAll st sel (Responded res)) = [rejectedMessage res] /\
  (exists pre post,
     rejectedMessage res =
     (pre ++ "HTTP " ++ number_to_string (status res) ++ " " ++
      statusText res ++ post)%string) /\
  (exists pre, rejectedMessage res = (pre ++ text res)%string).
Proof.
  assert (E : aiScoreAll st sel (Responded res) =
              {| updates := []; alerts := [rejectedMessage res] |}).
  { unfold aiScoreAll. rewrite Hrejected. reflexivity. }
  rewrite E. split; [reflexivity |]. split; [| split; [reflexivity |]].
  - unfold step, handle. destruct (selected st) as [s |]; [| reflexivity].
    unfold aiScoreAll. rewrite Hrejected. reflexivity.
  - apply rejectedMessage_carries.
Qed.

Lemma rejected_response_changes_nothing_witness :
  let res := {| status := 503; statusText := "Service Unavailable";
                text := "upstream down"; json := inl "Unexpected token u" |} in
  let sel := {| s_id := "a1"; s_name := "Szenario A"; description := "";
                files := [];
                criteria := ByArea [ {| c_id := "c1"; c_text := "Marke";
                                        score := Some (num 3) |} ] [] [] [] |} in
  let st := {| scenarios := [sel]; selectedScenarioId := "a1";
               weights := ByArea (num 1) (num (-1)) (num 1) (num (-1)) |} in
  step st (AiScore (Responded res)) = st /\
  alerts (aiScoreAll st sel (Responded res)) =
  [ ("KI-Bewertung nicht erreichbar." ++ nl ++
     "Bitte Backend-Endpoint POST /api/ai-score bereitstellen." ++ nl ++ nl ++
     "HTTP 503 Service Unavailable" ++ nl ++ nl ++ "upstream down")%string ].
Proof.
  intros res sel st.
  destruct (rejected_response_changes_nothing st sel res eq_refl)
    as (_ & H1 & H2 & _).
  split; [exact H1 | exact H2].
Defined.

(** ** Means *)

Lemma computeMeans_get (s : Scenario) (a : Area.t) :
  get (computeMeans s) a = mean (filter_number (map score (get (criteria s) a))).
Proof. destruct a; reflexivity. Qed.

Lemma filter_number_scored (cs : list Criterion) :
  filter_number (map score cs) =
  map (fun c => default (num 0) (score c)) (scoredCriteria cs).
Proof.
  induction cs as [| c cs IH]; [reflexivity |].
  unfold scoredCriteria in *. simpl. destruct (score c) eqn:E; simpl.
  - rewrite E, IH. reflexivity.
  - exact IH.
Qed.

Lemma fold_nadd_finite (cs : list Criterion) :
  finiteScores cs ->
  forall acc : Q,
    exists t, fold_left nadd (filter_number (map score cs)) (Fin acc) = Fin t /\
              t == acc + scoreSum cs.
Proof.
  induction 1 as [| c cs Hc _ IH]; intros acc; simpl.
  - exists acc. split; [reflexivity | lra].
  - destruct (score c) as [[| | | q] |]; try discriminate.
    + simpl. destruct (IH (acc + q)) as (t & Et & Ht).
      exists t. split; [exact Et | lra].
    + destruct (IH acc) as (t & Et & Ht). exists t. split; [exact Et | lra].
Qed.

Lemma ndiv_count (t : Q) (k : nat) :
  k <> 0%nat ->
  ndiv (Fin t) (num (Z.of_nat k)) = Fin (t / inject_Z (Z.of_nat k)).
Proof.
  intros Hk. unfold num. simpl.
  assert (H : (inject_Z (Z.of_nat k) ?= 0) = Gt).
  { apply Qgt_alt. change 0 with (inject_Z 0). rewrite <- Zlt_Qlt. lia. }
  rewrite H. reflexivity.
Qed.


(** *** In binary64 arithmetic *)

Lemma Double_computeMeans_get (s : Scenario) (a : Area.t) :
  get (Double.computeMeans s) a =
  Double.mean (filter_number (map score (get (criteria s) a))).
Proof. destruct a; reflexivity. Qed.

(** The sum of two integers is exact while it stays below [2^53]. *)
Lemma Double_nadd_num (x y : Z) :
  (Z.abs (x + y) < 2 ^ 53)%Z -> Double.nadd (num x) (num y) = num (x + y).
Proof.
  intro H. unfold num. cbn [Double.nadd].
  rewrite (round64_comp _ (inject_Z (x + y))) by (rewrite inject_Z_plus; reflexivity).
  rewrite (isDouble_Z _ H), inject_Z_Qred. reflexivity.
Qed.

Lemma offered_is_num (v : number) :
  In v ALL_FIB_WITH_ZERO -> exists z, v = num z /\ (0 <= z <= 1597)%Z.
Proof.
  unfold ALL_FIB_WITH_ZERO, FIB, scale. simpl. intros H.
  repeat (destruct H as [<- | H];
          [eexists; split; [reflexivity | lia] |]).
  destruct H.
Qed.

(** The sum of offered scores is exact: the running sum of fewer than
    [2^32] of them is an integer below [2^53]. *)
Lemma Double_fold_nadd_offered (cs : list Criterion) :
  Forall offeredScore cs ->
  forall acc : Z,
    (0 <= acc)%Z ->
    (acc + 1597 * Z.of_nat (length (scoredCriteria cs)) < 2 ^ 53)%Z ->
    exists t : Z,
      fold_left Double.nadd (filter_number (map score cs)) (num acc) = num t /\
      inject_Z t == inject_Z acc + scoreSum cs /\ (acc <= t)%Z.
Proof.
  induction 1 as [| c cs Hc _ IH]; intros acc Hacc Hlen.
  - exists acc. split; [reflexivity |]. split; [| lia].
    unfold scoreSum. cbn [fold_right]. symmetry. apply Qplus_0_r.
  - unfold offeredScore in Hc. unfold scoredCriteria in *.
    cbn [map filter_number filter] in *.
    destruct (score c) as [v |] eqn:Es.
    + destruct (offered_is_num v Hc) as (z & -> & Hz).
      assert (Esum : scoreSum (c :: cs) == inject_Z z + scoreSum cs).
      { unfold scoreSum. cbn [fold_right]. rewrite Es. reflexivity. }
      cbn [length] in Hlen. cbn [fold_left].
      rewrite Double_nadd_num by lia.
      destruct (IH (acc + z)%Z) as (t & Et & Ht & Hle); [lia | lia |].
      exists t. split; [exact Et |]. split; [| lia].
      rewrite Ht, Esum, inject_Z_plus.
      generalize (inject_Z acc) (inject_Z z) (scoreSum cs). intros. ring.
    + assert (Esum : scoreSum (c :: cs) == scoreSum cs).
      { unfold scoreSum. cbn [fold_right]. rewrite Es. reflexivity. }
      destruct (IH acc Hacc Hlen) as (t & Et & Ht & Hle).
      exists t. split; [exact Et |]. split; [| exact Hle].
      rewrite Ht, Esum. reflexivity.
Qed.

Lemma Double_ndiv_count (t : Z) (k : nat) :
  k <> 0%nat ->
  Double.ndiv (num t) (num (Z.of_nat k))
  = round64 (inject_Z t / inject_Z (Z.of_nat k)).
Proof.
  intros Hk. unfold num. cbn [Double.ndiv].
  assert (H : (inject_Z (Z.of_nat k) ?= 0) = Gt).
  { apply Qgt_alt. change 0 with (inject_Z 0). rewrite <- Zlt_Qlt. lia. }
  rewrite H. reflexivity.
Qed.

Lemma scoredCriteria_length (cs : list Criterion) :
  length (filter_number (map score cs)) = length (scoredCriteria cs).
Proof. rewrite filter_number_scored, length_map. reflexivity. Qed.

(** C5. For every scenario and area, the mean that [perScenarioStats]
    computes is [0] when no criterion of the area carries a score, and
    otherwise the sum of the scores present divided by their number; a
    criterion without a score enters neither the sum nor the count, one with
    the score [0] enters both.  The sum and the quotient are those of
    binary64 arithmetic: with offered scores the sum is exact, and the mean
    is the arithmetic mean of the scores present rounded once, to the
    nearest binary64 value.  The means of the rows are the means of the
    scenarios, in their order. *)
Theorem computeMeans_mean_of_scored (s : Scenario) (a : Area.t) :
  let cs := get (criteria s) a in
  let present := map (fun c => default (num 0) (score c)) (scoredCriteria cs) in
  get (Double.computeMeans s) a =
    (if Nat.eqb (length (scoredCriteria cs)) 0 then num 0
     else Double.ndiv (fold_left Double.nadd present (num 0))
                      (num (Z.of_nat (length (scoredCriteria cs))))) /\
  (scoredCriteria cs = [] -> get (Double.computeMeans s) a = num 0) /\
  (Forall offeredScore cs -> scoredCriteria cs <> [] ->
   (Z.of_nat (length (scoredCriteria cs)) < 2 ^ 32)%Z ->
   get (Double.computeMeans s) a
   = round64 (scoreSum cs / inject_Z (Z.of_nat (length (scoredCriteria cs))))) /\
  (forall scs w,
     map means (Double.perScenarioStats scs w) = map Double.computeMeans scs /\
     map st_id (Double.perScenarioStats scs w) = map s_id scs).
Proof.
  intros cs present.
  assert (E : get (Double.computeMeans s) a =
              if Nat.eqb (length (scoredCriteria cs)) 0 then num 0
              else Double.ndiv (fold_left Double.nadd present (num 0))
                               (num (Z.of_nat (length (scoredCriteria cs))))).
  { rewrite Double_computeMeans_get. fold cs. unfold Double.mean.
    rewrite scoredCriteria_length, filter_number_scored. reflexivity. }
  split; [exact E |]. split; [| split].
  - intros H. rewrite E, H. reflexivity.
  - intros Hoff Hne Hlen. rewrite E.
    destruct (length (scoredCriteria cs)) as [| k] eqn:Ek.
    { destruct (scoredCriteria cs); [congruence | discriminate]. }
    cbn [Nat.eqb]. unfold present. rewrite <- filter_number_scored.
    destruct (Double_fold_nadd_offered cs Hoff 0) as (t & Et & Ht & _);
      [lia | rewrite Ek; lia |].
    rewrite Et, Double_ndiv_count by discriminate.
    apply round64_comp. rewrite Ht. change (inject_Z 0) with 0.
    rewrite Qplus_0_l. reflexivity.
  - intros scs w. unfold Double.perScenarioStats. rewrite !map_map.
    split; reflexivity.
Qed.

Lemma computeMeans_mean_of_scored_witness :
  let c := fun id sc => {| c_id := id; c_text := "Kriterium"; score := sc |} in
  let s := {| s_id := "a1"; s_name := "Szenario A"; description := "";
              files := [];
              criteria := ByArea [c "c1" (Some (num 1)); c "c2" None;
                                  c "c3" (Some (num 2)); c "c4" (Some (num 2))]
                                 [c "c5" (Some (num 0)); c "c6" (Some (num 8))]
                                 [c "c7" None] [] |} in
  Double.computeMeans s = ByArea (round64 (5 / 3)) (num 4) (num 0) (num 0) /\
  get (Double.computeMeans s) Area.S = round64 ((1 + (2 + (2 + 0))) / 3).
Proof.
  intros c s. split; [vm_compute; reflexivity |].
  destruct (computeMeans_mean_of_scored s Area.S) as (_ & _ & H & _).
  apply H.
  - repeat (constructor; [unfold offeredScore; cbn; tauto |]). constructor.
  - discriminate.
  - vm_compute. reflexivity.
Defined.

(** ** Ranking *)

Section StableSort.
Context {A : Type}.
Variable compareFn : A -> A -> number.

Lemma sort_insert_perm (x : A) (l : list A) :
  Permutation (sort_insert compareFn x l) (x :: l).
Proof.
  induction l as [| y l IH]; cbn [sort_insert]; [reflexivity |].
  destruct (nlt (num 0) (compareFn x y)); [| reflexivity].
  rewrite IH. apply perm_swap.
Qed.

Lemma sort_perm (l : list A) : Permutation (sort compareFn l) l.
Proof.
  induction l as [| x l IH]; cbn [sort]; [reflexivity |].
  rewrite sort_insert_perm, IH. reflexivity.
Qed.

(** An element only moves behind elements that the test [p] separates it
    from, so the elements passing [p] keep their order. *)
Lemma sort_insert_filter (p : A -> bool) (x : A) (l : list A) :
  (forall y, In y l -> nlt (num 0) (compareFn x y) = true ->
             p x = true -> p y = true -> False) ->
  filter p (sort_insert compareFn x l) = filter p (x :: l).
Proof.
  induction l as [| y l IH]; intros Hsep; [reflexivity |].
  cbn [sort_insert].
  destruct (nlt (num 0) (compareFn x y)) eqn:E; [| reflexivity].
  cbn [filter]. rewrite IH by (intros z Hz; apply Hsep; right; exact Hz).
  cbn [filter]. destruct (p x) eqn:Px, (p y) eqn:Py; try reflexivity.
  exfalso. apply (Hsep y); auto. left. reflexivity.
Qed.

Lemma sort_filter (p : A -> bool) (l : list A) :
  (forall x y, In x l -> In y l -> nlt (num 0) (compareFn x y) = true ->
               p x = true -> p y = true -> False) ->
  filter p (sort compareFn l) = filter p l.
Proof.
  induction l as [| x l IH]; intros Hsep; [reflexivity |].
  cbn [sort]. rewrite sort_insert_filter.
  - cbn [filter]. rewrite IH; [reflexivity |].
    intros a b Ha Hb. apply Hsep; right; assumption.
  - intros y Hy. apply Hsep; [left; reflexivity |].
    right. apply (Permutation_in _ (sort_perm l)). exact Hy.
Qed.

End StableSort.

(** *** In binary64 arithmetic *)

Lemma nlt_nle (x y : number) : nlt x y = true -> nle x y = true.
Proof.
  destruct x as [| | | a], y as [| | | b]; cbn [nle nlt]; try congruence.
  destruct (Qcompare_spec a b); congruence.
Qed.

Lemma nlt_false_nle (x y : number) :
  isNaN x = false -> isNaN y = false -> nlt x y = false -> nle y x = true.
Proof.
  destruct x as [| | | a], y as [| | | b]; cbn [nle nlt isNaN]; try congruence.
  intros _ _. destruct (Qcompare_spec a b); try discriminate; intros _;
    destruct (Qcompare_spec b a); try reflexivity; lra.
Qed.

Lemma nlt_neqb (x y t : number) :
  nlt x y = true -> neqb x t = true -> neqb y t = true -> False.
Proof.
  destruct x as [| | | a], y as [| | | b], t as [| | | c]; cbn [nlt neqb];
    try discriminate.
  intros H Ha Hb. apply Qeq_bool_eq in Ha, Hb.
  destruct (Qcompare_spec a b); try discriminate. lra.
Qed.

Section StableSortByNumber.
Context {A : Type}.
Variable compareFn : A -> A -> number.
Variable key : A -> number.
Variable good : A -> Prop.
Hypothesis good_key : forall x, good x -> isNaN (key x) = false.
Hypothesis compareFn_key :
  forall x y, good x -> good y ->
    nlt (num 0) (compareFn x y) = nlt (key x) (key y).

Lemma sort_insert_descending (x : A) (l : list A) :
  good x -> Forall good l ->
  StronglySorted (fun u v => nle (key v) (key u) = true) l ->
  StronglySorted (fun u v => nle (key v) (key u) = true)
                 (sort_insert compareFn x l).
Proof.
  intros Gx. induction l as [| y l IH]; intros Gl Hs; cbn [sort_insert].
  - constructor; constructor.
  - inversion Gl as [| ? ? Gy Gl']; subst.
    inversion Hs as [| ? ? Hs' Hy]; subst.
    rewrite (compareFn_key x y Gx Gy).
    destruct (nlt (key x) (key y)) eqn:E.
    + constructor; [apply IH; assumption |].
      apply (Permutation_Forall (Permutation_sym (sort_insert_perm compareFn x l))).
      constructor; [apply nlt_nle, E | exact Hy].
    + assert (Hxy : nle (key y) (key x) = true).
      { apply nlt_false_nle; auto. }
      constructor; [exact Hs |].
      constructor; [exact Hxy |].
      eapply Forall_impl; [| exact Hy].
      cbv beta. intros z Hz. apply nle_trans with (key y); assumption.
Qed.

Lemma sort_descending (l : list A) :
  Forall good l ->
  StronglySorted (fun u v => nle (key v) (key u) = true) (sort compareFn l).
Proof.
  induction 1 as [| x l Gx Gl IH]; cbn [sort]; [constructor |].
  apply sort_insert_descending; auto.
  apply (Permutation_Forall (Permutation_sym (sort_perm compareFn l))). exact Gl.
Qed.

Lemma sort_stable (l : list A) (t : number) :
  Forall good l ->
  filter (fun x => neqb (key x) t) (sort compareFn l) =
  filter (fun x => neqb (key x) t) l.
Proof.
  intro Gl. apply sort_filter. intros x y Hx Hy Hafter Px Py.
  rewrite Forall_forall in Gl.
  rewrite (compareFn_key x y (Gl x Hx) (Gl y Hy)) in Hafter.
  exact (nlt_neqb _ _ _ Hafter Px Py).
Qed.
End StableSortByNumber.

Lemma round64_least : round64 (pow2 (-1074)) = Fin (Qred (pow2 (-1074))).
Proof.
  apply (round64_exact _ 1 (-1074)).
  - ring.
  - intro N0. apply expo_le; [exact N0 | | lia].
    rewrite Qabs_pos by (apply Qlt_le_weak, pow2_pos). apply pow2_lt. lia.
  - rewrite Qabs_pos by (apply Qlt_le_weak, pow2_pos). apply pow2_lt. lia.
Qed.

(** The sign of a rounded difference of two binary64 values is the sign of
    the difference: values that differ do so by [2^-1074] or more. *)
Lemma Double_nsub_sign (a b : Q) :
  (exists z, a == inject_Z z * pow2 (-1074)) ->
  (exists z, b == inject_Z z * pow2 (-1074)) ->
  nlt (num 0) (Double.nsub (Fin b) (Fin a)) = nlt (Fin a) (Fin b).
Proof.
  intros [za Ha] [zb Hb]. cbn [Double.nsub].
  pose proof (pow2_pos (-1074)) as Hp.
  destruct (Qlt_le_dec a b) as [Hlt | Hle].
  - assert (E : nlt (Fin a) (Fin b) = true) by (apply nlt_Fin; exact Hlt).
    rewrite E.
    assert (Hz : (za + 1 <= zb)%Z).
    { assert (H : inject_Z za * pow2 (-1074) < inject_Z zb * pow2 (-1074))
        by (rewrite <- Ha, <- Hb; exact Hlt).
      assert (H' : inject_Z za < inject_Z zb).
      { apply Qmult_lt_r with (pow2 (-1074)); assumption. }
      rewrite <- Zlt_Qlt in H'. lia. }
    assert (Hge : pow2 (-1074) <= b - a).
    { rewrite Ha, Hb. rewrite Zle_Qle, inject_Z_plus in Hz.
      change (inject_Z 1) with 1 in Hz.
      generalize dependent (inject_Z za). generalize dependent (inject_Z zb).
      intros. nra. }
    pose proof (round64_mono _ _ Hge) as Hm. rewrite round64_least in Hm.
    destruct (round64 (b - a)) as [| | | r]; try discriminate; [reflexivity |].
    apply nle_Fin in Hm. rewrite Qred_correct in Hm. apply nlt_Fin.
    change (inject_Z 0) with 0. lra.
  - assert (E : nlt (Fin a) (Fin b) = false) by (apply nlt_Fin_false; exact Hle).
    rewrite E. apply nle_nlt_false.
    change (num 0) with (round64 0). apply round64_mono. lra.
Qed.

Lemma Double_nadd_grid (x y : number) (r : Q) :
  Double.nadd x y = Fin r -> exists z, r == inject_Z z * pow2 (-1074).
Proof.
  destruct x as [| | | a], y as [| | | b]; cbn [Double.nadd]; try discriminate.
  intro H. apply (round64_grid _ _ H).
Qed.

(** On rows whose totals are not [NaN], [(a, b) => b.total - a.total] is
    positive exactly when [a.total < b.total]. *)
Lemma Double_byTotal_key (scs : list Scenario) (w : byArea number) (x y : Stats) :
  In x (Double.perScenarioStats scs w) /\ isNaN (total x) = false ->
  In y (Double.perScenarioStats scs w) /\ isNaN (total y) = false ->
  nlt (num 0) (Double.nsub (total y) (total x)) = nlt (total x) (total y).
Proof.
  intros [Hx Nx] [Hy Ny].
  assert (G : forall row r, In row (Double.perScenarioStats scs w) ->
                            total row = Fin r ->
                            exists z, r == inject_Z z * pow2 (-1074)).
  { intros row r Hrow. unfold Double.perScenarioStats in Hrow.
    apply in_map_iff in Hrow. destruct Hrow as (s & <- & _). cbn [total].
    apply Double_nadd_grid. }
  pose proof (G x) as Gx. pose proof (G y) as Gy.
  destruct (total x) as [| | | a]; try discriminate;
    destruct (total y) as [| | | b]; try discriminate; try reflexivity.
  apply Double_nsub_sign; [apply Gx | apply Gy]; auto.
Qed.

(** C6. Whenever no row has the total [NaN], the ranking is a permutation
    of the rows of [perScenarioStats] in descending order of total, and it
    is stable: for every value [t], the rows whose total equals [t] stand in
    the ranking in the order they had in the input.  The total of a row is
    the sum, in the order S, W, O, T, of the products of its means with the
    weights, in binary64 arithmetic, and its means are those of its
    scenario. *)
Theorem ranking_descending_and_stable
        (scs : list Scenario) (w : byArea number)
        (Htotals : Forall (fun row => isNaN (total row) = false)
                          (Double.perScenarioStats scs w)) :
  Permutation (Double.sortedForRanking scs w) (Double.perScenarioStats scs w) /\
  StronglySorted (fun x y => nle (total y) (total x) = true)
                 (Double.sortedForRanking scs w) /\
  (forall t,
     filter (fun row => neqb (total row) t) (Double.sortedForRanking scs w) =
     filter (fun row => neqb (total row) t) (Double.perScenarioStats scs w)) /\
  (forall row, In row (Double.sortedForRanking scs w) ->
     total row =
       Double.nadd
         (Double.nadd
            (Double.nadd (Double.nmul (get (means row) Area.S) (get w Area.S))
                         (Double.nmul (get (means row) Area.W) (get w Area.W)))
            (Double.nmul (get (means row) Area.O) (get w Area.O)))
         (Double.nmul (get (means row) Area.T) (get w Area.T)) /\
     exists s, In s scs /\ st_id row = s_id s /\ st_name row = s_name s /\
               means row = Double.computeMeans s) /\
  map st_id (Double.perScenarioStats scs w) = map s_id scs.
Proof.
  set (good := fun row : Stats =>
                 In row (Double.perScenarioStats scs w) /\
                 isNaN (total row) = false).
  assert (Hgood : Forall good (Double.perScenarioStats scs w)).
  { rewrite Forall_forall in *. intros row Hrow. split; auto. }
  unfold Double.sortedForRanking.
  split; [apply sort_perm |]. split; [| split; [| split]].
  - apply (sort_descending _ total good).
    + intros x [_ Hx]. exact Hx.
    + intros x y Gx Gy. apply (Double_byTotal_key scs w); assumption.
    + exact Hgood.
  - intro t. apply (sort_stable _ total good).
    + intros x y Gx Gy. apply (Double_byTotal_key scs w); assumption.
    + exact Hgood.
  - intros row Hrow.
    apply (Permutation_in _ (sort_perm _ _)) in Hrow.
    unfold Double.perScenarioStats in Hrow. apply in_map_iff in Hrow.
    destruct Hrow as (s & <- & Hs). cbn [total means st_id st_name].
    split; [reflexivity |]. exists s. auto.
  - unfold Double.perScenarioStats. rewrite map_map. reflexivity.
Qed.

Lemma ranking_descending_and_stable_witness :
  let c := fun sc => {| c_id := "c"; c_text := "Kriterium"; score := Some (num sc) |} in
  let sc := fun id v => {| s_id := id; s_name := id; description := "";
                           files := [];
                           criteria := ByArea [c v] [] [] [] |} in
  let scs := [sc "first" 5%Z; sc "second" 13%Z; sc "third" 13%Z] in
  let w := ByArea (num 1) (num (-1)) (num 1) (num (-1)) in
  map st_id (Double.sortedForRanking scs w) = ["second"; "third"; "first"] /\
  map st_id (filter (fun row => neqb (total row) (num 13))
                    (Double.sortedForRanking scs w))
  = ["second"; "third"].
Proof.
  intros c sc scs w. split; [vm_compute; reflexivity |].
  destruct (ranking_descending_and_stable scs w) as (_ & _ & H & _).
  - repeat (constructor; [vm_compute; reflexivity |]). constructor.
  - rewrite (H (num 13)). vm_compute. reflexivity.
Defined.

(** C6 as stated fails.  With the weights [1e308] and [-1e308] for S and W,
    a scenario whose S and W means are [2] has the total
    [Infinity + -Infinity = NaN].  Beside a scenario with a finite total, no
    arrangement of the two rows is in descending order of total; the
    ranking leaves them as they stood. *)
Lemma ranking_with_NaN_total_not_descending :
  let c := fun sc => {| c_id := "c"; c_text := "Kriterium"; score := Some (num sc) |} in
  let a := {| s_id := "a"; s_name := "A"; description := ""; files := [];
              criteria := ByArea [c 2%Z] [c 2%Z] [] [] |} in
  let b := {| s_id := "b"; s_name := "B"; description := ""; files := [];
              criteria := ByArea [c 1%Z] [] [] [] |} in
  let w := ByArea (round64 (inject_Z (10 ^ 308)))
                  (round64 (- inject_Z (10 ^ 308))) (num 1) (num 1) in
  (forall x, is_finite (get w x) = true) /\
  map total (Double.perScenarioStats [a; b] w)
  = [NaN; round64 (inject_Z (10 ^ 308))] /\
  map st_id (Double.sortedForRanking [a; b] w) = ["a"; "b"] /\
  forall l, Permutation l (Double.perScenarioStats [a; b] w) ->
    ~ StronglySorted (fun x y => nle (total y) (total x) = true) l.
Proof.
  intros c a b w. split; [intros []; vm_compute; reflexivity |].
  split; [vm_compute; reflexivity |]. split; [vm_compute; reflexivity |].
  intros l Hl Hs.
  assert (Hlen : length l = 2%nat) by (rewrite (Permutation_length Hl); reflexivity).
  destruct l as [| x [| y [| z l]]]; try discriminate.
  inversion Hs as [| ? ? _ Hx]; subst.
  inversion Hx as [| ? ? Hxy _]; subst.
  assert (Hin : forall r, In r [x; y] -> In r (Double.perScenarioStats [a; b] w))
    by (intros r; apply Permutation_in; exact Hl).
  assert (HNaN : exists r, In r [x; y] /\ total r = NaN).
  { assert (H : In (nth 0 (Double.perScenarioStats [a; b] w) x) [x; y]).
    { apply (Permutation_in _ (Permutation_sym Hl)). left. reflexivity. }
    eexists. split; [exact H |]. vm_compute. reflexivity. }
  destruct HNaN as (r & [<- | [<- | []]] & Er); rewrite Er in Hxy.
  - destruct (total y); discriminate.
  - discriminate.
Qed.

(** ** Applying the scores of a response *)





(** C2 at a response with two scores.  The scenario has the unscored
    criteria [c1] and [c2] in area S and the endpoint answers 200 with
    [{"S": {"c1": 5, "c2": 8}}].  Both writes are built from the [selected]
    of the render that started [aiScoreAll], so the write for [c2] puts
    back the unscored [c1]: afterwards [c1] has no score (the specification
    promises [5]) and only [c2] has its score [8]. *)
Theorem aiScoreAll_two_scores_only_last_applied :
  let c1 := {| c_id := "c1"; c_text := "Marke"; score := None |} in
  let c2 := {| c_id := "c2"; c_text := "Reichweite"; score := None |} in
  let sel := {| s_id := "a1"; s_name := "Szenario A"; description := "";
                files := []; criteria := ByArea [c1; c2] [] [] [] |} in
  let st := {| scenarios := [sel]; selectedScenarioId := "a1";
               weights := ByArea (num 1) (num (-1)) (num 1) (num (-1)) |} in
  let data := ByArea (Some ({[ "c1" := JNumber (num 5);
                               "c2" := JNumber (num 8) ]} : gmap string jsval))
                     None None None in
  let res := {| status := 200; statusText := "OK"; text := "";
                json := inr data |} in
  nearestFib (num 5) = num 5 /\
  length (updates (aiScoreAll st sel (Responded res))) = 2%nat /\
  option_map (fun st' => map (fun s => map score (at_S (criteria s))) (scenarios st'))
             (afterAiScoreAll st (Responded res))
  = Some [[None; Some (num 8)]].
Proof.
  intros c1 c2 sel st data res. split; [reflexivity |]. split.
  - vm_compute. reflexivity.
  - vm_compute. reflexivity.
Qed.

(** With a single score in the response the write is not overwritten: the
    criterion named gets the snapped score and the others keep theirs. *)
Example aiScoreAll_single_score :
  let c1 := {| c_id := "c1"; c_text := "Marke"; score := None |} in
  let c2 := {| c_id := "c2"; c_text := "Reichweite"; score := Some (num 2) |} in
  let sel := {| s_id := "a1"; s_name := "Szenario A"; description := "";
                files := []; criteria := ByArea [c1; c2] [] [] [] |} in
  let st := {| scenarios := [sel]; selectedScenarioId := "a1";
               weights := ByArea (num 1) (num (-1)) (num 1) (num (-1)) |} in
  let data := ByArea (Some ({[ "c1" := JNumber (num 4);
                               "c2" := JNumber NaN;
                               "zz" := JNumber (num 9) ]} : gmap string jsval))
                     None None None in
  let res := {| status := 200; statusText := "OK"; text := "";
                json := inr data |} in
  option_map (fun st' => map (fun s => map score (at_S (criteria s))) (scenarios st'))
             (afterAiScoreAll st (Responded res))
  = Some [[Some (num 3); Some (num 2)]].
Proof. vm_compute. reflexivity. Qed.

(** * Further properties of the code *)

(** ** The two snappers *)

Lemma nearestFib_In_offered (n : number) : In (nearestFib n) ALL_FIB_WITH_ZERO.
Proof.
  unfold nearestFib. destruct (nle n (num 0)); [left; reflexivity |].
  right.
  destruct (nearest_loop_In n FIB (nth 0 FIB NaN, nabs (nsub n (nth 0 FIB NaN))))
    as [H | H]; [| exact H].
  rewrite <- H. left. reflexivity.
Qed.

Lemma nearestFib_fixes_offered (v : number) :
  In v ALL_FIB_WITH_ZERO -> nearestFib v = v.
Proof.
  unfold ALL_FIB_WITH_ZERO, FIB, scale. simpl.
  intros H. repeat (destruct H as [<- | H]; [reflexivity |]). destruct H.
Qed.



Lemma snap_step_Fin (q : Q) (p c : Z) :
  snap_step (Fin q) (num p) (num c) =
  if nlt (Fin (Qabs (inject_Z c - q))) (Fin (Qabs (inject_Z p - q)))
  then num c else num p.
Proof. reflexivity. Qed.

(** The [reduce] of [snapFib] keeps the closest member seen so far, the
    lowest one among equally close members. *)
Lemma snap_loop (q : Q) (l : list Z) :
  forall (seen : list Z) (p : Z),
    In p seen ->
    closest_low q p seen ->
    (forall x g, In x l -> In g seen -> (g <= x)%Z) ->
    StronglySorted Z.le l ->
    exists f,
      fold_left (snap_step (Fin q)) (map num l) (num p) = num f /\
      In f (seen ++ l) /\ closest_low q f (seen ++ l).
Proof.
  induction l as [| x l IH]; intros seen p Hp Hc Hle Hs.
  - exists p. rewrite app_nil_r. simpl. auto.
  - inversion Hs as [| ? ? Hs' Hx]; subst.
    change (map num (x :: l)) with (num x :: map num l).
    cbn [fold_left]. rewrite snap_step_Fin.
    assert (Hle' : forall y g, In y l -> In g (seen ++ [x]) -> (g <= y)%Z).
    { intros y g Hy Hg. apply in_app_or in Hg. destruct Hg as [Hg | [<- | []]].
      - apply Hle; [right |]; assumption.
      - rewrite Forall_forall in Hx. apply Hx, Hy. }
    destruct (nlt (Fin (Qabs (inject_Z x - q))) (Fin (Qabs (inject_Z p - q))))
      eqn:E.
    + apply nlt_Fin in E.
      destruct (IH (seen ++ [x]) x) as (f & Hf & Hin & Hcl); auto.
      * apply in_or_app. right. left. reflexivity.
      * intros g Hg. apply in_app_or in Hg. destruct Hg as [Hg | [<- | []]].
        -- destruct (Hc g Hg) as [H1 _]. split; [qabs_lra | intros H2; qabs_lra].
        -- split; [lra | lia].
      * exists f. rewrite <- app_assoc in Hin, Hcl. auto.
    + apply nlt_Fin_false in E.
      destruct (IH (seen ++ [x]) p) as (f & Hf & Hin & Hcl); auto.
      * apply in_or_app. left. assumption.
      * intros g Hg. apply in_app_or in Hg. destruct Hg as [Hg | [<- | []]].
        -- apply Hc, Hg.
        -- split; [qabs_lra |]. intros _.
           apply Hle; [left; reflexivity | exact Hp].
      * exists f. rewrite <- app_assoc in Hin, Hcl. auto.
Qed.

Lemma snapFib_closest_low (q : Q) :
  exists f, snapFib (Fin q) = num f /\ In f scale /\ closest_low q f scale.
Proof.
  unfold snapFib. simpl reduce.
  destruct (snap_loop q (tl scale) [1%Z] 1%Z) as (f & Hf & Hin & Hcl).
  - left. reflexivity.
  - intros g [<- | []]. split; [lra | lia].
  - intros x g Hx [<- | []]. apply scale_ge_1. right. exact Hx.
  - pose proof scale_sorted as H. inversion H. assumption.
  - exists f. split; [exact Hf |]. split; [exact Hin | exact Hcl].
Qed.


(** ** The snappers in binary64 arithmetic, on the whole range *)

Lemma Double_snap_loop_low (q : Q) (l : list Z) :
  q <= 0 -> (forall c, In c l -> (1 <= c)%Z) ->
  fold_left (Double.snap_step (Fin q)) (map num l) (num 1) = num 1.
Proof.
  intros Hq. induction l as [| c l IH]; intros Hl; [reflexivity |].
  change (map num (c :: l)) with (num c :: map num l). cbn [fold_left].
  assert (E : Double.snap_step (Fin q) (num 1) (num c) = num 1).
  { unfold Double.snap_step.
    assert (Hc : (1 <= c)%Z) by (apply Hl; left; reflexivity).
    rewrite Zle_Qle in Hc. change (inject_Z 1) with 1 in Hc.
    assert (F : nlt (nabs (Double.nsub (num c) (Fin q)))
                    (nabs (Double.nsub (num 1) (Fin q))) = false).
    { unfold num. cbn [Double.nsub]. rewrite !round64_abs.
      apply nle_nlt_false, round64_mono.
      change (inject_Z 1) with 1.
      generalize dependent (inject_Z c). intros. qabs_lra. }
    rewrite F. reflexivity. }
  rewrite E. apply IH. intros c' Hc'. apply Hl. right. exact Hc'.
Qed.

Lemma Double_snapFib_low (q : Q) : q <= 0 -> Double.snapFib (Fin q) = num 1.
Proof.
  intro Hq. unfold Double.snapFib. simpl reduce.
  apply (Double_snap_loop_low q (tl scale) Hq).
  intros c Hc. apply scale_ge_1. right. exact Hc.
Qed.

Lemma scale_le_top (x : Z) : In x scale -> (x <= 1597)%Z.
Proof.
  unfold scale. simpl. intros H.
  repeat (destruct H as [<- | H]; [lia |]). destruct H.
Qed.

Lemma scale_one_or_more (x : Z) : In x scale -> x = 1%Z \/ (2 <= x)%Z.
Proof.
  unfold scale. simpl. intros H.
  repeat (destruct H as [<- | H]; [lia |]). destruct H.
Qed.

Lemma closest_low_top (q : Q) : 1597 <= q -> closest_low q 1597 scale.
Proof.
  intros Hq g Hg. apply scale_le_top in Hg.
  assert (Hg' : inject_Z g <= 1597).
  { change 1597 with (inject_Z 1597). rewrite <- Zle_Qle. exact Hg. }
  change (inject_Z 1597) with 1597.
  split; [qabs_lra |]. intros Hd. rewrite Zle_Qle.
  change (inject_Z 1597) with 1597. qabs_lra.
Qed.

Lemma closest_low_bottom (q : Q) : q <= 3 # 2 -> closest_low q 1 scale.
Proof.
  intros Hq g Hg. apply scale_one_or_more in Hg.
  change (inject_Z 1) with 1. split.
  - destruct Hg as [-> | Hg]; [change (inject_Z 1) with 1; lra |].
    assert (Hg' : 2 <= inject_Z g).
    { change 2 with (inject_Z 2). rewrite <- Zle_Qle. exact Hg. }
    qabs_lra.
  - intros _. lia.
Qed.

Lemma closest_low_monotone (q1 q2 : Q) (f1 f2 : Z) (among : list Z) :
  q1 <= q2 -> In f1 among -> In f2 among ->
  closest_low q1 f1 among -> closest_low q2 f2 among -> (f1 <= f2)%Z.
Proof.
  intros Hq H1 H2 C1 C2.
  destruct (Z_le_gt_dec f1 f2) as [Hle | Hgt]; [exact Hle | exfalso].
  destruct (C1 f2 H2) as [A1 B1]. destruct (C2 f1 H1) as [A2 _].
  assert (S1 : Qabs (q1 - inject_Z f1) < Qabs (q1 - inject_Z f2)).
  { apply Qnot_le_lt. intros H. specialize (B1 H). lia. }
  assert (Hf : inject_Z f2 < inject_Z f1) by (rewrite <- Zlt_Qlt; lia).
  clear B1 C1 C2. qabs_lra.
Qed.

(** For every binary64 input below [2^53], negative ones included,
    [snapFib] returns the member that is closest in exact terms, the lowest
    of two equally close ones. *)
Lemma Double_snapFib_closest_low (q : Q) :
  isDouble q -> q < pow2 53 ->
  exists f, Double.snapFib (Fin q) = num f /\ In f scale /\ closest_low q f scale.
Proof.
  intros Hd Hmax. destruct (Qlt_le_dec 0 q) as [Hpos | Hneg].
  - rewrite Double_snapFib_nearestFib by (apply nle_Fin_false; exact Hpos).
    apply Double_nearestFib_closest_low; assumption.
  - exists 1%Z. split; [apply Double_snapFib_low, Hneg |].
    split; [left; reflexivity |]. apply closest_low_bottom. lra.
Qed.

(** X2. For every binary64 input below [2^53], negative ones included, the
    service-side [snapFib], run in binary64 arithmetic, returns a member of
    the scale at minimal distance from the input, and the lowest such member
    when two are equally close. *)
Theorem snapFib_nearest_lower_on_tie
        (q : Q) (Hd : isDouble q) (Hmax : q < pow2 53) :
  In (Double.snapFib (Fin q)) FIB /\
  (forall g, In g FIB ->
     nle (dist (Fin q) (Double.snapFib (Fin q))) (dist (Fin q) g) = true) /\
  (forall g, In g FIB ->
     nle (dist (Fin q) g) (dist (Fin q) (Double.snapFib (Fin q))) = true ->
     nle (Double.snapFib (Fin q)) g = true).
Proof.
  destruct (Double_snapFib_closest_low q Hd Hmax) as (f & Ef & Hf & Cf).
  rewrite Ef. split; [| split].
  - apply In_FIB. exists f. auto.
  - intros g Hg. apply In_FIB in Hg. destruct Hg as (z & -> & Hz).
    apply nle_dist. apply Cf, Hz.
  - intros g Hg Hle. apply In_FIB in Hg. destruct Hg as (z & -> & Hz).
    apply nle_dist in Hle. apply nle_num. apply (Cf z Hz), Hle.
Qed.

Lemma snapFib_nearest_lower_on_tie_witness :
  isDouble (-7 # 2) /\ Double.snapFib (Fin (-7 # 2)) = num 1 /\
  nle (dist (Fin (-7 # 2)) (num 1)) (dist (Fin (-7 # 2)) (num 2)) = true.
Proof.
  assert (Hd : isDouble (-7 # 2)) by (vm_compute; reflexivity).
  assert (Hmax : (-7 # 2) < pow2 53) by (vm_compute; reflexivity).
  assert (E : Double.snapFib (Fin (-7 # 2)) = num 1) by (vm_compute; reflexivity).
  split; [exact Hd |]. split; [exact E |].
  destruct (snapFib_nearest_lower_on_tie (-7 # 2) Hd Hmax) as (_ & H & _).
  rewrite <- E. apply H. right. left. reflexivity.
Defined.

Lemma ALL_FIB_nonnegative (v : number) :
  In v ALL_FIB_WITH_ZERO -> nle (num 0) v = true.
Proof.
  unfold ALL_FIB_WITH_ZERO, FIB, scale. simpl.
  intros H. repeat (destruct H as [<- | H]; [reflexivity |]). destruct H.
Qed.

Lemma Double_nearest_loop_In (n : number) (l : list number) :
  forall st, In (fst (fold_left (Double.nearest_step n) l st)) (fst st :: l).
Proof.
  induction l as [| f l IH]; intros st.
  - left. reflexivity.
  - cbn [fold_left]. specialize (IH (Double.nearest_step n st f)).
    destruct IH as [IH | IH]; [| right; right; exact IH].
    rewrite <- IH. unfold Double.nearest_step.
    destruct (nlt (nabs (Double.nsub n f)) (snd st)); simpl.
    + right. left. reflexivity.
    + left. reflexivity.
Qed.

Lemma Double_nearestFib_In_offered (n : number) :
  In (Double.nearestFib n) ALL_FIB_WITH_ZERO.
Proof.
  unfold Double.nearestFib. destruct (nle n (num 0)); [left; reflexivity |].
  right.
  destruct (Double_nearest_loop_In n FIB
              (nth 0 FIB NaN, nabs (Double.nsub n (nth 0 FIB NaN))))
    as [H | H]; [| exact H].
  rewrite <- H. left. reflexivity.
Qed.

(** X4. Snapping in binary64 arithmetic preserves order on the binary64
    inputs below [2^53]: if [q1 <= q2] then
    [nearestFib q1 <= nearestFib q2] and [snapFib q1 <= snapFib q2]. *)
Theorem snapping_monotone (q1 q2 : Q)
        (Hd1 : isDouble q1) (Hd2 : isDouble q2)
        (Hle : q1 <= q2) (Hmax : q2 < pow2 53) :
  nle (Double.nearestFib (Fin q1)) (Double.nearestFib (Fin q2)) = true /\
  nle (Double.snapFib (Fin q1)) (Double.snapFib (Fin q2)) = true.
Proof.
  assert (Hmax1 : q1 < pow2 53) by lra.
  split.
  - destruct (Qlt_le_dec 0 q1) as [Hpos | Hneg].
    + destruct (Double_nearestFib_closest_low q1 Hd1 Hpos Hmax1)
        as (f1 & E1 & H1 & C1).
      assert (Hpos2 : 0 < q2) by lra.
      destruct (Double_nearestFib_closest_low q2 Hd2 Hpos2 Hmax)
        as (f2 & E2 & H2 & C2).
      rewrite E1, E2. apply nle_num.
      apply (closest_low_monotone q1 q2 f1 f2 scale); assumption.
    + assert (E : Double.nearestFib (Fin q1) = num 0).
      { unfold Double.nearestFib.
        assert (H : nle (Fin q1) (num 0) = true) by (apply nle_Fin; exact Hneg).
        rewrite H. reflexivity. }
      rewrite E. apply ALL_FIB_nonnegative, Double_nearestFib_In_offered.
  - destruct (Double_snapFib_closest_low q1 Hd1 Hmax1) as (f1 & E1 & H1 & C1).
    destruct (Double_snapFib_closest_low q2 Hd2 Hmax) as (f2 & E2 & H2 & C2).
    rewrite E1, E2. apply nle_num.
    apply (closest_low_monotone q1 q2 f1 f2 scale); assumption.
Qed.

Lemma snapping_monotone_witness :
  nle (Double.nearestFib (Fin (7 # 2))) (Double.nearestFib (Fin (13 # 2))) = true /\
  nle (Double.snapFib (Fin (-4))) (Double.snapFib (Fin 100)) = true.
Proof.
  split.
  - apply (snapping_monotone (7 # 2) (13 # 2)); vm_compute; try reflexivity;
      discriminate.
  - apply (snapping_monotone (-4) 100); vm_compute; try reflexivity;
      discriminate.
Defined.

(** *** Large inputs *)

(** An integer less a part below one half rounds to the integer. *)
Lemma rne_near (N : Z) (d : Q) :
  0 <= d -> d < 1 # 2 -> rne (inject_Z N - d) = N.
Proof.
  intros H0 H1. destruct (Qeq_dec d 0) as [Z0 | N0].
  - rewrite (rne_comp _ (inject_Z N)) by (rewrite Z0; ring). apply rne_Z.
  - unfold rne.
    assert (Hf : Qfloor (inject_Z N - d) = (N - 1)%Z).
    { apply Qfloor_unique.
      - unfold Z.sub. rewrite inject_Z_plus, inject_Z_opp.
        change (inject_Z 1) with 1. lra.
      - replace (N - 1 + 1)%Z with N by lia. lra. }
    rewrite Hf.
    assert (Hi : inject_Z (N - 1) == inject_Z N - 1).
    { unfold Z.sub. rewrite inject_Z_plus, inject_Z_opp. reflexivity. }
    destruct (Qcompare_spec (inject_Z N - d - inject_Z (N - 1)) (1 # 2))
      as [C | C | C]; rewrite Hi in C.
    + exfalso. lra.
    + exfalso. lra.
    + lia.
Qed.

Lemma shifted_quotient (a b p n : Q) :
  0 < p -> a == n * p -> (a - b) / p == n - b / p.
Proof. intros Hp E. rewrite E. field. lra. Qed.

(** From [2^65] on, subtracting a member of the scale changes nothing: the
    difference rounds back to the input. *)
Lemma absorbed (q : Q) (f : Z) :
  isDouble q -> pow2 65 <= q -> (1 <= f <= 1597)%Z ->
  round64 (q - inject_Z f) = Fin (Qred q).
Proof.
  intros Hd Hq Hf.
  assert (H65 : pow2 65 == inject_Z (2 ^ 65)) by (apply pow2_Z; lia).
  assert (Hf1 : 1 <= inject_Z f).
  { change 1 with (inject_Z 1). rewrite <- Zle_Qle. lia. }
  assert (Hf2 : inject_Z f <= 1597).
  { change 1597 with (inject_Z 1597). rewrite <- Zle_Qle. lia. }
  assert (Hq0 : ~ q == 0).
  { intro E. rewrite E, H65 in Hq. revert Hq. apply Qlt_not_le. reflexivity. }
  assert (Hqpos : 0 < q).
  { apply Qlt_le_trans with (pow2 65); [apply pow2_pos | exact Hq]. }
  assert (Hqbig : 4096 <= q).
  { apply Qle_trans with (pow2 65); [| exact Hq]. rewrite H65. discriminate. }
  set (x := q - inject_Z f).
  assert (Hx0 : ~ x == 0) by (unfold x; lra).
  assert (Hxpos : 0 < x) by (unfold x; lra).
  destruct (Qlog2_spec q Hq0) as [L1 L2].
  rewrite Qabs_pos in L1, L2 by lra.
  assert (HL : (65 <= Qlog2 q)%Z).
  { assert (H : (65 < Qlog2 q + 1)%Z) by (apply pow2_lt_inv; lra). lia. }
  assert (Heq : expo q = (Qlog2 q - 52)%Z) by (unfold expo; lia).
  destruct (isDouble_ulp q Hd) as [zq Hzq].
  (* the exponent of the difference is that of [q] or one less *)
  destruct (Qlog2_spec x Hx0) as [X1 X2].
  rewrite Qabs_pos in X1, X2 by lra.
  assert (Hxq : (Qlog2 x <= Qlog2 q)%Z).
  { apply Qlog2_mono; [exact Hx0 |]. rewrite !Qabs_pos by lra. unfold x. lra. }
  assert (Hhalf : pow2 (Qlog2 q - 1) <= x).
  { assert (E : pow2 (Qlog2 q) == 2 * pow2 (Qlog2 q - 1)).
    { replace (Qlog2 q) with (1 + (Qlog2 q - 1))%Z at 1 by lia.
      rewrite pow2_add. reflexivity. }
    assert (H64 : pow2 64 <= pow2 (Qlog2 q - 1)) by (apply pow2_le; lia).
    assert (E64 : pow2 64 == inject_Z (2 ^ 64)) by (apply pow2_Z; lia).
    assert (B : 4096 <= pow2 64) by (rewrite E64; discriminate).
    unfold x. lra. }
  assert (Hxl : (Qlog2 q - 1 <= Qlog2 x)%Z).
  { assert (H : (Qlog2 q - 1 < Qlog2 x + 1)%Z) by (apply pow2_lt_inv; lra). lia. }
  assert (Hex : (12 <= expo x <= expo q)%Z) by (unfold expo in *; lia).
  (* [q] is a multiple of the unit of the difference *)
  pose proof (pow2_split (expo x) (expo q) ltac:(lia)) as Hsp.
  assert (Hqx : q == inject_Z (zq * 2 ^ (expo q - expo x)) * pow2 (expo x)).
  { apply Qeq_trans with (inject_Z zq * pow2 (expo q)); [exact Hzq |].
    rewrite inject_Z_mult, Hsp. ring. }
  pose proof (pow2_pos (expo x)) as Hp.
  assert (Hp12 : 4096 <= pow2 (expo x)).
  { apply Qle_trans with (pow2 12); [| apply pow2_le; lia].
    rewrite (pow2_Z 12) by lia. discriminate. }
  assert (Hsc : scaled (expo x) x == q).
  { unfold scaled.
    set (N := (zq * 2 ^ (expo q - expo x))%Z) in *.
    assert (E : x / pow2 (expo x) == inject_Z N - inject_Z f / pow2 (expo x)).
    { apply shifted_quotient; [exact Hp | exact Hqx]. }
    rewrite (rne_comp _ _ E), rne_near.
    - symmetry. exact Hqx.
    - apply Qle_shift_div_l; [exact Hp | lra].
    - apply Qlt_shift_div_r; [exact Hp | lra]. }
  unfold round64. rewrite Qeq_bool_false by exact Hx0. fold x.
  assert (Hov : Qle_bool (pow2 1024) (Qabs (scaled (expo x) x)) = false).
  { apply Qle_bool_false. rewrite Hsc. apply isDouble_max, Hd. }
  rewrite Hov, (Qred_complete _ _ Hsc). reflexivity.
Qed.

Lemma Double_nearest_loop_absorbed (q : Q) (l : list Z) :
  isDouble q -> pow2 65 <= q -> (forall f, In f l -> (1 <= f <= 1597)%Z) ->
  fst (fold_left (Double.nearest_step (Fin q)) (map num l)
         (num 1, nabs (Double.nsub (Fin q) (num 1)))) = num 1.
Proof.
  intros Hd Hq. induction l as [| f l IH]; intros Hl; [reflexivity |].
  change (map num (f :: l)) with (num f :: map num l). cbn [fold_left].
  assert (E : Double.nearest_step (Fin q)
                (num 1, nabs (Double.nsub (Fin q) (num 1))) (num f)
              = (num 1, nabs (Double.nsub (Fin q) (num 1)))).
  { unfold Double.nearest_step. cbn [snd]. unfold num. cbn [Double.nsub].
    rewrite (absorbed q f Hd Hq) by (apply Hl; left; reflexivity).
    rewrite (absorbed q 1 Hd Hq) by lia.
    rewrite nlt_irrefl. reflexivity. }
  rewrite E. apply IH. intros g Hg. apply Hl. right. exact Hg.
Qed.

(** X5. In binary64 arithmetic the scale saturates at both ends, as long as
    the input is below [2^53]: every binary64 input from [1597] on snaps to
    [1597] in both snappers; every input up to [1.5] snaps to [1] in
    [snapFib], and in [nearestFib] when it is positive.  From [2^65] on
    every difference [n - f] rounds to [n], no member beats the first, and
    both snappers return [1]. *)
Theorem snapping_saturates (q : Q) (Hd : isDouble q) :
  (1597 <= q -> q < pow2 53 ->
   Double.nearestFib (Fin q) = num 1597 /\ Double.snapFib (Fin q) = num 1597) /\
  (q <= 3 # 2 -> Double.snapFib (Fin q) = num 1) /\
  (0 < q -> q <= 3 # 2 -> Double.nearestFib (Fin q) = num 1) /\
  (pow2 65 <= q ->
   Double.nearestFib (Fin q) = num 1 /\ Double.snapFib (Fin q) = num 1).
Proof.
  assert (Htop : In 1597%Z scale) by (unfold scale; simpl; tauto).
  assert (Hbot : In 1%Z scale) by (left; reflexivity).
  assert (H53 : pow2 53 == inject_Z (2 ^ 53)) by (apply pow2_Z; lia).
  assert (B53 : 2 < pow2 53) by (rewrite H53; reflexivity).
  split; [| split; [| split]].
  - intros Hq Hmax. assert (Hpos : 0 < q) by lra.
    assert (E : Double.nearestFib (Fin q) = num 1597).
    { destruct (Double_nearestFib_closest_low q Hd Hpos Hmax) as (f & E & Hf & Cf).
      rewrite E. f_equal.
      apply (closest_low_unique q f 1597 scale); auto using closest_low_top. }
    split; [exact E |].
    rewrite Double_snapFib_nearestFib by (apply nle_Fin_false; exact Hpos).
    exact E.
  - intros Hq.
    destruct (Double_snapFib_closest_low q Hd ltac:(lra)) as (f & E & Hf & Cf).
    rewrite E. f_equal.
    apply (closest_low_unique q f 1 scale); auto using closest_low_bottom.
  - intros Hpos Hq.
    destruct (Double_nearestFib_closest_low q Hd Hpos ltac:(lra))
      as (f & E & Hf & Cf).
    rewrite E. f_equal.
    apply (closest_low_unique q f 1 scale); auto using closest_low_bottom.
  - intros Hq.
    assert (Hpos : 0 < q).
    { apply Qlt_le_trans with (pow2 65); [apply pow2_pos | exact Hq]. }
    assert (E : Double.nearestFib (Fin q) = num 1).
    { rewrite Double_nearestFib_pos by exact Hpos.
      apply Double_nearest_loop_absorbed; [exact Hd | exact Hq |].
      intros f Hf. split; [apply scale_ge_1 | apply scale_le_top]; exact Hf. }
    split; [exact E |].
    rewrite Double_snapFib_nearestFib by (apply nle_Fin_false; exact Hpos).
    exact E.
Qed.

Lemma snapping_saturates_witness :
  Double.nearestFib (Fin 100000) = num 1597 /\
  Double.snapFib (Fin (-7)) = num 1 /\
  Double.nearestFib (Fin (1 # 1024)) = num 1 /\
  Double.nearestFib (num (2 ^ 70)) = num 1.
Proof.
  assert (D1 : isDouble 100000) by (vm_compute; reflexivity).
  assert (D2 : isDouble (-7)) by (vm_compute; reflexivity).
  assert (D3 : isDouble (1 # 1024)) by (vm_compute; reflexivity).
  assert (D4 : isDouble (inject_Z (2 ^ 70))) by (vm_compute; reflexivity).
  destruct (snapping_saturates 100000 D1) as (H1 & _).
  destruct (snapping_saturates (-7) D2) as (_ & H2 & _).
  destruct (snapping_saturates (1 # 1024) D3) as (_ & _ & H3 & _).
  destruct (snapping_saturates (inject_Z (2 ^ 70)) D4) as (_ & _ & _ & H4).
  split; [apply H1; vm_compute; [discriminate | reflexivity] |].
  split; [apply H2; vm_compute; discriminate |].
  split; [apply H3; vm_compute; [reflexivity | discriminate] |].
  apply H4. vm_compute. discriminate.
Defined.

(** ** The snappers as the program runs them *)

Lemma Double_nearestFib_fixes_offered (v : number) :
  In v ALL_FIB_WITH_ZERO -> Double.nearestFib v = v.
Proof.
  intros H. unfold ALL_FIB_WITH_ZERO, FIB, scale in H. cbn [In map] in H.
  repeat (destruct H as [<- | H]; [vm_compute; reflexivity |]). destruct H.
Qed.

Lemma Double_snapFib_fixes_members (v : number) : In v FIB -> Double.snapFib v = v.
Proof.
  intros H. unfold FIB, scale in H. cbn [In map] in H.
  repeat (destruct H as [<- | H]; [vm_compute; reflexivity |]). destruct H.
Qed.

(** X26. What was shown of the snappers in exact arithmetic on every
    input holds of them in binary64 arithmetic too.  [nearestFib] returns
    one of the offered scores and [snapFib] a member of the scale, for every
    number, [NaN] and the infinities included; for an input [<= 0] the first
    returns [0] and the second [1], on every other input they return the
    same member, which is [1] for [NaN] and [+Infinity]; and both return
    unchanged what they returned before. *)
Theorem binary64_snappers_on_every_input (n : number) :
  In (Double.nearestFib n) ALL_FIB_WITH_ZERO /\
  In (Double.snapFib n) FIB /\
  (if nle n (num 0)
   then Double.nearestFib n = num 0 /\ Double.snapFib n = num 1
   else Double.snapFib n = Double.nearestFib n /\ In (Double.nearestFib n) FIB) /\
  Double.nearestFib (Double.nearestFib n) = Double.nearestFib n /\
  Double.snapFib (Double.snapFib n) = Double.snapFib n /\
  Double.nearestFib NaN = num 1 /\
  Double.nearestFib PosInf = num 1.
Proof.
  split; [apply Double_nearestFib_In_offered |].
  split; [apply Double_snapFib_In |]. split; [| split; [| split; [| split]]].
  - destruct (nle n (num 0)) eqn:E.
    + split; [unfold Double.nearestFib; rewrite E; reflexivity |].
      destruct n as [| | | q]; try discriminate; [vm_compute; reflexivity |].
      apply Double_snapFib_low. apply nle_Fin in E. exact E.
    + pose proof (Double_snapFib_nearestFib n E) as Hs.
      split; [exact Hs |]. rewrite <- Hs. apply Double_snapFib_In.
  - apply Double_nearestFib_fixes_offered, Double_nearestFib_In_offered.
  - apply Double_snapFib_fixes_members, Double_snapFib_In.
  - vm_compute. reflexivity.
  - vm_compute. reflexivity.
Qed.

(** X27. The exact model and the program agree below [2^53]: for [NaN],
    for the infinities and for every binary64 input below [2^53], negative
    ones included, the snappers run in binary64 arithmetic return what they
    return in exact arithmetic.  From [2^65] on they differ: exact
    arithmetic gives [1597], the program [1]. *)
Theorem exact_snappers_agree_below_2_53 :
  (forall q, isDouble q -> q < pow2 53 ->
     Double.nearestFib (Fin q) = nearestFib (Fin q) /\
     Double.snapFib (Fin q) = snapFib (Fin q)) /\
  (forall n, is_finite n = false ->
     Double.nearestFib n = nearestFib n /\ Double.snapFib n = snapFib n) /\
  (forall q, isDouble q -> pow2 65 <= q ->
     Double.nearestFib (Fin q) = num 1 /\ nearestFib (Fin q) = num 1597).
Proof.
  split; [| split].
  - intros q Hd Hmax. split.
    + destruct (Qlt_le_dec 0 q) as [Hpos | Hneg].
      * destruct (Double_nearestFib_closest_low q Hd Hpos Hmax)
          as (f & Ef & Hf & Cf).
        destruct (nearestFib_closest_low q Hpos) as (g & Eg & Hg & Cg).
        rewrite Ef, Eg. f_equal.
        apply (closest_low_unique q f g scale); assumption.
      * assert (E : nle (Fin q) (num 0) = true) by (apply nle_Fin; exact Hneg).
        unfold Double.nearestFib, nearestFib. rewrite E. reflexivity.
    + destruct (Double_snapFib_closest_low q Hd Hmax) as (f & Ef & Hf & Cf).
      destruct (snapFib_closest_low q) as (g & Eg & Hg & Cg).
      rewrite Ef, Eg. f_equal.
      apply (closest_low_unique q f g scale); assumption.
  - intros [| | | q] Hn; try discriminate; split; vm_compute; reflexivity.
  - intros q Hd Hq.
    assert (Hpos : 0 < q).
    { apply Qlt_le_trans with (pow2 65); [apply pow2_pos | exact Hq]. }
    split.
    + rewrite Double_nearestFib_pos by exact Hpos.
      apply Double_nearest_loop_absorbed; [exact Hd | exact Hq |].
      intros f Hf. split; [apply scale_ge_1 | apply scale_le_top]; exact Hf.
    + destruct (nearestFib_closest_low q Hpos) as (g & Eg & Hg & Cg).
      rewrite Eg. f_equal.
      apply (closest_low_unique q g 1597 scale); auto.
      * unfold scale. simpl. tauto.
      * apply closest_low_top.
        apply Qle_trans with (pow2 65); [| exact Hq].
        rewrite (pow2_Z 65) by lia. discriminate.
Qed.

Lemma exact_snappers_agree_below_2_53_witness :
  Double.nearestFib (Fin (9 # 2)) = nearestFib (Fin (9 # 2)) /\
  Double.nearestFib (num (2 ^ 70)) = num 1 /\
  nearestFib (num (2 ^ 70)) = num 1597.
Proof.
  destruct exact_snappers_agree_below_2_53 as (H1 & _ & H3).
  destruct (H1 (9 # 2)) as [E1 _]; [vm_compute; reflexivity .. |].
  destruct (H3 (inject_Z (2 ^ 70))) as [E2 E3];
    [vm_compute; reflexivity | vm_compute; discriminate |].
  split; [exact E1 |]. split; [exact E2 | exact E3].
Defined.

(** ** Means, totals and ranking *)

Lemma fold_nadd_between (lo hi : Q) (values : list Q) :
  Forall (fun v => lo <= v /\ v <= hi) values ->
  forall acc : Q,
    exists t,
      fold_left nadd (map Fin values) (Fin acc) = Fin t /\
      acc + inject_Z (Z.of_nat (length values)) * lo <= t /\
      t <= acc + inject_Z (Z.of_nat (length values)) * hi.
Proof.
  induction 1 as [| v values [Hlo Hhi] _ IH]; intros acc.
  - exists acc. split; [reflexivity |].
    change (inject_Z (Z.of_nat (length (@nil Q)))) with 0. split; lra.
  - destruct (IH (acc + v)) as (t & Et & H1 & H2).
    exists t. split; [exact Et |].
    cbn [length]. rewrite Nat2Z.inj_succ. unfold Z.succ.
    rewrite inject_Z_plus. change (inject_Z 1) with 1.
    set (K := inject_Z (Z.of_nat (length values))) in *.
    split; lra.
Qed.

Lemma mean_Fin_between (lo hi : Q) (values : list Q) :
  values <> [] ->
  Forall (fun v => lo <= v /\ v <= hi) values ->
  exists m, mean (map Fin values) = Fin m /\ lo <= m /\ m <= hi.
Proof.
  intros Hne Hall. unfold mean. rewrite length_map.
  destruct values as [| v values]; [congruence |].
  set (vs := v :: values) in *.
  assert (Hk : length vs <> 0%nat) by discriminate.
  destruct (length vs) as [| k] eqn:Ek; [congruence |].
  cbn [Nat.eqb].
  destruct (fold_nadd_between lo hi vs Hall 0) as (t & Et & H1 & H2).
  change (num 0) with (Fin 0). rewrite Et, Ek in *.
  rewrite ndiv_count by discriminate.
  eexists. split; [reflexivity |].
  assert (Hpos : 0 < inject_Z (Z.of_nat (S k))).
  { change 0 with (inject_Z 0). rewrite <- Zlt_Qlt. lia. }
  split.
  - apply Qle_shift_div_l; [exact Hpos | lra].
  - apply Qle_shift_div_r; [exact Hpos | lra].
Qed.

(** ** The mean in binary64 arithmetic *)

(** The sum of integers is exact while the running sums stay below
    [2^53]. *)
Lemma Double_fold_nadd_Z (B : Z) (values : list Z) :
  Forall (fun v => (Z.abs v <= B)%Z) values ->
  forall acc : Z,
    (Z.abs acc + B * Z.of_nat (length values) < 2 ^ 53)%Z ->
    fold_left Double.nadd (map num values) (num acc)
    = num (acc + fold_right Z.add 0%Z values).
Proof.
  induction 1 as [| v values Hv _ IH]; intros acc Hacc.
  - cbn. rewrite Z.add_0_r. reflexivity.
  - cbn [map fold_left fold_right length] in *.
    rewrite Nat2Z.inj_succ in Hacc.
    assert (H0 : (0 <= B * Z.of_nat (length values))%Z) by nia.
    rewrite Double_nadd_num by lia. rewrite IH by lia.
    f_equal. lia.
Qed.

Lemma Double_mean_Z (B : Z) (values : list Z) :
  values <> [] ->
  Forall (fun v => (Z.abs v <= B)%Z) values ->
  (B * Z.of_nat (length values) < 2 ^ 53)%Z ->
  Double.mean (map num values)
  = round64 (inject_Z (fold_right Z.add 0%Z values)
             / inject_Z (Z.of_nat (length values))).
Proof.
  intros Hne Hall Hlen. unfold Double.mean. rewrite length_map.
  destruct (length values) as [| k] eqn:Ek.
  { destruct values; [congruence | discriminate]. }
  cbn [Nat.eqb]. rewrite <- Ek.
  rewrite (Double_fold_nadd_Z B values Hall 0) by (rewrite Ek in *; lia).
  rewrite Z.add_0_l. apply Double_ndiv_count. rewrite Ek. discriminate.
Qed.

Lemma sum_between (lo hi : Z) (values : list Z) :
  Forall (fun v => (lo <= v <= hi)%Z) values ->
  (lo * Z.of_nat (length values) <= fold_right Z.add 0%Z values
   <= hi * Z.of_nat (length values))%Z.
Proof.
  induction 1 as [| v values Hv _ IH]; [cbn; lia |].
  cbn [fold_right length]. rewrite Nat2Z.inj_succ. lia.
Qed.

(** X6. In binary64 arithmetic the mean of integer values is finite and
    lies between any two integer bounds that enclose all the values, in
    particular between the lowest and the highest of them, as long as the
    number of values times the larger bound stays below [2^53]; the mean of
    equal values is that value, and the mean of no values is [0]. *)
Theorem mean_between_bounds (lo hi : Z) (values : list Z)
        (Hall : Forall (fun v => (lo <= v <= hi)%Z) values)
        (Hsize : (Z.max (Z.abs lo) (Z.abs hi) * Z.of_nat (length values)
                  < 2 ^ 53)%Z) :
  exists m,
    Double.mean (map num values) = Fin m /\
    (values = [] -> m == 0) /\
    (values <> [] ->
     inject_Z lo <= m /\ m <= inject_Z hi /\ (lo = hi -> m == inject_Z lo)).
Proof.
  destruct values as [| v values].
  - exists 0. split; [reflexivity |]. split; [reflexivity | congruence].
  - set (vs := v :: values) in *.
    assert (Hne : vs <> []) by discriminate.
    assert (Habs : Forall (fun x => (Z.abs x <= Z.max (Z.abs lo) (Z.abs hi))%Z) vs).
    { eapply Forall_impl; [| exact Hall]. cbv beta. intros x Hx. lia. }
    assert (Hlen : (0 < Z.of_nat (length vs))%Z) by (unfold vs; cbn [length]; lia).
    rewrite (Double_mean_Z _ vs Hne Habs Hsize).
    pose proof (sum_between lo hi vs Hall) as [S1 S2].
    set (S := fold_right Z.add 0%Z vs) in *.
    set (k := Z.of_nat (length vs)) in *.
    assert (Hk : 0 < inject_Z k).
    { change 0 with (inject_Z 0). rewrite <- Zlt_Qlt. exact Hlen. }
    assert (Q1 : inject_Z lo <= inject_Z S / inject_Z k).
    { apply Qle_shift_div_l; [exact Hk |].
      rewrite <- inject_Z_mult, <- Zle_Qle. exact S1. }
    assert (Q2 : inject_Z S / inject_Z k <= inject_Z hi).
    { apply Qle_shift_div_r; [exact Hk |].
      rewrite <- inject_Z_mult, <- Zle_Qle. exact S2. }
    assert (Dlo : round64 (inject_Z lo) = num lo).
    { rewrite isDouble_Z by nia. rewrite inject_Z_Qred. reflexivity. }
    assert (Dhi : round64 (inject_Z hi) = num hi).
    { rewrite isDouble_Z by nia. rewrite inject_Z_Qred. reflexivity. }
    pose proof (round64_mono _ _ Q1) as M1. rewrite Dlo in M1.
    pose proof (round64_mono _ _ Q2) as M2. rewrite Dhi in M2.
    destruct (round64 (inject_Z S / inject_Z k)) as [| | | m]; try discriminate.
    apply nle_Fin in M1, M2.
    exists m. split; [reflexivity |]. split; [discriminate |].
    intros _. split; [exact M1 |]. split; [exact M2 |].
    intros ->. lra.
Qed.

Lemma mean_between_bounds_witness :
  exists m, Double.mean [num 1; num 8; num 3] = Fin m /\ 1 <= m /\ m <= 8.
Proof.
  destruct (mean_between_bounds 1 8 [1; 8; 3]%Z) as (m & Em & _ & H).
  - repeat constructor; lia.
  - vm_compute. reflexivity.
  - exists m. split; [exact Em |].
    destruct H as (H1 & H2 & _); [discriminate |]. split; assumption.
Defined.

Lemma Zsum_perm (l l' : list Z) :
  Permutation l l' -> fold_right Z.add 0%Z l = fold_right Z.add 0%Z l'.
Proof.
  induction 1 as [| x l l' _ IH | x y l | l l' l'' _ IH1 _ IH2];
    cbn [fold_right]; lia.
Qed.

(** X25. In binary64 arithmetic the mean of integer values does not depend
    on their order, as long as the number of values times their largest
    magnitude stays below [2^53]: the sum is then exact in whatever order it
    is taken.  So the order of the criteria of an area does not matter for
    its mean. *)
Theorem mean_order_independent (B : Z) (values values' : list Z)
        (Hperm : Permutation values values')
        (Hall : Forall (fun v => (Z.abs v <= B)%Z) values)
        (Hsize : (B * Z.of_nat (length values) < 2 ^ 53)%Z) :
  Double.mean (map num values) = Double.mean (map num values').
Proof.
  destruct values as [| v values].
  - apply Permutation_nil in Hperm. subst. reflexivity.
  - assert (Hne' : values' <> []).
    { intros ->. apply Permutation_sym, Permutation_nil in Hperm. discriminate. }
    assert (Hall' : Forall (fun x => (Z.abs x <= B)%Z) values')
      by (apply (Permutation_Forall Hperm), Hall).
    pose proof (Permutation_length Hperm) as Hlen.
    rewrite (Double_mean_Z B (v :: values)) by (try discriminate; assumption).
    rewrite (Double_mean_Z B values') by (try assumption; rewrite <- Hlen; exact Hsize).
    rewrite (Zsum_perm _ _ Hperm), Hlen. reflexivity.
Qed.

Lemma mean_order_independent_witness :
  Double.mean [num 1; num 2; num 2] = Double.mean [num 2; num 1; num 2].
Proof.
  apply (mean_order_independent 2 [1; 2; 2]%Z [2; 1; 2]%Z).
  - apply perm_swap.
  - repeat constructor; lia.
  - vm_compute. reflexivity.
Defined.

Section SortFacts.
Context {A : Type}.

Lemma sort_unchanged (compareFn : A -> A -> number) (l : list A) :
  (forall x y, In x l -> In y l -> nlt (num 0) (compareFn x y) = false) ->
  sort compareFn l = l.
Proof.
  induction l as [| x l IH]; intros H; [reflexivity |].
  cbn [sort]. rewrite IH by (intros a b Ha Hb; apply H; right; assumption).
  destruct l as [| y l]; [reflexivity |].
  cbn [sort_insert]. rewrite H; [reflexivity | left; reflexivity |].
  right. left. reflexivity.
Qed.

End SortFacts.





(** ** The ranking does not depend on the sorting algorithm *)

Lemma neqb_refl (x : number) : isNaN x = false -> neqb x x = true.
Proof. destruct x; try reflexivity; try discriminate. intros _. apply Qeq_bool_refl. Qed.

Lemma nle_antisym (x y : number) :
  nle x y = true -> nle y x = true -> neqb x y = true.
Proof.
  destruct x as [| | | a], y as [| | | b]; cbn [nle neqb]; try congruence.
  destruct (Qcompare_spec a b); try discriminate;
    destruct (Qcompare_spec b a); try discriminate; intros _ _;
    apply Qeq_bool_iff; lra.
Qed.

Lemma neqb_trans (x y t : number) :
  neqb x y = true -> neqb x t = neqb y t.
Proof.
  destruct x as [| | | a], y as [| | | b], t as [| | | c]; cbn [neqb];
    try congruence.
  intro E. apply Qeq_bool_eq in E.
  apply (Qeqb_comp a b E c c (Qeq_refl c)).
Qed.

(** Two arrangements in descending order that keep the same elements in
    the same order under every key are one. *)
Lemma descending_stable_unique {A : Type} (key : A -> number) (l1 : list A) :
  forall l2,
    Forall (fun x => isNaN (key x) = false) l1 ->
    Forall (fun x => isNaN (key x) = false) l2 ->
    StronglySorted (fun u v => nle (key v) (key u) = true) l1 ->
    StronglySorted (fun u v => nle (key v) (key u) = true) l2 ->
    (forall t, filter (fun x => neqb (key x) t) l1
               = filter (fun x => neqb (key x) t) l2) ->
    l1 = l2.
Proof.
  induction l1 as [| x l1 IH]; intros l2 N1 N2 S1 S2 Hf.
  - destruct l2 as [| y l2]; [reflexivity |]. exfalso.
    inversion N2 as [| ? ? Ny _]; subst.
    specialize (Hf (key y)). cbn [filter] in Hf.
    rewrite neqb_refl in Hf by exact Ny. discriminate.
  - inversion N1 as [| ? ? Nx N1']; subst.
    inversion S1 as [| ? ? S1' Hx]; subst.
    destruct l2 as [| y l2].
    { exfalso. specialize (Hf (key x)). cbn [filter] in Hf.
      rewrite neqb_refl in Hf by exact Nx. discriminate. }
    inversion N2 as [| ? ? Ny N2']; subst.
    inversion S2 as [| ? ? S2' Hy]; subst.
    assert (Hxy : nle (key x) (key y) = true).
    { assert (Hin : In x (filter (fun z => neqb (key z) (key x)) (y :: l2))).
      { rewrite <- (Hf (key x)). apply filter_In.
        split; [left; reflexivity | apply neqb_refl, Nx]. }
      apply filter_In in Hin. destruct Hin as [[<- | Hin] _].
      - destruct (key y) as [| | | a]; try reflexivity; try discriminate.
        apply nle_Fin. lra.
      - rewrite Forall_forall in Hy. apply Hy, Hin. }
    assert (Hyx : nle (key y) (key x) = true).
    { assert (Hin : In y (filter (fun z => neqb (key z) (key y)) (x :: l1))).
      { rewrite (Hf (key y)). apply filter_In.
        split; [left; reflexivity | apply neqb_refl, Ny]. }
      apply filter_In in Hin. destruct Hin as [[<- | Hin] _].
      - destruct (key x) as [| | | a]; try reflexivity; try discriminate.
        apply nle_Fin. lra.
      - rewrite Forall_forall in Hx. apply Hx, Hin. }
    assert (E : x = y).
    { pose proof (Hf (key x)) as H. cbn [filter] in H.
      rewrite neqb_refl in H by exact Nx.
      rewrite (nle_antisym _ _ Hyx Hxy) in H. injection H as H _. exact H. }
    subst y. f_equal. apply IH; try assumption.
    intro t. specialize (Hf t). cbn [filter] in Hf.
    destruct (neqb (key x) t); [injection Hf as Hf |]; exact Hf.
Qed.

(** X28. The ranking is fixed by what the language requires of
    [Array.prototype.sort]: whenever no row has the total [NaN], an
    arrangement of the rows that is in descending order of total and keeps
    rows of equal total in their input order is the ranking.  So the
    insertion sort that stands for [sort] returns what any conforming
    engine returns. *)
Theorem ranking_determined_by_order_and_stability
        (scs : list Scenario) (w : byArea number) (l : list Stats)
        (Htotals : Forall (fun row => isNaN (total row) = false)
                          (Double.perScenarioStats scs w))
        (Hperm : Permutation l (Double.perScenarioStats scs w))
        (Hsorted : StronglySorted (fun x y => nle (total y) (total x) = true) l)
        (Hstable : forall t,
            filter (fun row => neqb (total row) t) l =
            filter (fun row => neqb (total row) t) (Double.perScenarioStats scs w)) :
  l = Double.sortedForRanking scs w.
Proof.
  set (good := fun row : Stats =>
                 In row (Double.perScenarioStats scs w) /\
                 isNaN (total row) = false).
  assert (Hgood : Forall good (Double.perScenarioStats scs w)).
  { rewrite Forall_forall in *. intros row Hrow. split; auto. }
  assert (Hkey : forall x y, good x -> good y ->
            nlt (num 0) (Double.nsub (total y) (total x))
            = nlt (total x) (total y)).
  { intros x y Gx Gy. apply (Double_byTotal_key scs w); assumption. }
  apply (descending_stable_unique total).
  - apply (Permutation_Forall (Permutation_sym Hperm)). exact Htotals.
  - unfold Double.sortedForRanking.
    apply (Permutation_Forall (Permutation_sym (sort_perm _ _))). exact Htotals.
  - exact Hsorted.
  - unfold Double.sortedForRanking. apply (sort_descending _ total good).
    + intros x [_ Hx]. exact Hx.
    + exact Hkey.
    + exact Hgood.
  - intro t. rewrite Hstable. unfold Double.sortedForRanking. symmetry.
    apply (sort_stable _ total good); [exact Hkey | exact Hgood].
Qed.

Lemma ranking_determined_by_order_and_stability_witness :
  let c := fun sc => {| c_id := "c"; c_text := "Kriterium"; score := Some (num sc) |} in
  let sc := fun id v => {| s_id := id; s_name := id; description := "";
                           files := [];
                           criteria := ByArea [c v] [] [] [] |} in
  let scs := [sc "first" 13%Z; sc "second" 5%Z] in
  let w := ByArea (num 1) (num (-1)) (num 1) (num (-1)) in
  Double.perScenarioStats scs w = Double.sortedForRanking scs w.
Proof.
  intros c sc scs w.
  apply (ranking_determined_by_order_and_stability scs w).
  - repeat (constructor; [vm_compute; reflexivity |]). constructor.
  - reflexivity.
  - cbn [Double.perScenarioStats map scs].
    apply SSorted_cons; [apply SSorted_cons; [apply SSorted_nil | apply Forall_nil] |].
    apply Forall_cons; [vm_compute; reflexivity | apply Forall_nil].
  - intro t. reflexivity.
Defined.

(** ** Invariants of the application state *)

Lemma find_selected (id : string) (l : list Scenario) :
  In id (map s_id l) ->
  exists s, find (fun s => String.eqb (s_id s) id) l = Some s /\
            In s l /\ s_id s = id.
Proof.
  induction l as [| x l IH]; intros Hin; [destruct Hin |].
  cbn [find]. destruct (String.eqb (s_id x) id) eqn:E.
  - exists x. split; [reflexivity |]. split; [left; reflexivity |].
    apply String.eqb_eq. exact E.
  - destruct Hin as [Hx | Hin].
    + apply String.eqb_neq in E. congruence.
    + destruct (IH Hin) as (s & Hs & Hl & Hid). exists s.
      split; [exact Hs |]. split; [right; exact Hl | exact Hid].
Qed.

Lemma selected_In (st : AppState) (sel : Scenario) :
  selected st = Some sel ->
  In sel (scenarios st) /\ s_id sel = selectedScenarioId st.
Proof.
  unfold selected. intros H. apply find_some in H. destruct H as [H1 H2].
  split; [exact H1 |]. apply String.eqb_eq. exact H2.
Qed.

Lemma offeredUpdate_keeps (u : Update) (st : AppState) :
  offeredUpdate u -> stateInvariant st -> stateInvariant (apply_update st u).
Proof.
  intros (id & p & [Hid Hc] & ->) [Hsel Hsc]. split.
  - unfold validSelection in *. cbn [apply_update scenarios selectedScenarioId].
    rewrite map_map.
    erewrite map_ext; [exact Hsel |].
    intros s. cbn beta. destruct (String.eqb (s_id s) id); [| reflexivity].
    cbn [spread s_id]. rewrite Hid. reflexivity.
  - cbn [apply_update scenarios]. apply Forall_map.
    eapply Forall_impl; [| exact Hsc]. intros s Hs. cbn beta.
    destruct (String.eqb (s_id s) id); [| exact Hs].
    unfold scoresOffered. cbn [spread criteria].
    destruct (p_criteria p) as [c |]; [exact Hc | exact Hs].
Qed.

Lemma commit_offered (us : list Update) :
  Forall offeredUpdate us ->
  forall st, stateInvariant st -> stateInvariant (commit st us).
Proof.
  unfold commit. induction 1 as [| u us Hu _ IH]; intros st Hst; [exact Hst |].
  cbn [fold_left]. apply IH. apply offeredUpdate_keeps; assumption.
Qed.

Lemma updateScenario_offered (r : AppState) (p : PartialScenario) :
  offeredPartial p -> Forall offeredUpdate (updateScenario r p).
Proof.
  intros Hp. constructor; [| constructor].
  exists (selectedScenarioId r), p. split; [exact Hp | reflexivity].
Qed.

Lemma set_offered (a : Area.t) (cs : list Criterion) (c : byArea (list Criterion)) :
  Forall offeredScore cs ->
  (forall a', Forall offeredScore (get c a')) ->
  forall a', Forall offeredScore (get (set a cs c) a').
Proof.
  intros Hcs Hc a'. pose proof (Hc Area.S). pose proof (Hc Area.W).
  pose proof (Hc Area.O). pose proof (Hc Area.T).
  destruct a, a'; cbn [set get at_S at_W at_O at_T] in *; assumption.
Qed.

Lemma setCriterionScore_offered (r : AppState) (sel : Scenario) (a : Area.t)
      (id : string) (v : option number) :
  scoresOffered sel ->
  match v with None => True | Some x => In x ALL_FIB_WITH_ZERO end ->
  Forall offeredUpdate (setCriterionScore r sel a id v).
Proof.
  intros Hsel Hv. apply updateScenario_offered. split; [reflexivity |].
  cbn [onlyCriteria p_criteria]. apply set_offered; [| exact Hsel].
  apply Forall_map. eapply Forall_impl; [| exact (Hsel a)].
  intros c Hc. cbn beta. destruct (String.eqb (c_id c) id); [| exact Hc].
  unfold offeredScore. cbn [score]. exact Hv.
Qed.

Lemma ScenarioHandler_offered (trim : string -> string) (st : AppState)
      (sel : Scenario) (us : list Update) :
  scoresOffered sel -> ScenarioHandler trim st sel us ->
  Forall offeredUpdate us.
Proof.
  intros Hsel H.
  destruct H as [v | v | names | uid a text | a id text | a id | a id | a id v Hv].
  - apply updateScenario_offered. split; [reflexivity | exact I].
  - apply updateScenario_offered. split; [reflexivity | exact I].
  - apply updateScenario_offered. split; [reflexivity | exact I].
  - unfold addCriteriaFromText.
    destruct (criteriaLines trim text) as [| l ls]; [constructor |].
    apply updateScenario_offered. split; [reflexivity |].
    cbn [onlyCriteria p_criteria]. apply set_offered; [| exact Hsel].
    apply Forall_app. split; [exact (Hsel a) |].
    apply Forall_forall. intros c Hc. apply list_elem_of_In in Hc.
    apply elem_of_lookup_imap_1 in Hc. destruct Hc as (k & t & -> & _).
    exact I.
  - apply updateScenario_offered. split; [reflexivity |].
    cbn [onlyCriteria p_criteria]. apply set_offered; [| exact Hsel].
    apply Forall_map. eapply Forall_impl; [| exact (Hsel a)].
    intros c Hc. cbn beta. destruct (String.eqb (c_id c) id); exact Hc.
  - apply updateScenario_offered. split; [reflexivity |].
    cbn [onlyCriteria p_criteria]. apply set_offered; [| exact Hsel].
    apply Forall_forall. intros c Hc. apply filter_In in Hc.
    destruct Hc as [Hc _]. pose proof (Hsel a) as H.
    rewrite Forall_forall in H. apply H, Hc.
  - apply setCriterionScore_offered; [exact Hsel | exact I].
  - apply setCriterionScore_offered; [exact Hsel | exact Hv].
Qed.

Lemma applyResponse_offered (r : AppState) (sel : Scenario)
      (data : byArea (option (gmap string jsval))) :
  scoresOffered sel -> Forall offeredUpdate (applyResponse r sel data).
Proof.
  intros Hsel. unfold applyResponse.
  apply Forall_flat_map. apply Forall_forall. intros a _.
  apply Forall_flat_map. apply Forall_forall. intros c _.
  unfold scoreFromResponse.
  destruct (default JUndefined _); try constructor.
  destruct (negb (isNaN n)); [| constructor].
  apply setCriterionScore_offered; [exact Hsel | apply nearestFib_In_offered].
Qed.

Lemma aiScoreAll_offered (r : AppState) (sel : Scenario) (outcome : FetchOutcome) :
  scoresOffered sel -> Forall offeredUpdate (updates (aiScoreAll r sel outcome)).
Proof.
  intros Hsel. destruct outcome as [message | res]; cbn [aiScoreAll updates];
    [constructor |].
  destruct (negb (ok res)); cbn [updates]; [constructor |].
  destruct (json res); cbn [updates]; [constructor |].
  apply applyResponse_offered, Hsel.
Qed.

Lemma reachable_invariant (trim : string -> string) (st : AppState) :
  Reachable trim st -> stateInvariant st.
Proof.
  induction 1 as [uid0 | st fresh name _ [Hsel Hsc] | st id _ [Hsel Hsc]
                 | st id _ [Hsel Hsc] Hid | st w _ IH
                 | st sel us _ IH Es Hh | r sel st outcome _ IHr Es _ IHst].
  - split; [left; reflexivity |].
    constructor; [| constructor]. intros []; constructor.
  - split.
    + unfold validSelection. cbn. rewrite map_app. apply in_or_app.
      right. left. reflexivity.
    + cbn. apply Forall_app. split; [exact Hsc |].
      constructor; [| constructor]. intros []; constructor.
  - unfold removeScenario.
    destruct (filter _ (scenarios st)) as [| first next] eqn:Ef;
      [split; assumption |].
    assert (Hsc' : Forall scoresOffered (first :: next)).
    { rewrite <- Ef. apply Forall_forall. intros s Hs.
      apply filter_In in Hs. destruct Hs as [Hs _].
      rewrite Forall_forall in Hsc. apply Hsc, Hs. }
    destruct (String.eqb (selectedScenarioId st) id) eqn:E.
    + split; [left; reflexivity | exact Hsc'].
    + split; [| exact Hsc'].
      unfold validSelection in *.
      cbn [commit fold_left apply_update scenarios selectedScenarioId].
      rewrite <- Ef. apply in_map_iff in Hsel. destruct Hsel as (s & Hs1 & Hs2).
      apply in_map_iff. exists s. split; [exact Hs1 |].
      apply filter_In. split; [exact Hs2 |].
      rewrite Hs1, E. reflexivity.
  - split; [exact Hid | exact Hsc].
  - exact IH.
  - apply commit_offered; [| exact IH].
    apply (ScenarioHandler_offered trim st sel); [| exact Hh].
    destruct IH as [_ Hsc]. rewrite Forall_forall in Hsc.
    apply Hsc. apply (selected_In st sel Es).
  - apply commit_offered; [| exact IHst].
    apply aiScoreAll_offered.
    destruct IHr as [_ Hsc]. rewrite Forall_forall in Hsc.
    apply Hsc. apply (selected_In r sel Es).
Qed.

(** X10. In every state the application can reach, [selectedScenarioId]
    names a scenario of the list, so the lookup of [selected] in the body of
    [App] always finds one and its non-null assertion holds. *)
Theorem selected_always_defined (trim : string -> string) (st : AppState)
        (Hreach : Reachable trim st) :
  exists sel, selected st = Some sel /\ In sel (scenarios st) /\
              s_id sel = selectedScenarioId st.
Proof.
  destruct (reachable_invariant trim st Hreach) as [Hsel _].
  destruct (find_selected (selectedScenarioId st) (scenarios st) Hsel)
    as (s & Hs & Hin & Hid).
  exists s. split; [exact Hs |]. split; [exact Hin | exact Hid].
Qed.

Lemma selected_always_defined_witness :
  exists sel,
    selected (commit (commit (initialState "a1") (addScenario "b2" "Szenario B"))
                     (removeScenario
                        (commit (initialState "a1") (addScenario "b2" "Szenario B"))
                        "b2"))
    = Some sel /\ s_id sel = "a1".
Proof.
  destruct (selected_always_defined (fun s => s) _
              (R_removeScenario _ _ "b2"
                 (R_addScenario _ _ "b2" "Szenario B" (R_initial _ "a1"))))
    as (sel & H1 & _ & H2).
  exists sel. split; [exact H1 | exact H2].
Defined.

Lemma offered_value_bounds (v : number) :
  In v ALL_FIB_WITH_ZERO -> exists q, v = Fin q /\ 0 <= q /\ q <= 1597.
Proof.
  unfold ALL_FIB_WITH_ZERO, FIB, scale. simpl. intros H.
  repeat (destruct H as [<- | H];
          [eexists; split; [reflexivity | split; discriminate] |]).
  destruct H.
Qed.

Lemma offered_values (cs : list Criterion) :
  Forall offeredScore cs ->
  exists qs, filter_number (map score cs) = map Fin qs /\
             Forall (fun q => 0 <= q /\ q <= 1597) qs.
Proof.
  induction 1 as [| c cs Hc _ (qs & E & Hqs)].
  - exists []. split; [reflexivity | constructor].
  - unfold offeredScore in Hc. cbn [map filter_number].
    destruct (score c) as [v |].
    + destruct (offered_value_bounds v Hc) as (q & -> & Hq).
      exists (q :: qs). split; [cbn [map]; rewrite E; reflexivity |].
      constructor; assumption.
    + exists qs. split; assumption.
Qed.

Lemma offered_finite (cs : list Criterion) :
  Forall offeredScore cs -> finiteScores cs.
Proof.
  unfold finiteScores. apply Forall_impl. intros c Hc.
  unfold offeredScore in Hc. destruct (score c) as [v |]; [| exact I].
  destruct (offered_value_bounds v Hc) as (q & -> & _). reflexivity.
Qed.



(** ** The ranking and the means as the program runs them *)

Lemma Double_computeTotal_NaN_weight (m w : byArea number) (a : Area.t) :
  get w a = NaN -> Double.computeTotal m w = NaN.
Proof.
  unfold Double.computeTotal. destruct a; cbn [get]; intros ->;
    repeat match goal with
      | |- context [Double.nmul ?x NaN] =>
          replace (Double.nmul x NaN) with NaN by (destruct x; reflexivity)
      | |- context [Double.nadd ?x NaN] =>
          replace (Double.nadd x NaN) with NaN by (destruct x; reflexivity)
      | |- context [Double.nadd NaN ?x] => change (Double.nadd NaN x) with NaN
      end; reflexivity.
Qed.

(** X29. In binary64 arithmetic too, the ranking never drops or repeats a
    scenario, whatever the scores and weights are: its rows are those of
    [perScenarioStats] in some order, one for every scenario; and a weight
    that is [NaN] makes every total [NaN] and leaves the scenarios in their
    original order. *)
Theorem binary64_ranking_on_every_input (scs : list Scenario) (w : byArea number) :
  Permutation (Double.sortedForRanking scs w) (Double.perScenarioStats scs w) /\
  Permutation (map st_id (Double.sortedForRanking scs w)) (map s_id scs) /\
  length (Double.sortedForRanking scs w) = length scs /\
  (forall a, get w a = NaN ->
     Forall (fun row => total row = NaN) (Double.perScenarioStats scs w) /\
     Double.sortedForRanking scs w = Double.perScenarioStats scs w).
Proof.
  assert (P : Permutation (Double.sortedForRanking scs w)
                          (Double.perScenarioStats scs w))
    by apply sort_perm.
  split; [exact P |]. split; [| split].
  - rewrite (Permutation_map st_id P). unfold Double.perScenarioStats.
    rewrite map_map. reflexivity.
  - rewrite (Permutation_length P). unfold Double.perScenarioStats.
    apply length_map.
  - intros a Hnan.
    assert (H : Forall (fun row => total row = NaN) (Double.perScenarioStats scs w)).
    { unfold Double.perScenarioStats. apply Forall_map. apply Forall_forall.
      intros s _. cbn [total]. apply (Double_computeTotal_NaN_weight _ w a Hnan). }
    split; [exact H |].
    unfold Double.sortedForRanking. apply sort_unchanged.
    intros x y Hx Hy. rewrite Forall_forall in H.
    rewrite (H x Hx), (H y Hy). reflexivity.
Qed.

Lemma binary64_ranking_on_every_input_witness :
  let c := fun sc => {| c_id := "c"; c_text := "Kriterium"; score := Some (num sc) |} in
  let sc := fun id v => {| s_id := id; s_name := id; description := "";
                           files := []; criteria := ByArea [c v] [] [] [] |} in
  map st_id (Double.sortedForRanking [sc "first" 5%Z; sc "second" 13%Z]
               (ByArea (num 1) NaN (num 1) (num (-1))))
  = ["first"; "second"].
Proof.
  intros c sc.
  destruct (binary64_ranking_on_every_input [sc "first" 5%Z; sc "second" 13%Z]
              (ByArea (num 1) NaN (num 1) (num (-1)))) as (_ & _ & _ & H).
  destruct (H Area.W eq_refl) as [_ E]. rewrite E. reflexivity.
Defined.

(** X30. The exact model and the program agree on the means, up to one
    rounding: for an area whose scores are offered ones and fewer than
    [2^32] in number, as an array can hold, the mean in exact arithmetic is
    a rational [m] between [0] and [1597], and the mean in binary64
    arithmetic is [m] rounded to the nearest binary64 value, which lies
    between [0] and [1597] as well. *)
Theorem exact_means_agree_up_to_rounding (s : Scenario) (a : Area.t)
        (Hoff : Forall offeredScore (get (criteria s) a))
        (Hlen : (Z.of_nat (length (scoredCriteria (get (criteria s) a))) < 2 ^ 32)%Z) :
  exists m m',
    get (computeMeans s) a = Fin m /\
    get (Double.computeMeans s) a = round64 m /\
    round64 m = Fin m' /\
    0 <= m /\ m <= 1597 /\ 0 <= m' /\ m' <= 1597.
Proof.
  set (cs := get (criteria s) a) in *.
  destruct (offered_values cs Hoff) as (qs & Eq & Hqs).
  assert (Hm : exists m, get (computeMeans s) a = Fin m /\ 0 <= m /\ m <= 1597 /\
                         get (Double.computeMeans s) a = round64 m).
  { rewrite computeMeans_get, Double_computeMeans_get. fold cs.
    destruct (scoredCriteria cs) as [| c0 rest] eqn:Esc.
    - exists 0.
      assert (En : filter_number (map score cs) = [])
        by (rewrite filter_number_scored, Esc; reflexivity).
      rewrite En. repeat split; try reflexivity; discriminate.
    - assert (Hne : scoredCriteria cs <> []) by (rewrite Esc; discriminate).
      assert (Hk : length (scoredCriteria cs) <> 0%nat)
        by (rewrite Esc; discriminate).
      rewrite <- Esc in Hlen.
      destruct (fold_nadd_finite cs (offered_finite cs Hoff) 0) as (t & Et & Ht).
      assert (Em : mean (filter_number (map score cs))
                   = Fin (t / inject_Z (Z.of_nat (length (scoredCriteria cs))))).
      { unfold mean. rewrite scoredCriteria_length.
        destruct (length (scoredCriteria cs)) as [| k] eqn:Ek; [congruence |].
        cbn [Nat.eqb]. change (num 0) with (Fin 0). rewrite Et.
        apply ndiv_count. discriminate. }
      destruct (Double_fold_nadd_offered cs Hoff 0) as (z & Ez & Hz & _);
        [lia | lia |].
      assert (Ed : Double.mean (filter_number (map score cs))
                   = round64 (inject_Z z
                              / inject_Z (Z.of_nat (length (scoredCriteria cs))))).
      { unfold Double.mean. rewrite scoredCriteria_length.
        destruct (length (scoredCriteria cs)) as [| k] eqn:Ek; [congruence |].
        cbn [Nat.eqb]. rewrite Ez. apply Double_ndiv_count. discriminate. }
      exists (t / inject_Z (Z.of_nat (length (scoredCriteria cs)))).
      split; [exact Em |].
      assert (Hb : exists m0, mean (filter_number (map score cs)) = Fin m0 /\
                              0 <= m0 /\ m0 <= 1597).
      { rewrite Eq. apply mean_Fin_between; [| exact Hqs].
        intros ->. rewrite filter_number_scored, Esc in Eq. discriminate. }
      destruct Hb as (m0 & Em0 & B1 & B2). rewrite Em in Em0.
      injection Em0 as <-. split; [exact B1 |]. split; [exact B2 |].
      rewrite Ed. apply round64_comp.
      rewrite Hz, Ht. reflexivity. }
  destruct Hm as (m & Em & B1 & B2 & Ed).
  pose proof (round64_mono 0 m B1) as M1.
  pose proof (round64_mono m 1597 B2) as M2.
  change (round64 0) with (Fin 0) in M1.
  replace (round64 1597) with (Fin 1597) in M2 by (vm_compute; reflexivity).
  destruct (round64 m) as [| | | m'] eqn:Er;
    [discriminate M1 | discriminate M1 | discriminate M2 |].
  apply nle_Fin in M1, M2.
  exists m, m'. split; [exact Em |]. split; [rewrite Er; exact Ed |].
  split; [exact Er |]. repeat split; assumption.
Qed.

Lemma exact_means_agree_up_to_rounding_witness :
  let c := fun id sc => {| c_id := id; c_text := "Kriterium"; score := sc |} in
  let s := {| s_id := "a1"; s_name := "Szenario A"; description := "";
              files := [];
              criteria := ByArea [c "c1" (Some (num 1)); c "c2" None;
                                  c "c3" (Some (num 2)); c "c4" (Some (num 2))]
                                 [] [] [] |} in
  exists m, get (computeMeans s) Area.S = Fin m /\
            get (Double.computeMeans s) Area.S = round64 m.
Proof.
  intros c s.
  destruct (exact_means_agree_up_to_rounding s Area.S) as (m & m' & E1 & E2 & _).
  - repeat (constructor; [unfold offeredScore; cbn; tauto |]). constructor.
  - vm_compute. reflexivity.
  - exists m. split; assumption.
Defined.

(** ** Handlers of the selected scenario, run in a fresh render *)

Lemma find_updated (id : string) (p : PartialScenario) (l : list Scenario)
      (sel : Scenario) :
  p_id p = None ->
  find (fun s => String.eqb (s_id s) id) l = Some sel ->
  find (fun s => String.eqb (s_id s) id)
       (map (fun s => if String.eqb (s_id s) id then spread s p else s) l)
  = Some (spread sel p).
Proof.
  intros Hp. induction l as [| x l IH]; [discriminate |].
  cbn [find map]. destruct (String.eqb (s_id x) id) eqn:E.
  - intros H. injection H as <-.
    cbn [spread s_id]. rewrite Hp. cbn [default]. rewrite E. reflexivity.
  - rewrite E. exact IH.
Qed.

Lemma selected_after_update (st : AppState) (sel : Scenario) (p : PartialScenario) :
  p_id p = None -> selected st = Some sel ->
  selected (commit st (updateScenario st p)) = Some (spread sel p).
Proof. intros Hp Hs. apply (find_updated _ p _ sel Hp Hs). Qed.

Lemma others_after_update (st r : AppState) (p : PartialScenario) (s : Scenario) :
  s_id s <> selectedScenarioId r -> p_id p = None ->
  (In s (scenarios (commit st (updateScenario r p))) <-> In s (scenarios st)).
Proof.
  intros Hne Hp. cbn [commit updateScenario fold_left apply_update scenarios].
  rewrite in_map_iff. split.
  - intros (x & Hx & Hin).
    destruct (String.eqb (s_id x) (selectedScenarioId r)) eqn:E.
    + exfalso. apply Hne. subst s. cbn [spread s_id]. rewrite Hp.
      apply String.eqb_eq. exact E.
    + subst x. exact Hin.
  - intros Hin. exists s. split; [| exact Hin].
    apply String.eqb_neq in Hne. rewrite Hne. reflexivity.
Qed.

Lemma get_set_same {A : Type} (a : Area.t) (v : A) (c : byArea A) :
  get (set a v c) a = v.
Proof. destruct a; reflexivity. Qed.

Lemma get_set_other {A : Type} (a a' : Area.t) (v : A) (c : byArea A) :
  a' <> a -> get (set a v c) a' = get c a'.
Proof. destruct a, a'; try reflexivity; congruence. Qed.

Lemma Area_eq_dec (a a' : Area.t) : {a = a'} + {a <> a'}.
Proof. decide equality. Qed.

Lemma criteria_spread (s : Scenario) (c : byArea (list Criterion)) :
  criteria (spread s (onlyCriteria c)) = c.
Proof. reflexivity. Qed.

Lemma sameButScores_spread (s : Scenario) (c : byArea (list Criterion)) :
  (forall a, map c_id (get c a) = map c_id (get (criteria s) a) /\
             map c_text (get c a) = map c_text (get (criteria s) a)) ->
  sameButScores s (spread s (onlyCriteria c)).
Proof. intros H. repeat (split; [reflexivity |]). exact H. Qed.

(** X12. Scoring a criterion by hand, in a fresh render: afterwards every
    criterion of the selected scenario with that id in that area carries
    the new score (or none, when the score was cleared); all criteria with
    another id or in another area, all ids, texts and their order, the
    scenario's name, description and files, the selection, the weights and
    every scenario with another id are as before. *)
Theorem setCriterionScore_round_trip
        (st : AppState) (sel : Scenario) (a : Area.t) (id : string)
        (v : option number) (Hsel : selected st = Some sel) :
  exists sel',
    selected (commit st (setCriterionScore st sel a id v)) = Some sel' /\
    map score (criteriaWithId sel' a id) =
      map (fun _ => v) (criteriaWithId sel a id) /\
    (forall a' id', a' <> a \/ id' <> id ->
       criteriaWithId sel' a' id' = criteriaWithId sel a' id') /\
    sameButScores sel sel' /\
    selectedScenarioId (commit st (setCriterionScore st sel a id v)) =
      selectedScenarioId st /\
    weights (commit st (setCriterionScore st sel a id v)) = weights st /\
    (forall s, s_id s <> selectedScenarioId st ->
       (In s (scenarios (commit st (setCriterionScore st sel a id v))) <->
        In s (scenarios st))).
Proof.
  unfold setCriterionScore.
  set (cs' := map (fun c => if String.eqb (c_id c) id
                            then {| c_id := c_id c; c_text := c_text c;
                                    score := v |}
                            else c) (get (criteria sel) a)).
  exists (spread sel (onlyCriteria (set a cs' (criteria sel)))).
  split; [apply selected_after_update; [reflexivity | exact Hsel] |].
  unfold criteriaWithId. rewrite criteria_spread.
  split; [| split; [| split; [| split; [| split]]]].
  - rewrite get_set_same. unfold cs'.
    induction (get (criteria sel) a) as [| c cs IH]; [reflexivity |].
    cbn [map filter]. destruct (String.eqb (c_id c) id) eqn:E.
    + cbn [c_id]. rewrite E. cbn [map score]. rewrite IH. reflexivity.
    + rewrite E. exact IH.
  - intros a' id' Hne. destruct (Area_eq_dec a' a) as [-> | Ha].
    + destruct Hne as [Hne | Hne]; [congruence |].
      rewrite get_set_same. unfold cs'.
      induction (get (criteria sel) a) as [| c cs IH]; [reflexivity |].
      cbn [map filter]. destruct (String.eqb (c_id c) id) eqn:E.
      * cbn [c_id]. apply String.eqb_eq in E.
        assert (E' : String.eqb (c_id c) id' = false).
        { apply String.eqb_neq. congruence. }
        rewrite E'. exact IH.
      * rewrite IH. reflexivity.
    + rewrite get_set_other by exact Ha. reflexivity.
  - apply sameButScores_spread.
    intros a'. destruct (Area_eq_dec a' a) as [-> | Ha].
    + rewrite get_set_same. unfold cs'. rewrite !map_map.
      split; apply map_ext; intros c;
        destruct (String.eqb (c_id c) id); reflexivity.
    + rewrite get_set_other by exact Ha. split; reflexivity.
  - reflexivity.
  - reflexivity.
  - intros s Hs. apply others_after_update; [exact Hs | reflexivity].
Qed.

Lemma setCriterionScore_round_trip_witness :
  let c1 := {| c_id := "c1"; c_text := "Marke"; score := None |} in
  let c2 := {| c_id := "c2"; c_text := "Reichweite"; score := Some (num 2) |} in
  let sel := {| s_id := "a1"; s_name := "Szenario A"; description := "";
                files := []; criteria := ByArea [c1; c2] [] [] [] |} in
  let st := {| scenarios := [sel]; selectedScenarioId := "a1";
               weights := ByArea (num 1) (num (-1)) (num 1) (num (-1)) |} in
  exists sel',
    selected (commit st (setCriterionScore st sel Area.S "c1" (Some (num 8))))
    = Some sel' /\
    map score (criteriaWithId sel' Area.S "c1") = [Some (num 8)] /\
    map score (criteriaWithId sel' Area.S "c2") = [Some (num 2)].
Proof.
  intros c1 c2 sel st.
  destruct (setCriterionScore_round_trip st sel Area.S "c1" (Some (num 8)) eq_refl)
    as (sel' & H1 & H2 & H3 & _).
  exists sel'. split; [exact H1 |]. split; [exact H2 |].
  rewrite (H3 Area.S "c2"); [reflexivity | right; discriminate].
Defined.

Lemma spread_same_criteria (s : Scenario) :
  spread s (onlyCriteria (criteria s)) = s.
Proof. destruct s. reflexivity. Qed.

Lemma filter_filter_same {A : Type} (f : A -> bool) (l : list A) :
  filter f (filter f l) = filter f l.
Proof.
  induction l as [| x l IH]; [reflexivity |].
  cbn [filter]. destruct (f x) eqn:E; [| exact IH].
  cbn [filter]. rewrite E, IH. reflexivity.
Qed.

Lemma set_set_same {A : Type} (a : Area.t) (v v' : A) (c : byArea A) :
  set a v' (set a v c) = set a v' c.
Proof. destruct a; reflexivity. Qed.

(** X13. Deleting a criterion, in a fresh render: afterwards the selected
    scenario has no criterion with that id in that area, its criteria with
    other ids and its other areas are untouched, scenarios with another id
    are untouched, and deleting the same id once more changes nothing. *)
Theorem deleteCriterion_removes
        (st : AppState) (sel : Scenario) (a : Area.t) (id : string)
        (Hsel : selected st = Some sel) :
  exists sel',
    selected (commit st (deleteCriterion st sel a id)) = Some sel' /\
    criteriaWithId sel' a id = [] /\
    (forall a' id', a' <> a \/ id' <> id ->
       criteriaWithId sel' a' id' = criteriaWithId sel a' id') /\
    (forall s, s_id s <> selectedScenarioId st ->
       (In s (scenarios (commit st (deleteCriterion st sel a id))) <->
        In s (scenarios st))) /\
    commit (commit st (deleteCriterion st sel a id))
           (deleteCriterion (commit st (deleteCriterion st sel a id)) sel' a id)
    = commit st (deleteCriterion st sel a id).
Proof.
  unfold deleteCriterion.
  set (keep := fun c : Criterion => negb (String.eqb (c_id c) id)).
  set (c' := set a (filter keep (get (criteria sel) a)) (criteria sel)).
  exists (spread sel (onlyCriteria c')).
  split; [apply selected_after_update; [reflexivity | exact Hsel] |].
  unfold criteriaWithId. rewrite criteria_spread.
  split; [| split; [| split]].
  - unfold c'. rewrite get_set_same.
    induction (get (criteria sel) a) as [| c cs IH]; [reflexivity |].
    cbn [filter]. unfold keep at 1.
    destruct (String.eqb (c_id c) id) eqn:E; cbn [negb]; [exact IH |].
    cbn [filter]. rewrite E. exact IH.
  - intros a' id' Hne. unfold c'. destruct (Area_eq_dec a' a) as [-> | Ha].
    + destruct Hne as [Hne | Hne]; [congruence |].
      rewrite get_set_same.
      induction (get (criteria sel) a) as [| c cs IH]; [reflexivity |].
      cbn [filter]. unfold keep at 1.
      destruct (String.eqb (c_id c) id) eqn:E; cbn [negb].
      * apply String.eqb_eq in E.
        assert (E' : String.eqb (c_id c) id' = false).
        { apply String.eqb_neq. congruence. }
        rewrite E'. exact IH.
      * cbn [filter]. rewrite IH. reflexivity.
    + rewrite get_set_other by exact Ha. reflexivity.
  - intros s Hs. apply others_after_update; [exact Hs | reflexivity].
  - assert (Ec : set a (filter keep (get c' a)) c' = c').
    { unfold c'. rewrite get_set_same, filter_filter_same, set_set_same.
      reflexivity. }
    rewrite Ec. destruct st as [scs selId w].
    cbn [commit updateScenario fold_left apply_update scenarios
         selectedScenarioId weights].
    f_equal. rewrite map_map. apply map_ext. intros s.
    destruct (String.eqb (s_id s) selId) eqn:E.
    + change (s_id (spread s (onlyCriteria c'))) with (s_id s). rewrite E.
      rewrite <- (spread_same_criteria (spread s (onlyCriteria c'))) at 2.
      reflexivity.
    + rewrite E. reflexivity.
Qed.

Lemma deleteCriterion_removes_witness :
  let c1 := {| c_id := "c1"; c_text := "Marke"; score := None |} in
  let c2 := {| c_id := "c2"; c_text := "Reichweite"; score := Some (num 2) |} in
  let sel := {| s_id := "a1"; s_name := "Szenario A"; description := "";
                files := []; criteria := ByArea [c1; c2] [] [] [] |} in
  let st := {| scenarios := [sel]; selectedScenarioId := "a1";
               weights := ByArea (num 1) (num (-1)) (num 1) (num (-1)) |} in
  exists sel',
    selected (commit st (deleteCriterion st sel Area.S "c1")) = Some sel' /\
    criteriaWithId sel' Area.S "c1" = [] /\
    criteriaWithId sel' Area.S "c2" = [c2].
Proof.
  intros c1 c2 sel st.
  destruct (deleteCriterion_removes st sel Area.S "c1" eq_refl)
    as (sel' & H1 & H2 & H3 & _).
  exists sel'. split; [exact H1 |]. split; [exact H2 |].
  rewrite (H3 Area.S "c2"); [reflexivity | right; discriminate].
Defined.

(** ** Statistics under edits *)








(** ** Adding and removing scenarios *)

Lemma filter_other_ids (id : string) (l : list Scenario) :
  ~ In id (map s_id l) ->
  filter (fun s => negb (String.eqb (s_id s) id)) l = l.
Proof.
  induction l as [| x l IH]; intros H; [reflexivity |].
  cbn [filter]. destruct (String.eqb (s_id x) id) eqn:E.
  - exfalso. apply H. left. apply String.eqb_eq. exact E.
  - cbn [negb]. rewrite IH; [reflexivity |].
    intros Hin. apply H. right. exact Hin.
Qed.

(** X15. Adding a scenario under an id no scenario has puts it last and
    selects it; removing it again gives back the scenario list as it was,
    but the selection does not return to the scenario selected before: it
    lands on the first scenario of the list. *)
Theorem addScenario_then_removeScenario
        (st : AppState) (fresh name : string) (first : Scenario)
        (rest : list Scenario)
        (Hscenarios : scenarios st = first :: rest)
        (Hfresh : ~ In fresh (map s_id (scenarios st))) :
  scenarios (step st (AddScenario fresh name)) =
    scenarios st ++ [ {| s_id := fresh; s_name := name; description := "";
                         files := []; criteria := emptyCriteria |} ] /\
  selectedScenarioId (step st (AddScenario fresh name)) = fresh /\
  scenarios (run st [AddScenario fresh name; RemoveScenario fresh]) =
    scenarios st /\
  selectedScenarioId (run st [AddScenario fresh name; RemoveScenario fresh]) =
    s_id first /\
  weights (run st [AddScenario fresh name; RemoveScenario fresh]) = weights st.
Proof.
  split; [reflexivity |]. split; [reflexivity |].
  cbn [run fold_left].
  set (st1 := step st (AddScenario fresh name)).
  assert (Ef : filter (fun s => negb (String.eqb (s_id s) fresh)) (scenarios st1)
               = first :: rest).
  { unfold st1. cbn [step handle addScenario commit fold_left apply_update
                     scenarios].
    rewrite filter_app, (filter_other_ids fresh _ Hfresh). cbn [filter s_id].
    rewrite String.eqb_refl. cbn [negb]. rewrite app_nil_r. exact Hscenarios. }
  assert (Es : String.eqb (selectedScenarioId st1) fresh = true)
    by apply String.eqb_refl.
  assert (E2 : step st1 (RemoveScenario fresh) =
               {| scenarios := first :: rest; selectedScenarioId := s_id first;
                  weights := weights st |}).
  { unfold step. cbn [handle]. unfold removeScenario. rewrite Ef, Es.
    reflexivity. }
  rewrite E2. cbn [scenarios selectedScenarioId weights].
  rewrite Hscenarios. repeat split; reflexivity.
Qed.

Lemma addScenario_then_removeScenario_witness :
  let st := run (initialState "a1") [AddScenario "b2" "Szenario B"] in
  selectedScenarioId st = "b2" /\
  map s_id (scenarios (run st [AddScenario "c3" "Szenario C"; RemoveScenario "c3"]))
  = ["a1"; "b2"] /\
  selectedScenarioId (run st [AddScenario "c3" "Szenario C"; RemoveScenario "c3"])
  = "a1".
Proof.
  intros st. split; [reflexivity |].
  destruct (addScenario_then_removeScenario st "c3" "Szenario C" _ _ eq_refl)
    as (_ & _ & H1 & H2 & _).
  - cbn. intros [H | [H | []]]; discriminate.
  - rewrite H1, H2. split; reflexivity.
Defined.

(** ** More on [aiScoreAll] *)

Lemma caughtMessage_carries (message : string) :
  exists pre post, caughtMessage message = (pre ++ message ++ post)%string.
Proof.
  unfold caughtMessage.
  exists ("Fehler beim KI-Scoring:" ++ nl)%string. eexists. reflexivity.
Qed.

(** X16. [aiScoreAll] never both alerts and writes: for every outcome of
    the request it raises at most one alert, and when it raises one it
    queues no update.  When [fetch] rejects or the body of a 2xx response
    cannot be parsed, the state stays as it was and the one alert carries
    the message of the error. *)
Theorem aiScoreAll_alerts_or_writes
        (st : AppState) (sel : Scenario) (outcome : FetchOutcome) :
  (alerts (aiScoreAll st sel outcome) = [] \/
   (updates (aiScoreAll st sel outcome) = [] /\
    exists msg, alerts (aiScoreAll st sel outcome) = [msg])) /\
  (forall message,
     outcome = Rejected message \/
     (exists res, outcome = Responded res /\ ok res = true /\
                  json res = inl message) ->
     step st (AiScore outcome) = st /\
     alerts (aiScoreAll st sel outcome) = [caughtMessage message] /\
     exists pre post, caughtMessage message = (pre ++ message ++ post)%string).
Proof.
  split.
  - destruct outcome as [message | res]; cbn [aiScoreAll].
    + right. split; [reflexivity |]. eexists. reflexivity.
    + destruct (negb (ok res)).
      * right. split; [reflexivity |]. eexists. reflexivity.
      * destruct (json res).
        -- right. split; [reflexivity |]. eexists. reflexivity.
        -- left. reflexivity.
  - intros message [-> | (res & -> & Hok & Hjson)].
    + split; [| split; [reflexivity | apply caughtMessage_carries]].
      unfold step, handle. destruct (selected st); reflexivity.
    + assert (E : forall s, aiScoreAll st s (Responded res) =
                            {| updates := []; alerts := [caughtMessage message] |}).
      { intros s. unfold aiScoreAll. rewrite Hok, Hjson. reflexivity. }
      split; [| split; [rewrite E; reflexivity | apply caughtMessage_carries]].
      unfold step, handle. destruct (selected st) as [s |]; [| reflexivity].
      rewrite E. reflexivity.
Qed.










(** ** More on the service *)

(** X19. When the service answers with a mapping, the client was
    constructed, the keys of each area are exactly the ids submitted for
    that area other than [__proto__], and under the id of a criterion
    stands the score [scoreOne] gave in the call made for it; when several
    criteria of an area share an id, the score of the last of them. *)
Theorem handler_mapping_keys_and_values
        (constructed : option OpenAI) (req : Request)
        (criteria : byArea (list CriterionIn))
        (out : byArea (gmap string number))
        (Hbody : body req = ValidBody criteria)
        (Hout : handler constructed req = RespondScores out) :
  exists openai,
    constructed = Some openai /\
    forall a,
      (forall id, is_Some (get out a !! id) <->
                  In id (map in_id (get criteria a)) /\ id <> "__proto__") /\
      (forall l1 c l2,
         get criteria a = l1 ++ c :: l2 ->
         ~ In (in_id c) (map in_id l2) ->
         in_id c <> "__proto__" ->
         get out a !! in_id c = scoreOne (openai a (length l1)) (in_text c)).
Proof.
  destruct (handler_RespondScores constructed req out Hout)
    as (_ & openai & criteria' & -> & Hb & Hs).
  rewrite Hbody in Hb. injection Hb as <-.
  exists openai. split; [reflexivity |]. intros a.
  destruct (scoreAreas_Some openai criteria out Hs a) as (results & Hr & Ho).
  destruct (scoreList_inv _ _ _ Hr) as [Hids Hall].
  rewrite Ho. split.
  - intros id. rewrite record_results_keys, Hids. reflexivity.
  - intros l1 c l2 Hsplit Hlast Hp.
    assert (Hk : get criteria a !! length l1 = Some c).
    { rewrite Hsplit. apply list_lookup_middle. reflexivity. }
    destruct (Hall _ _ Hk) as (v & Hv & Es). rewrite Es.
    assert (Hres : results = take (length l1) results
                             ++ (in_id c, v) :: drop (S (length l1)) results).
    { rewrite <- (take_drop_middle results (length l1) (in_id c, v) Hv) at 1.
      reflexivity. }
    rewrite Hres. apply record_results_last; [exact Hp |].
    rewrite <- skipn_map, Hids, Hsplit, skipn_map.
    replace (l1 ++ c :: l2) with ((l1 ++ [c]) ++ l2)
      by (rewrite <- app_assoc; reflexivity).
    rewrite drop_app_length' by (rewrite length_app; cbn [length]; lia).
    exact Hlast.
Qed.

Lemma handler_mapping_keys_and_values_witness :
  let openai := fun (_ : Area.t) (k : nat) (_ : string) =>
                  if Nat.eqb k 0 then Some (JNumber (num 6))
                  else Some (JNumber (num 40)) in
  let criteria := ByArea [ {| in_id := "c1"; in_text := "Marke" |};
                           {| in_id := "c1"; in_text := "Marke" |};
                           {| in_id := "__proto__"; in_text := "Marke" |} ]
                         [] [] [] in
  exists out,
    handler (Some openai) (postScores criteria) = RespondScores out /\
    get out Area.S !! "c1" = Some (num 34) /\
    ~ is_Some (get out Area.S !! "__proto__").
Proof.
  intros openai criteria.
  assert (E : exists out,
             handler (Some openai) (postScores criteria) = RespondScores out)
    by (eexists; reflexivity).
  destruct E as [out E]. exists out. split; [exact E |].
  destruct (handler_mapping_keys_and_values (Some openai) (postScores criteria)
              criteria out eq_refl E) as (openai' & E' & H).
  injection E' as <-. destruct (H Area.S) as [H1 H2]. split.
  - etransitivity.
    + apply (H2 [ {| in_id := "c1"; in_text := "Marke" |} ]
                {| in_id := "c1"; in_text := "Marke" |}
                [ {| in_id := "__proto__"; in_text := "Marke" |} ]).
      * reflexivity.
      * cbn. intros [H' | []]. discriminate.
      * discriminate.
    + vm_compute. reflexivity.
  - rewrite H1. intros [_ Hp]. apply Hp. reflexivity.
Defined.

(** X20. What the service answers, by request: it answers with scores
    exactly when the method is POST, the body is valid, the client could be
    constructed and every judgment succeeds; it throws exactly when the
    method is POST, the body is valid and the client could not be
    constructed or some judgment fails; otherwise it answers with a text,
    status 405 when the method is not POST and 400 when it is, without
    constructing the client or asking for any judgment. *)
Theorem handler_outcomes (constructed : option OpenAI) (req : Request) :
  ((exists out, handler constructed req = RespondScores out) <->
   method req = "POST" /\
   exists criteria, body req = ValidBody criteria /\
     exists openai, constructed = Some openai /\
       forall a k c, get criteria a !! k = Some c ->
                     openai a k (in_text c) <> None) /\
  (handler constructed req = Throws <->
   method req = "POST" /\
   exists criteria, body req = ValidBody criteria /\
     (constructed = None \/
      exists openai, constructed = Some openai /\
        exists a k c, get criteria a !! k = Some c /\
                      openai a k (in_text c) = None)) /\
  (forall status text, handler constructed req = Respond status text ->
     (status = 405%N /\ method req <> "POST" \/
      status = 400%N /\ method req = "POST") /\
     forall constructed', handler constructed' req = Respond status text).
Proof.
  unfold handler.
  destruct (String.eqb_spec (method req) "POST") as [Em | Em]; cbn [negb].
  2: { split; [| split].
       - split; [intros (out & H); discriminate | intros [H _]; contradiction].
       - split; [discriminate | intros [H _]; contradiction].
       - intros status text H. injection H as <- <-.
         split; [left; split; [reflexivity | exact Em] | reflexivity]. }
  destruct (body req) as [| formatted | criteria].
  - split; [| split].
    + split; [intros (out & H); discriminate |].
      intros (_ & c & H & _). discriminate.
    + split; [discriminate | intros (_ & c & H & _); discriminate].
    + intros status text H. injection H as <- <-.
      split; [right; split; [reflexivity | exact Em] | reflexivity].
  - split; [| split].
    + split; [intros (out & H); discriminate |].
      intros (_ & c & H & _). discriminate.
    + split; [discriminate | intros (_ & c & H & _); discriminate].
    + intros status text H. injection H as <- <-.
      split; [right; split; [reflexivity | exact Em] | reflexivity].
  - destruct constructed as [openai |].
    2: { split; [| split].
         - split; [intros (out & H); discriminate |].
           intros (_ & c' & _ & openai & H & _). discriminate.
         - split; [| reflexivity].
           intros _. split; [exact Em |]. exists criteria. auto.
         - intros status text H. discriminate. }
    destruct (scoreAreas openai criteria) as [out |] eqn:Es.
    + assert (Hall : forall a k c, get criteria a !! k = Some c ->
                                   openai a k (in_text c) <> None).
      { intros a k c Hk Hnone.
        destruct (scoreAreas_Some openai criteria out Es a) as (results & Hr & _).
        rewrite (scoreList_None _ _ k c Hk Hnone) in Hr. discriminate. }
      split; [| split].
      * split; [| intros _; exists out; reflexivity].
        intros _. split; [exact Em |]. exists criteria.
        split; [reflexivity |]. exists openai. auto.
      * split; [discriminate |].
        intros (_ & c' & Hc & [H | (o & Ho & a & k & c & Hk & Hnone)]);
          [discriminate |].
        injection Hc as <-. injection Ho as <-.
        exfalso. apply (Hall a k c Hk Hnone).
      * intros status text H. discriminate.
    + destruct (scoreAreas_None_inv openai criteria Es) as (a & k & c & Hk & Hnone).
      split; [| split].
      * split; [intros (out & H); discriminate |].
        intros (_ & c' & Hc & o & Ho & Hall). injection Hc as <-.
        injection Ho as <-. exfalso. apply (Hall a k c Hk Hnone).
      * split; [| reflexivity].
        intros _. split; [exact Em |]. exists criteria. split; [reflexivity |].
        right. exists openai. split; [reflexivity |]. exists a, k, c. auto.
      * intros status text H. discriminate.
Qed.

(** X21. Service and client fit together: a score the service put into its
    mapping is a number that is not [NaN] and that [nearestFib] leaves
    unchanged, so when the client receives the mapping as the body of the
    response, the write it queues for a criterion is [setCriterionScore]
    with exactly the score the service returned under that id. *)
Theorem service_scores_pass_through_client
        (constructed : option OpenAI) (req : Request)
        (out : byArea (gmap string number))
        (Hout : handler constructed req = RespondScores out)
        (st : AppState) (sel : Scenario) (a : Area.t) (c : Criterion)
        (v : number)
        (Hv : get out a !! c_id c = Some v) :
  nearestFib v = v /\
  scoreFromResponse st sel (JNumber <$> get out a) a c =
  setCriterionScore st sel a (c_id c) (Some v).
Proof.
  destruct (handler_RespondScores constructed req out Hout)
    as (_ & openai & criteria & _ & _ & Hs).
  pose proof (scoreAreas_values openai criteria out Hs a (c_id c) v Hv) as Hin.
  assert (Hfix : nearestFib v = v).
  { apply nearestFib_fixes_offered. right. exact Hin. }
  split; [exact Hfix |].
  unfold scoreFromResponse. rewrite lookup_fmap, Hv. cbn [fmap option_fmap option_map from_option id].
  assert (Hn : isNaN v = false).
  { apply In_FIB in Hin. destruct Hin as (z & -> & _). reflexivity. }
  rewrite Hn, Hfix. reflexivity.
Qed.

Lemma service_scores_pass_through_client_witness :
  let openai := fun (_ : Area.t) (_ : nat) (_ : string) =>
                  Some (JNumber (num 40)) in
  let req := postScores (ByArea [ {| in_id := "c1"; in_text := "Marke" |} ] [] [] []) in
  let c1 := {| c_id := "c1"; c_text := "Marke"; score := None |} in
  let sel := {| s_id := "a1"; s_name := "Szenario A"; description := "";
                files := []; criteria := ByArea [c1] [] [] [] |} in
  let st := {| scenarios := [sel]; selectedScenarioId := "a1";
               weights := ByArea (num 1) (num (-1)) (num 1) (num (-1)) |} in
  exists out,
    handler (Some openai) req = RespondScores out /\
    scoreFromResponse st sel (JNumber <$> get out Area.S) Area.S c1 =
    setCriterionScore st sel Area.S "c1" (Some (num 34)).
Proof.
  intros openai req c1 sel st.
  assert (E : exists out, handler (Some openai) req = RespondScores out)
    by (eexists; reflexivity).
  destruct E as [out E]. exists out. split; [exact E |].
  apply (service_scores_pass_through_client (Some openai) req out E st sel
           Area.S c1 (num 34)).
  vm_compute in E. injection E as <-. reflexivity.
Defined.

(** ** Adding criteria from text, removing scenarios *)

Lemma split_newline_length (s : string) :
  length (split_newline s) = Datatypes.S (newlines s).
Proof.
  induction s as [| ch rest IH]; [reflexivity |].
  cbn [split_newline newlines].
  destruct (Ascii.eqb ch (Ascii.ascii_of_nat 10)).
  - cbn [length]. rewrite IH. reflexivity.
  - destruct (split_newline rest) as [| line lines]; [discriminate |].
    cbn [length] in *. rewrite IH. reflexivity.
Qed.

Lemma criteriaLines_facts (trim : string -> string) (text : string) :
  Forall (fun l => l <> EmptyString) (criteriaLines trim text) /\
  (length (criteriaLines trim text) <= Datatypes.S (newlines text))%nat.
Proof.
  unfold criteriaLines. split.
  - apply Forall_forall. intros l Hl. apply filter_In in Hl.
    destruct Hl as [_ Hl]. apply Bool.negb_true_iff in Hl.
    apply String.eqb_neq in Hl. exact Hl.
  - apply Nat.le_trans with (length (map trim (split_newline text))).
    + apply filter_length_le.
    + rewrite length_map, split_newline_length. apply Nat.le_refl.
Qed.

(** X22. Adding criteria from text, in a fresh render: the criteria of the
    area are the old ones followed by one new criterion for every line that
    is not empty after trimming, in the order of the lines; the new criteria
    carry the trimmed lines as texts, the ids [uid] returned and no score;
    there are at most as many as the text has newlines plus one; the other
    areas are untouched; and a text without such a line queues nothing. *)
Theorem addCriteriaFromText_appends
        (trim : string -> string) (st : AppState) (sel : Scenario)
        (uid : nat -> string) (a : Area.t) (text : string)
        (Hsel : selected st = Some sel) :
  (criteriaLines trim text = [] ->
   addCriteriaFromText trim st sel uid a text = []) /\
  exists sel' new,
    selected (commit st (addCriteriaFromText trim st sel uid a text)) = Some sel' /\
    get (criteria sel') a = get (criteria sel) a ++ new /\
    (forall a', a' <> a -> get (criteria sel') a' = get (criteria sel) a') /\
    map c_text new = criteriaLines trim text /\
    map c_id new = map uid (seq 0 (length new)) /\
    Forall (fun c => score c = None /\ c_text c <> EmptyString) new /\
    (length new <= Datatypes.S (newlines text))%nat.
Proof.
  destruct (criteriaLines_facts trim text) as [Hne Hlen].
  unfold addCriteriaFromText.
  destruct (criteriaLines trim text) as [| l ls] eqn:El.
  - split; [reflexivity |]. exists sel, [].
    split; [exact Hsel |]. rewrite app_nil_r.
    repeat (split; [reflexivity |]). split; [constructor | cbn; lia].
  - split; [discriminate |].
    set (lines := l :: ls) in *.
    set (new := imap (fun k t => {| c_id := uid k; c_text := t; score := None |})
                     lines).
    exists (spread sel (onlyCriteria (set a (get (criteria sel) a ++ new)
                                          (criteria sel)))), new.
    split; [apply selected_after_update; [reflexivity | exact Hsel] |].
    rewrite criteria_spread.
    split; [apply get_set_same |].
    split; [intros a' Ha; apply get_set_other, Ha |].
    assert (Hlen' : length new = length lines) by apply length_imap.
    split; [| split; [| split]].
    + unfold new. clearbody lines. clear.
      assert (G : forall (f : nat -> nat) ls,
                map c_text (imap (fun k t => {| c_id := uid (f k); c_text := t;
                                               score := None |}) ls) = ls).
      { intros f ls0. revert f. induction ls0 as [| t ls0 IH]; intros f;
          [reflexivity |].
        cbn [imap map c_text]. f_equal. apply (IH (fun k => f (Datatypes.S k))). }
      apply (G (fun k => k)).
    + rewrite Hlen'. unfold new. clearbody lines. clear.
      assert (G : forall (k0 : nat) (ls : list string),
                map c_id (imap (fun k t => {| c_id := uid (k0 + k)%nat;
                                             c_text := t; score := None |}) ls)
                = map uid (seq k0 (length ls))).
      { intros k0 ls0. revert k0. induction ls0 as [| t ls0 IH]; intros k0;
          [reflexivity |].
        cbn [imap map c_id length seq]. rewrite Nat.add_0_r. f_equal.
        rewrite <- IH. f_equal. apply imap_ext. intros i x _. cbn.
        rewrite Nat.add_succ_r. reflexivity. }
      apply (G 0%nat).
    + apply Forall_forall. intros c Hc. apply list_elem_of_In in Hc.
      apply elem_of_lookup_imap_1 in Hc. destruct Hc as (k & t & -> & Ht).
      split; [reflexivity |]. cbn [c_text].
      rewrite Forall_forall in Hne. apply Hne.
      apply list_elem_of_In. apply list_elem_of_lookup. exists k. exact Ht.
    + rewrite Hlen'. exact Hlen.
Qed.

Lemma addCriteriaFromText_appends_witness :
  let old := {| c_id := "c0"; c_text := "Marke"; score := Some (num 5) |} in
  let sel := {| s_id := "a1"; s_name := "Szenario A"; description := "";
                files := []; criteria := ByArea [old] [] [] [] |} in
  let st := {| scenarios := [sel]; selectedScenarioId := "a1";
               weights := ByArea (num 1) (num (-1)) (num 1) (num (-1)) |} in
  let uid := fun k => match k with O => "k0" | _ => "k1" end in
  let text := ("Preis" ++ nl ++ nl ++ "Reichweite")%string in
  exists sel' new,
    selected (commit st (addCriteriaFromText (fun s => s) st sel uid Area.S text))
    = Some sel' /\
    at_S (criteria sel') = old :: new /\
    map c_text new = ["Preis"; "Reichweite"].
Proof.
  intros old sel st uid text.
  destruct (addCriteriaFromText_appends (fun s => s) st sel uid Area.S text eq_refl)
    as (_ & sel' & new & H1 & H2 & _ & H3 & _).
  exists sel', new. split; [exact H1 |]. split; [exact H2 | exact H3].
Defined.

(** X23. Removing a scenario while a scenario with another id exists:
    afterwards no scenario carries the removed id, the scenarios with other
    ids are all kept in their order, the weights are untouched, and the
    selection stays where it was unless the removed id was selected, in
    which case the first remaining scenario becomes selected. *)
Theorem removeScenario_removes
        (st : AppState) (id : string) (other : Scenario)
        (Hother : In other (scenarios st)) (Hid : s_id other <> id) :
  scenarios (step st (RemoveScenario id)) =
    filter (fun s => negb (String.eqb (s_id s) id)) (scenarios st) /\
  ~ In id (map s_id (scenarios (step st (RemoveScenario id)))) /\
  (selectedScenarioId st <> id ->
   selectedScenarioId (step st (RemoveScenario id)) = selectedScenarioId st) /\
  (selectedScenarioId st = id ->
   exists first, hd_error (scenarios (step st (RemoveScenario id))) = Some first /\
                 selectedScenarioId (step st (RemoveScenario id)) = s_id first) /\
  weights (step st (RemoveScenario id)) = weights st.
Proof.
  unfold step. cbn [handle]. unfold removeScenario.
  set (keep := fun s : Scenario => negb (String.eqb (s_id s) id)).
  assert (Hin : In other (filter keep (scenarios st))).
  { apply filter_In. split; [exact Hother |]. unfold keep.
    apply Bool.negb_true_iff, String.eqb_neq, Hid. }
  assert (Hnone : ~ In id (map s_id (filter keep (scenarios st)))).
  { intros H. apply in_map_iff in H. destruct H as (s & Hs & Hf).
    apply filter_In in Hf. destruct Hf as [_ Hf]. unfold keep in Hf.
    apply Bool.negb_true_iff, String.eqb_neq in Hf. contradiction. }
  destruct (filter keep (scenarios st)) as [| first next] eqn:Ef;
    [destruct Hin |].
  destruct (String.eqb_spec (selectedScenarioId st) id) as [Es | Es].
  - cbn [commit fold_left apply_update scenarios selectedScenarioId weights].
    split; [reflexivity |]. split; [exact Hnone |].
    split; [intros H; contradiction |]. split; [| reflexivity].
    intros _. exists first. split; reflexivity.
  - cbn [commit fold_left apply_update scenarios selectedScenarioId weights].
    split; [reflexivity |]. split; [exact Hnone |].
    split; [reflexivity |]. split; [| reflexivity].
    intros H. contradiction.
Qed.

Lemma removeScenario_removes_witness :
  let st := run (initialState "a1") [AddScenario "b2" "Szenario B"] in
  map s_id (scenarios (step st (RemoveScenario "b2"))) = ["a1"] /\
  selectedScenarioId (step st (RemoveScenario "b2")) = "a1".
Proof.
  intros st.
  destruct (removeScenario_removes st "b2"
              {| s_id := "a1"; s_name := "Szenario A"; description := "";
                 files := []; criteria := emptyCriteria |})
    as (H1 & _ & _ & H2 & _).
  - left. reflexivity.
  - discriminate.
  - split; [rewrite H1; reflexivity |].
    destruct (H2 eq_refl) as (first & Hf & ->).
    rewrite H1 in Hf. injection Hf as <-. reflexivity.
Defined.

(** ** Name, description and files *)

(** X24. The callbacks of the first step, in a fresh render: [onChangeName]
    and [onChangeDesc] replace the name and the description of the selected
    scenario, [onFiles] appends the new file names behind the ones already
    attached; each leaves the id, the criteria with their scores and the
    other fields of the scenario, and every scenario with another id, as
    they were. *)
Theorem step1_callbacks
        (st : AppState) (sel : Scenario) (Hsel : selected st = Some sel) :
  (forall v,
     selected (commit st (onChangeName st v)) =
       Some {| s_id := s_id sel; s_name := v; description := description sel;
               files := files sel; criteria := criteria sel |}) /\
  (forall v,
     selected (commit st (onChangeDesc st v)) =
       Some {| s_id := s_id sel; s_name := s_name sel; description := v;
               files := files sel; criteria := criteria sel |}) /\
  (forall names,
     selected (commit st (onFiles st sel names)) =
       Some {| s_id := s_id sel; s_name := s_name sel;
               description := description sel;
               files := files sel ++ names; criteria := criteria sel |}) /\
  (forall us s,
     (exists v, us = onChangeName st v) \/ (exists v, us = onChangeDesc st v) \/
     (exists names, us = onFiles st sel names) ->
     s_id s <> selectedScenarioId st ->
     (In s (scenarios (commit st us)) <-> In s (scenarios st))).
Proof.
  split; [| split; [| split]].
  - intros v. unfold onChangeName.
    rewrite (selected_after_update st sel (onlyName v) eq_refl Hsel).
    reflexivity.
  - intros v. unfold onChangeDesc.
    rewrite (selected_after_update st sel (onlyDescription v) eq_refl Hsel).
    reflexivity.
  - intros names. unfold onFiles.
    rewrite (selected_after_update st sel (onlyFiles (files sel ++ names))
               eq_refl Hsel).
    reflexivity.
  - intros us s [(v & ->) | [(v & ->) | (names & ->)]] Hs;
      apply others_after_update; auto.
Qed.

Lemma step1_callbacks_witness :
  let sel := {| s_id := "a1"; s_name := "Szenario A"; description := "";
                files := ["plan.pdf"]; criteria := emptyCriteria |} in
  let st := {| scenarios := [sel]; selectedScenarioId := "a1";
               weights := ByArea (num 1) (num (-1)) (num 1) (num (-1)) |} in
  option_map files (selected (commit st (onFiles st sel ["foto.png"]))) =
  Some ["plan.pdf"; "foto.png"].
Proof.
  intros sel st.
  destruct (step1_callbacks st sel eq_refl) as (_ & _ & H & _).
  rewrite H. reflexivity.
Defined.
